(** * Co-evolving robot controllers: the simulator and the evolutionary loop

    A shallow embedding of [src/robots.py] (the [Robot] class) and of
    [src/gputils.py] (primitive set, [select_action], [evaluate_individuals],
    [coevolution]).

    Numbers are Python's: an [int] is an unbounded integer ([Z]), a [float] is
    an IEEE 754 binary64 value (Rocq's primitive [float], with the same
    round-to-nearest-even arithmetic).  An operation that raises in Python
    returns [Raise] here.

    A robot's position and heading and the arena's side are floats (an
    integer side such as the default 200 is its float value); health and
    ammo are ints.  Objects that the code updates in place are values here:
    a function returns the updated robot, opponent or population.  The two
    robots of a match, and the individuals of the two populations, are
    distinct objects (robots are built per match, offspring are deep
    copies), so no two of these values alias.

    The DEAP operators ([select], [mate], [mutate], tree generation and
    compilation) are the fields of a toolbox that the evolutionary loop takes
    as a parameter; an instance modelled from the spec is given for running
    the definitions. *)

From Stdlib Require Import ZArith Floats List String Bool Lia.
Import ListNotations.

Set Warnings "-inexact-float,-register-all".

Local Open Scope Z_scope.

(** ** Exceptions and results *)

Inductive exn : Type :=
| ZeroDivisionError
| OverflowError
| ValueError
| IndexError
| TypeError.

Inductive result (A : Type) : Type :=
| Ok (a : A)
| Raise (e : exn).

Arguments Ok {A} a.
Arguments Raise {A} e.

Definition rbind {A B : Type} (r : result A) (k : A -> result B) : result B :=
  match r with
  | Ok a => k a
  | Raise e => Raise e
  end.

Definition is_ok {A : Type} (r : result A) : bool :=
  match r with
  | Ok _ => true
  | Raise _ => false
  end.

Declare Scope result_scope.
Delimit Scope result_scope with result.
Notation "x <- c ;; k" := (rbind c (fun x => k))
  (at level 61, c at next level, right associativity) : result_scope.
Notation "' p <- c ;; k" := (rbind c (fun x => let 'p := x in k))
  (at level 61, p pattern, c at next level, right associativity) : result_scope.

(** ** Python numbers *)

Module PyNum.

Inductive pynum : Type :=
| PyInt (z : Z)
| PyFloat (f : float).

(** [math.pi], the double nearest to pi. *)
Definition pi : float := 0x1.921fb54442d18p+1%float.

(** [math.isfinite]. *)
Definition float_isfinite (f : float) : bool :=
  match Prim2SF f with
  | S754_zero _ | S754_finite _ _ _ => true
  | S754_infinity _ | S754_nan => false
  end.

Definition isfinite (v : pynum) : bool :=
  match v with
  | PyInt _ => true
  | PyFloat f => float_isfinite f
  end.

(** [int(f)] for a float: truncation toward zero; [ValueError] on a NaN,
    [OverflowError] on an infinity.  A finite float is [m * 2^e]; shifting
    left by a negative amount is a right shift. *)
Definition float_to_int (f : float) : result Z :=
  match Prim2SF f with
  | S754_nan => Raise ValueError
  | S754_infinity _ => Raise OverflowError
  | S754_zero _ => Ok 0
  | S754_finite s m e =>
      let mag := Z.shiftl (Zpos m) e in
      Ok (if s then - mag else mag)
  end.

(** [float(z)] for an int: the nearest double, ties to even;
    [OverflowError] when the int is too large. *)
Definition int_to_float (z : Z) : result float :=
  match binary_normalize prec emax z 0 false with
  | S754_infinity _ => Raise OverflowError
  | sf => Ok (SF2Prim sf)
  end.

Definition to_float (v : pynum) : result float :=
  match v with
  | PyInt z => int_to_float z
  | PyFloat f => Ok f
  end.

(** [abs(v)]. *)
Definition py_abs (v : pynum) : pynum :=
  match v with
  | PyInt z => PyInt (Z.abs z)
  | PyFloat f => PyFloat (abs f)
  end.

(** [int(v)]. *)
Definition py_int (v : pynum) : result Z :=
  match v with
  | PyInt z => Ok z
  | PyFloat f => float_to_int f
  end.

(** [-v]. *)
Definition py_neg (v : pynum) : pynum :=
  match v with
  | PyInt z => PyInt (- z)
  | PyFloat f => PyFloat (- f)%float
  end.

(** A binary arithmetic operator: exact on two ints, the float operation
    otherwise, an int operand being converted first (left operand first). *)
Definition arith (zop : Z -> Z -> Z) (fop : float -> float -> float)
           (a b : pynum) : result pynum :=
  match a, b with
  | PyInt x, PyInt y => Ok (PyInt (zop x y))
  | _, _ =>
      (x <- to_float a ;;
       y <- to_float b ;;
       Ok (PyFloat (fop x y)))%result
  end.

Definition py_add : pynum -> pynum -> result pynum := arith Z.add PrimFloat.add.
Definition py_sub : pynum -> pynum -> result pynum := arith Z.sub PrimFloat.sub.
Definition py_mul : pynum -> pynum -> result pynum := arith Z.mul PrimFloat.mul.

(** An int as an (unnormalised) binary float [z * 2^0]. *)
Definition int_sf (z : Z) : spec_float :=
  match z with
  | Z0 => S754_zero false
  | Zpos p => S754_finite false p 0
  | Zneg p => S754_finite true p 0
  end.

(** [a / b], true division.  Two ints give the correctly rounded quotient,
    [ZeroDivisionError] on a zero divisor and [OverflowError] when the
    quotient is out of the doubles' range.  With a float operand both are
    converted (which may overflow) before the divisor is tested. *)
Definition py_truediv (a b : pynum) : result pynum :=
  match a, b with
  | PyInt x, PyInt y =>
      if y =? 0 then Raise ZeroDivisionError
      else
        match SFdiv prec emax (int_sf x) (int_sf y) with
        | S754_infinity _ => Raise OverflowError
        | q => Ok (PyFloat (SF2Prim q))
        end
  | _, _ =>
      (x <- to_float a ;;
       y <- to_float b ;;
       if (y =? 0)%float then Raise ZeroDivisionError
       else Ok (PyFloat (x / y)%float))%result
  end.

(** C's [fmod]: the exact remainder of [x / y] truncated toward zero, with
    the sign of [x].  Both operands are scaled to integers over a common
    exponent; the remainder is representable, so the final rounding is
    exact. *)
Definition float_fmod (x y : float) : float :=
  match Prim2SF x, Prim2SF y with
  | S754_nan, _ | _, S754_nan => nan
  | S754_infinity _, _ => nan
  | _, S754_zero _ => nan
  | S754_zero _, _ => x
  | S754_finite _ _ _, S754_infinity _ => x
  | S754_finite sx mx ex, S754_finite _ my ey =>
      let e := Z.min ex ey in
      let r := Z.shiftl (Zpos mx) (ex - e) mod Z.shiftl (Zpos my) (ey - e) in
      if r =? 0 then (if sx then neg_zero else zero)
      else SF2Prim (binary_normalize prec emax (if sx then - r else r) e false)
  end.

(** [v % w] on floats (CPython's [float_rem]): [fmod], moved into the
    divisor's sign; a zero remainder takes the divisor's sign. *)
Definition float_mod (v w : float) : result float :=
  if (w =? 0)%float then Raise ZeroDivisionError
  else
    let m := float_fmod v w in
    if negb (m =? 0)%float then
      Ok (if xorb (w <? 0)%float (m <? 0)%float then (m + w)%float else m)
    else Ok (if get_sign w then neg_zero else zero).

(** Exact comparison of an int with a float ([None] against a NaN). *)
Definition cmp_int_float (x : Z) (f : float) : option comparison :=
  match Prim2SF f with
  | S754_nan => None
  | S754_infinity s => Some (if s then Gt else Lt)
  | S754_zero _ => Some (x ?= 0)
  | S754_finite s m e =>
      let v := if s then Zneg m else Zpos m in
      if 0 <=? e then Some (x ?= Z.shiftl v e)
      else Some (Z.shiftl x (- e) ?= v)
  end.

(** [a < b]. *)
Definition py_lt (a b : pynum) : bool :=
  match a, b with
  | PyInt x, PyInt y => x <? y
  | PyFloat x, PyFloat y => (x <? y)%float
  | PyInt x, PyFloat y =>
      match cmp_int_float x y with Some Lt => true | _ => false end
  | PyFloat x, PyInt y =>
      match cmp_int_float y x with Some Gt => true | _ => false end
  end.

(** [a > b]. *)
Definition py_gt (a b : pynum) : bool := py_lt b a.

(** Truth value: a number is false exactly when it is zero. *)
Definition py_bool (v : pynum) : bool :=
  match v with
  | PyInt z => negb (z =? 0)
  | PyFloat f => negb (f =? 0)%float
  end.

(** The builtins [max(a, b)] and [min(a, b)]: the first argument is kept
    unless the second is strictly better. *)
Definition py_max (a b : pynum) : pynum := if py_gt b a then b else a.
Definition py_min (a b : pynum) : pynum := if py_lt b a then b else a.

(** [l[i]] on a list, negative indices counting from the end. *)
Definition py_getitem {A : Type} (l : list A) (i : Z) : result A :=
  let n := Z.of_nat (List.length l) in
  let j := if i <? 0 then i + n else i in
  if (0 <=? j) && (j <? n) then
    match nth_error l (Z.to_nat j) with
    | Some a => Ok a
    | None => Raise IndexError
    end
  else Raise IndexError.

(** [math.floor] of a float, the spec's reading of the action index. *)
Definition float_floor (f : float) : option Z :=
  match Prim2SF f with
  | S754_zero _ => Some 0
  | S754_finite s m e => Some (Z.shiftl (if s then Zneg m else Zpos m) e)
  | S754_infinity _ | S754_nan => None
  end.

Definition py_floor (v : pynum) : option Z :=
  match v with
  | PyInt z => Some z
  | PyFloat f => float_floor f
  end.

End PyNum.

Import PyNum.

(** ** [math]: the C library's functions

    [math.cos], [math.sin] and [math.atan2] are the platform's libm functions,
    and so is [pow], which the float power [v ** 2] calls as [pow(|v|, 2.0)];
    their results are not fixed by IEEE 754, so they are an interface.
    ([math.sqrt] is IEEE's correctly rounded square root, [PrimFloat.sqrt].) *)

(** A float that is not negative: its sign bit is clear, or it is a NaN. *)
Definition sign_clear (x : spec_float) : Prop :=
  match x with
  | S754_zero s | S754_infinity s | S754_finite s _ _ => s = false
  | S754_nan => True
  end.

(** The square of [x] is a float: the rounded product [x * x] has the value
    of the exact one. *)
Definition exact_square (x : float) : bool :=
  match Prim2SF x, Prim2SF (x * x) with
  | S754_finite _ m e, S754_finite _ p q =>
      let low := Z.min (2 * e) q in
      Z.pos m * Z.pos m * 2 ^ (2 * e - low) =? Z.pos p * 2 ^ (q - low)
  | _, _ => false
  end.

(** [m_pow2 x] is [pow(x, 2.0)].  Nothing is asked of its rounding but what
    every implementation gives: the result is never negative, and it is the
    square itself where the square is a float (an error below half an ulp
    before the final rounding leaves no other result). *)
Class Libm : Type := {
  m_cos : float -> float;
  m_sin : float -> float;
  m_atan2 : float -> float -> float;
  m_pow2 : float -> float;
  m_pow2_sign : forall x, sign_clear (Prim2SF (m_pow2 x));
  m_pow2_exact : forall x, exact_square x = true -> m_pow2 x = (x * x)%float
}.

(** A reference instance of moderate accuracy, exact on the axes: Taylor
    series after reduction modulo 2 pi for the cosine and the sine, a
    polynomial on the unit interval for the arc tangent. *)
Fixpoint cos_series (terms : nat) (i r2 : float) : float :=
  match terms with
  | O => 1%float
  | S k => (1 - r2 / ((i + 1) * (i + 2)) * cos_series k (i + 2) r2)%float
  end.

Fixpoint sin_series (terms : nat) (i r2 : float) : float :=
  match terms with
  | O => 1%float
  | S k => (1 - r2 / ((i + 2) * (i + 3)) * sin_series k (i + 2) r2)%float
  end.

Definition atan_unit (z : float) : float :=
  (let z2 := z * z in
   z * (0.9998660 + z2 * (-0.3302995 + z2 * (0.1801410
        + z2 * (-0.0851330 + z2 * 0.0208351)))))%float.

Definition approx_atan2 (y x : float) : float :=
  (if abs y <=? abs x then
     if x =? 0 then y
     else
       let a := atan_unit (y / x) in
       if 0 <? x then a else if 0 <=? y then a + pi else a - pi
   else
     let a := atan_unit (x / y) in
     if 0 <? y then pi / 2 - a else - (pi / 2) - a)%float.

(** The product [x * x] meets the two laws of [pow(x, 2.0)]. *)
Lemma binary_round_aux_sign (sx : bool) (mx ex : Z) (lx : location) :
  match binary_round_aux prec emax sx mx ex lx with
  | S754_zero s | S754_infinity s | S754_finite s _ _ => s = sx
  | S754_nan => True
  end.
Proof.
  unfold binary_round_aux.
  destruct (shr_fexp prec emax mx ex lx) as [mrs' e'].
  destruct (shr_fexp prec emax _ e' loc_Exact) as [mrs'' e''].
  destruct (shr_m mrs''); [reflexivity | | exact I].
  destruct (e'' <=? emax - prec); reflexivity.
Qed.

Lemma square_sign_clear (v : float) : sign_clear (Prim2SF (v * v)).
Proof.
  rewrite mul_spec. unfold SF64mul.
  destruct (Prim2SF v) as [s | s | | s m e]; simpl;
    try (destruct s; reflexivity); try exact I.
  pose proof (binary_round_aux_sign (xorb s s) (Z.pos (m * m)) (e + e) loc_Exact) as H.
  destruct (binary_round_aux prec emax (xorb s s) (Z.pos (m * m)) (e + e) loc_Exact);
    simpl; try exact I; rewrite H; destruct s; reflexivity.
Qed.

Definition approx_libm : Libm := {|
  m_cos := fun x => let r := float_fmod x (2 * pi) in cos_series 20 0 (r * r);
  m_sin := fun x =>
    let r := float_fmod x (2 * pi) in (r * sin_series 20 0 (r * r))%float;
  m_atan2 := approx_atan2;
  m_pow2 := fun x => (x * x)%float;
  m_pow2_sign := square_sign_clear;
  m_pow2_exact := fun x _ => eq_refl
|}.

(** A second instance, which differs from the reference one in the rounding
    of [pow] at one argument, where it returns the float next above the
    rounded product, as a [pow] with an error just above half an ulp does. *)
Definition skewed_pow2 (x : float) : float :=
  if exact_square x then (x * x)%float
  else if (x =? 0x1.0ba7ced334488p+5)%float then 0x1.17d7776c0db61p+10%float
  else (x * x)%float.

Lemma skewed_pow2_sign (x : float) : sign_clear (Prim2SF (skewed_pow2 x)).
Proof.
  unfold skewed_pow2.
  destruct (exact_square x); [apply square_sign_clear | ].
  destruct (x =? 0x1.0ba7ced334488p+5)%float;
    [reflexivity | apply square_sign_clear].
Qed.

Lemma skewed_pow2_exact (x : float) :
  exact_square x = true -> skewed_pow2 x = (x * x)%float.
Proof.
  unfold skewed_pow2. intros ->. reflexivity.
Qed.

Definition skewed_libm : Libm := {|
  m_cos := @m_cos approx_libm;
  m_sin := @m_sin approx_libm;
  m_atan2 := approx_atan2;
  m_pow2 := skewed_pow2;
  m_pow2_sign := skewed_pow2_sign;
  m_pow2_exact := skewed_pow2_exact
|}.

(** [math.cos(v)] and [math.sin(v)] on a Python number: the argument is
    converted to a float; an infinite argument is a domain error. *)
Definition math_fun (g : float -> float) (v : pynum) : result pynum :=
  (x <- to_float v ;;
   if is_infinity x then Raise ValueError else Ok (PyFloat (g x)))%result.

(** ** The primitive set ([create_primitive_set]) *)

Module Primitives.

Definition protected_div (a b : pynum) : result pynum :=
  match py_truediv a b with
  | Raise ZeroDivisionError => Ok (PyInt 1)
  | r => r
  end.

Definition if_then_else (condition out1 out2 : pynum) : pynum :=
  if py_bool condition then out1 else out2.

Definition greater_than (a b : pynum) : pynum :=
  if py_gt a b then PyFloat 1.0 else PyFloat 0.0.

Definition less_than (a b : pynum) : pynum :=
  if py_lt a b then PyFloat 1.0 else PyFloat 0.0.

End Primitives.

(** ** [select_action] *)

Definition actions : list string :=
  [ "move_forward"; "turn_left"; "turn_right"; "shoot"; "reload";
    "do_nothing" ]%string.

Definition select_action (output : pynum) : result string :=
  (n <- py_int (py_abs output) ;;
   let action_num := n mod 6 in
   py_getitem actions action_num)%result.

(** The spec's action index, [floor(|output|) mod 6]. *)
Definition spec_action_index (output : pynum) : option Z :=
  option_map (fun n => n mod 6) (py_floor (py_abs output)).


(** ** [random]: the generator

    The module-level generator is a state; [random.random()] returns the next
    float of its sequence.  Library code that draws from it is a transformer
    of the same state. *)

Class RandomGen : Type := {
  rng : Type;
  random_random : rng -> float * rng;
  (** an index below [n], as [random.choice] and [random.randrange] draw it *)
  random_below : nat -> rng -> nat * rng
}.

(** A generator that replays recorded draws (then zeros): the floats that
    [random.random()] returns and the integers behind the index draws. *)
Definition tape_gen : RandomGen := {|
  rng := list float * list nat;
  random_random := fun t =>
    match fst t with
    | [] => (0%float, t)
    | r :: fs => (r, (fs, snd t))
    end;
  random_below := fun n t =>
    match snd t with
    | [] => (O, t)
    | k :: ks => (Nat.modulo k n, (fst t, ks))
    end
|}.

Section Rand.
Context {G : RandomGen}.

(** Code that draws random numbers and may raise. *)
Definition M (A : Type) : Type := rng -> result (A * rng).

Definition mret {A : Type} (a : A) : M A := fun g => Ok (a, g).

Definition mbind {A B : Type} (c : M A) (k : A -> M B) : M B :=
  fun g =>
    match c g with
    | Ok (a, g') => k a g'
    | Raise e => Raise e
    end.

Definition lift {A : Type} (r : result A) : M A :=
  fun g =>
    match r with
    | Ok a => Ok (a, g)
    | Raise e => Raise e
    end.

Definition random : M float := fun g => Ok (random_random g).

(** [random.choice(seq)]: [IndexError] on an empty sequence. *)
Definition choice {A : Type} (seq : list A) : M A :=
  fun g =>
    let (i, g') := random_below (List.length seq) g in
    match nth_error seq i with
    | Some a => Ok (a, g')
    | None => Raise IndexError
    end.

(** [random.randint(a, b)]: an integer of [a..b]. *)
Definition randint (a b : Z) : M Z :=
  fun g =>
    let (i, g') := random_below (Z.to_nat (b - a + 1)) g in
    Ok (a + Z.of_nat i, g').

(** [random.uniform(a, b)] is [a + (b - a) * random()]. *)
Definition uniform (a b : float) : M float :=
  mbind random (fun r => mret (a + (b - a) * r)%float).
End Rand.

Declare Scope rand_scope.
Delimit Scope rand_scope with rand.
Notation "x <- c ;; k" := (mbind c (fun x => k))
  (at level 61, c at next level, right associativity) : rand_scope.
Notation "' p <- c ;; k" := (mbind c (fun x => let 'p := x in k))
  (at level 61, p pattern, c at next level, right associativity) : rand_scope.

(** ** [robots.py]: the robot *)

(** The [sensors] dictionary; its five keys are fixed by [__init__]. *)
Module Sensors.
Record t : Type := make {
  enemy_distance : pynum;
  enemy_direction : pynum;
  health : pynum;
  ammo : pynum;
  wall_distance : pynum
}.
End Sensors.

(** Float operations of [math] and of the language that can raise. *)

(** [v ** 2] on a float, as the interpreter's float power does it for the
    exponent 2.0: a NaN is returned as it is, an infinity gives the positive
    infinity, a zero gives 0.0, and 1.0 or -1.0 gives 1.0, all without a call
    of [pow]; any other [v] gives [pow(|v|, 2.0)], and [OverflowError] when
    that result is infinite. *)
Definition float_sq {L : Libm} (v : float) : result float :=
  if is_nan v then Ok v
  else if is_infinity v then Ok (abs v)
  else if (v =? 0)%float then Ok 0%float
  else
    let iv := if (v <? 0)%float then (- v)%float else v in
    if (iv =? 1)%float then Ok 1%float
    else
      let ix := m_pow2 iv in
      if is_infinity ix then Raise OverflowError else Ok ix.

(** [math.sqrt(v)]: a domain error below zero. *)
Definition math_sqrt (v : float) : result float :=
  if (v <? 0)%float then Raise ValueError else Ok (sqrt v).

(** The builtin [min] over a first item and the rest: the earliest smallest
    item. *)
Definition float_min (first : float) (rest : list float) : float :=
  fold_left (fun m item => if (item <? m)%float then item else m) rest first.

Module Robot.

Record t : Type := make {
  x : float;
  y : float;
  health : Z;
  ammo : Z;
  direction : float;
  last_action : option string;
  sensors : Sensors.t
}.

Definition set_position (r : t) (nx ny : float) : t :=
  make nx ny (health r) (ammo r) (direction r) (last_action r) (sensors r).
Definition set_health (r : t) (h : Z) : t :=
  make (x r) (y r) h (ammo r) (direction r) (last_action r) (sensors r).
Definition set_ammo (r : t) (a : Z) : t :=
  make (x r) (y r) (health r) a (direction r) (last_action r) (sensors r).
Definition set_direction (r : t) (d : float) : t :=
  make (x r) (y r) (health r) (ammo r) d (last_action r) (sensors r).
Definition set_last_action (r : t) (a : string) : t :=
  make (x r) (y r) (health r) (ammo r) (direction r) (Some a) (sensors r).
Definition set_sensors (r : t) (s : Sensors.t) : t :=
  make (x r) (y r) (health r) (ammo r) (direction r) (last_action r) s.

Section WithLibm.
Context {L : Libm}.

(** [math.cos] and [math.sin] on a float. *)
Definition math_cos (v : float) : result float :=
  if is_infinity v then Raise ValueError else Ok (m_cos v).
Definition math_sin (v : float) : result float :=
  if is_infinity v then Raise ValueError else Ok (m_sin v).

(** [Robot(x, y, health, ammo)]; the facing is drawn at random. *)
Definition init {G : RandomGen} (x y : float) (health ammo : Z) : M t :=
  (d <- uniform 0 (2 * pi) ;;
   mret (make x y health ammo d None
           (Sensors.make (PyInt 0) (PyInt 0) (PyInt 100) (PyInt 50)
              (PyInt 0))))%rand.

(** [Robot(x, y)]: the defaults [health=100], [ammo=50]. *)
Definition new {G : RandomGen} (x y : float) : M t := init x y 100 50.

(** [self.update_sensors(opponent, arena_size)]: the robot with its new
    sensor readings. *)
Definition update_sensors (self opponent : t) (arena_size : float)
  : result t :=
  (let dx := (x opponent - x self)%float in
   let dy := (y opponent - y self)%float in
   dx2 <- float_sq dx ;;
   dy2 <- float_sq dy ;;
   dist <- math_sqrt (dx2 + dy2) ;;
   let enemy_dir := m_atan2 dy dx in
   rel <- float_mod (enemy_dir - direction self) (2 * pi) ;;
   let wall :=
     float_min (x self)
       [ (arena_size - x self)%float; y self;
         (arena_size - y self)%float ] in
   Ok (set_sensors self
         (Sensors.make (PyFloat dist) (PyFloat rel) (PyInt (health self))
            (PyInt (ammo self)) (PyFloat wall))))%result.

(** [self.execute_action(action, opponent, arena_size)]: the robot and
    its opponent afterwards. *)
Definition execute_action (action : string) (self opponent : t)
           (arena_size : float) : result (t * t) :=
  (let self := set_last_action self action in
   if (action =? "move_forward")%string then
     let move_dist := 5%float in
     c <- math_cos (direction self) ;;
     let new_x := (x self + move_dist * c)%float in
     s <- math_sin (direction self) ;;
     let new_y := (y self + move_dist * s)%float in
     if (0 <=? new_x)%float && (new_x <=? arena_size)%float
        && ((0 <=? new_y)%float && (new_y <=? arena_size)%float)
     then Ok (set_position self new_x new_y, opponent)
     else Ok (self, opponent)
   else if (action =? "turn_left")%string then
     d <- float_mod (direction self - pi / 8) (2 * pi) ;;
     Ok (set_direction self d, opponent)
   else if (action =? "turn_right")%string then
     d <- float_mod (direction self + pi / 8) (2 * pi) ;;
     Ok (set_direction self d, opponent)
   else if (action =? "shoot")%string && (0 <? ammo self) then
     let self := set_ammo self (ammo self - 1) in
     let dx := (x opponent - x self)%float in
     let dy := (y opponent - y self)%float in
     let angle_to_opponent := m_atan2 dy dx in
     m <- float_mod (angle_to_opponent - direction self) (2 * pi) ;;
     let angle_diff := abs m in
     hit <- (if (angle_diff <? pi / 8)%float then
               dx2 <- float_sq dx ;;
               dy2 <- float_sq dy ;;
               dist <- math_sqrt (dx2 + dy2) ;;
               Ok (dist <? 50)%float
             else Ok false) ;;
     if hit then Ok (self, set_health opponent (health opponent - 20))
     else Ok (self, opponent)
   else if (action =? "reload")%string then
     Ok (set_ammo self (Z.min 50 (ammo self + 10)), opponent)
   else if (action =? "do_nothing")%string then
     Ok (self, opponent)
   else Ok (self, opponent))%result.

(** A sequence of actions of one robot, executed in order. *)
Fixpoint execute_actions (todo : list string) (self opponent : t)
         (arena_size : float) : result (t * t) :=
  match todo with
  | [] => Ok (self, opponent)
  | action :: rest =>
      ('(self, opponent) <- execute_action action self opponent arena_size ;;
       execute_actions rest self opponent arena_size)%result
  end.

(** The spec's two conditions of a hit, as functions of the two robots. *)
Definition angular_difference (self opponent : t) : result float :=
  (let dx := (x opponent - x self)%float in
   let dy := (y opponent - y self)%float in
   m <- float_mod (m_atan2 dy dx - direction self) (2 * pi) ;;
   Ok (abs m))%result.

Definition distance (self opponent : t) : result float :=
  (dx2 <- float_sq (x opponent - x self) ;;
   dy2 <- float_sq (y opponent - y self) ;;
   math_sqrt (dx2 + dy2))%result.

(** A shot of [self] hits: the angular difference is below pi/8 and the
    distance below 50. *)
Definition hits (self opponent : t) : Prop :=
  exists diff dist,
    angular_difference self opponent = Ok diff /\ (diff <? pi / 8)%float = true /\
    distance self opponent = Ok dist /\ (dist <? 50)%float = true.

End WithLibm.
End Robot.


(** ** Program trees and individuals *)

Module GP.

(** The functions of the primitive set, by the name they are registered
    under. *)
Inductive primitive : Type :=
| Add | Sub | Mul | Neg | Max | Min | ProtectedDiv
| IfThenElse | GreaterThan | LessThan | Sin | Cos.

(** The five arguments of a program, renamed after the sensors. *)
Inductive argument : Type :=
| EnemyDistance | EnemyDirection | Health | Ammo | WallDistance.

Inductive terminal : Type :=
| Arg (a : argument)
| Constant (v : pynum).

(** Modelled from the spec: DEAP's [gp.PrimitiveTree] is not under src/;
    section 3, Node: a terminal (a named input or a constant) or a function
    with the ordered list of its children. *)
Inductive Node : Type :=
| Terminal (t : terminal)
| Function (p : primitive) (children : list Node).

Definition arity (p : primitive) : nat :=
  match p with
  | Neg | Sin | Cos => 1
  | IfThenElse => 3
  | _ => 2
  end.

(** The ephemeral constants: a terminal whose value is drawn when a tree is
    built. *)
Inductive ephemeral : Type :=
| RandInt | RandFloat | RandAngle.

Record PrimitiveSet : Type := mkPrimitiveSet {
  functions : list primitive;
  ephemerals : list ephemeral
}.

(** What [create_primitive_set] registers, in its order, besides the five
    arguments; the three flags add the optional primitives. *)
Definition create_primitive_set (ifelse logicals angle_primitives : bool)
  : PrimitiveSet :=
  mkPrimitiveSet
    ([Add; Sub; Mul; Neg; Max; Min; ProtectedDiv]
       ++ (if ifelse then [IfThenElse] else [])
       ++ (if logicals then [GreaterThan; LessThan] else [])
       ++ (if angle_primitives then [Sin; Cos] else []))
    ([RandInt; RandFloat]
       ++ (if angle_primitives then [RandAngle] else [])).

(** Modelled from the spec: the size of an ExpressionTree (section 3), its
    node count. *)
Fixpoint size (n : Node) : nat :=
  match n with
  | Terminal _ => 1
  | Function _ children => S (list_sum (map size children))
  end.

(** The subtree rooted at the node of preorder index [i]. *)
Fixpoint subtree (n : Node) (i : nat) : option Node :=
  match i with
  | O => Some n
  | S j =>
      match n with
      | Terminal _ => None
      | Function _ children =>
          (fix among (cs : list Node) (j : nat) : option Node :=
             match cs with
             | [] => None
             | c :: cs' =>
                 if (j <? size c)%nat then subtree c j
                 else among cs' (j - size c)%nat
             end) children j
      end
  end.

(** The tree with the subtree at preorder index [i] replaced by [new]
    (unchanged when there is no such node). *)
Fixpoint replace (n : Node) (i : nat) (new : Node) : Node :=
  match i with
  | O => new
  | S j =>
      match n with
      | Terminal _ => n
      | Function p children =>
          Function p
            ((fix among (cs : list Node) (j : nat) : list Node :=
                match cs with
                | [] => []
                | c :: cs' =>
                    if (j <? size c)%nat then replace c j new :: cs'
                    else c :: among cs' (j - size c)%nat
                end) children j)
      end
  end.

(** A compiled tree: a function of the five sensor values. *)
Definition program : Type :=
  pynum -> pynum -> pynum -> pynum -> pynum -> result pynum.

Section Evaluator.
Context {L : Libm}.

Definition apply_primitive (p : primitive) (args : list pynum)
  : result pynum :=
  match p, args with
  | Add, [a; b] => py_add a b
  | Sub, [a; b] => py_sub a b
  | Mul, [a; b] => py_mul a b
  | Neg, [a] => Ok (py_neg a)
  | Max, [a; b] => Ok (py_max a b)
  | Min, [a; b] => Ok (py_min a b)
  | ProtectedDiv, [a; b] => Primitives.protected_div a b
  | IfThenElse, [c; a; b] => Ok (Primitives.if_then_else c a b)
  | GreaterThan, [a; b] => Ok (Primitives.greater_than a b)
  | LessThan, [a; b] => Ok (Primitives.less_than a b)
  | Sin, [a] => math_fun m_sin a
  | Cos, [a] => math_fun m_cos a
  | _, _ => Raise TypeError
  end.

(** Modelled from the spec: DEAP's [gp.compile] is not under src/; this
    is the Evaluator of section 4.3: a terminal is its constant or the
    value supplied for its named input, a function evaluates all its
    children (left to right) and then applies its primitive. *)
Fixpoint compile (n : Node) : program :=
  fun enemy_distance enemy_direction health ammo wall_distance =>
    match n with
    | Terminal (Constant v) => Ok v
    | Terminal (Arg a) =>
        Ok match a with
           | EnemyDistance => enemy_distance
           | EnemyDirection => enemy_direction
           | Health => health
           | Ammo => ammo
           | WallDistance => wall_distance
           end
    | Function p children =>
        (args <-
           (fix all (cs : list Node) : result (list pynum) :=
              match cs with
              | [] => Ok []
              | c :: cs' =>
                  v <- compile c enemy_distance enemy_direction health
                         ammo wall_distance ;;
                  vs <- all cs' ;;
                  Ok (v :: vs)
              end) children ;;
         apply_primitive p args)%result
    end.
End Evaluator.

(** Modelled from the spec: [creator.Individual] and DEAP's [base.Fitness]
    are not under src/; section 3, Individual: a tree and a fitness state,
    Unevaluated ([None]: [fitness.valid] is false, [fitness.values] is the
    empty tuple) or Evaluated with an integer score. *)
Record Individual : Type := mkIndividual {
  tree : Node;
  fitness : option Z
}.

Definition valid (ind : Individual) : bool :=
  match fitness ind with
  | Some _ => true
  | None => false
  end.

Definition set_fitness (ind : Individual) (f : option Z) : Individual :=
  mkIndividual (tree ind) f.

(** [ind.fitness.values[0]]: the tuple of an invalid fitness is empty. *)
Definition fitness_value (ind : Individual) : result Z :=
  match fitness ind with
  | Some s => Ok s
  | None => Raise IndexError
  end.

Section Operators.
Context {G : RandomGen}.

(** The two trees with the subtrees at preorder indices [i1] and [i2]
    exchanged (unchanged when an index names no node). *)
Definition swap_subtrees (t1 t2 : Node) (i1 i2 : nat) : Node * Node :=
  match subtree t1 i1, subtree t2 i2 with
  | Some s1, Some s2 => (replace t1 i1 s2, replace t2 i2 s1)
  | _, _ => (t1, t2)
  end.

(** Modelled from the spec: DEAP's [gp.cxOnePoint] is not under src/;
    section 4.5, subtree crossover: pick a node at random within each
    parent's tree and swap the two subtrees rooted there. *)
Definition cxOnePoint (t1 t2 : Node) : M (Node * Node) :=
  fun g =>
    let (i1, g1) := random_below (size t1) g in
    let (i2, g2) := random_below (size t2) g1 in
    Ok (swap_subtrees t1 t2 i1 i2, g2).

(** Modelled from the spec: DEAP's [gp.mutUniform] is not under src/;
    section 4.5, subtree mutation: pick one node at random and replace
    its subtree with a freshly grown one ([expr] grows it). *)
Definition mutUniform (expr : M Node) (t : Node) : M Node :=
  fun g =>
    let (i, g1) := random_below (size t) g in
    match expr g1 with
    | Ok (new, g2) => Ok (replace t i new, g2)
    | Raise e => Raise e
    end.

(** [a] unless [b]'s fitness is strictly greater; an invalid fitness is
    below every score. *)
Definition fitter (a b : Individual) : Individual :=
  match fitness a, fitness b with
  | Some x, Some y => if x <? y then b else a
  | None, Some _ => b
  | _, None => a
  end.

(** One tournament: [tournsize] aspirants drawn with replacement, the
    first of the fittest wins. *)
Fixpoint tournament (individuals : list Individual) (tournsize : nat)
         (best : Individual) : M Individual :=
  match tournsize with
  | O => mret best
  | S n =>
      (a <- choice individuals ;;
       tournament individuals n (fitter best a))%rand
  end.

(** Modelled from the spec: DEAP's [tools.selTournament] is not under
    src/; section 4.5, tournament selection: [k] tournaments, each among
    [tournsize] individuals sampled with replacement, each won by the
    one with maximum fitness, ties broken by first sampled. *)
Fixpoint selTournament (individuals : list Individual) (k tournsize : nat)
  : M (list Individual) :=
  match k with
  | O => mret []
  | S k' =>
      (chosen <-
         match tournsize with
         | O => lift (Raise ValueError)
         | S n =>
             first <- choice individuals ;;
             tournament individuals n first
         end ;;
       rest <- selTournament individuals k' tournsize ;;
       mret (chosen :: rest))%rand
  end.
(** The value of an ephemeral constant, drawn as [create_primitive_set]
    registers it. *)
Definition draw_ephemeral (c : ephemeral) : M pynum :=
  match c with
  | RandInt => (z <- randint 0 10 ;; mret (PyInt z))%rand
  | RandFloat => (f <- uniform (-1) 1 ;; mret (PyFloat f))%rand
  | RandAngle => (f <- uniform (-3.14) 3.14 ;; mret (PyFloat f))%rand
  end.

Definition draw_terminal (pset : PrimitiveSet) : M Node :=
  (pick <- choice (map inl [EnemyDistance; EnemyDirection; Health; Ammo;
                             WallDistance]
                    ++ map inr (ephemerals pset)) ;;
   match pick with
   | inl a => mret (Terminal (Arg a))
   | inr c => v <- draw_ephemeral c ;; mret (Terminal (Constant v))
   end)%rand.

Fixpoint draw_all {A : Type} (n : nat) (c : M A) : M (list A) :=
  match n with
  | O => mret []
  | S n' => (a <- c ;; rest <- draw_all n' c ;; mret (a :: rest))%rand
  end.

(** Modelled from the spec: DEAP's [gp.genFull] is not under src/; section
    4.2, the full method: every leaf at the target depth, functions above,
    both chosen uniformly. *)
Fixpoint genFull (pset : PrimitiveSet) (depth : nat) : M Node :=
  match depth with
  | O => draw_terminal pset
  | S d =>
      (p <- choice (functions pset) ;;
       children <- draw_all (arity p) (genFull pset d) ;;
       mret (Function p children))%rand
  end.

(** Modelled from the spec: DEAP's [gp.genGrow] is not under src/; section
    4.2, the grow method: below the target depth a terminal or a function,
    at the target depth a terminal. *)
Fixpoint genGrow (pset : PrimitiveSet) (depth : nat) : M Node :=
  match depth with
  | O => draw_terminal pset
  | S d =>
      (leaf <- choice [true; false] ;;
       if leaf : bool then draw_terminal pset
       else
         p <- choice (functions pset) ;;
         children <- draw_all (arity p) (genGrow pset d) ;;
         mret (Function p children))%rand
  end.

(** Modelled from the spec: DEAP's [gp.genHalfAndHalf] is not under src/;
    section 4.2, ramped half-and-half: a depth of [min_..max_], then one of
    the two methods with equal probability. *)
Definition genHalfAndHalf (pset : PrimitiveSet) (min_ max_ : Z) : M Node :=
  (depth <- randint min_ max_ ;;
   full <- choice [true; false] ;;
   if full : bool then genFull pset (Z.to_nat depth)
   else genGrow pset (Z.to_nat depth))%rand.

End Operators.

(** The toolbox [setup_evolution] builds: the operations registered under
    the names [individual], [compile], [mate], [mutate] and [select]
    ([population] and [clone] are derived: a population is a list of fresh
    individuals, a clone is a copy). *)
Record Toolbox {G : RandomGen} : Type := mkToolbox {
  individual : M Individual;
  compile_expr : Node -> program;
  mate : Node -> Node -> M (Node * Node);
  mutate : Node -> M Node;
  select : list Individual -> nat -> M (list Individual)
}.

(** [setup_evolution(pset)]: ramped half-and-half of depth 3 to 5 for new
    individuals, one-point crossover, uniform mutation with a full subtree
    of depth 0 to 2, tournaments of size 3. *)
Definition setup_evolution {L : Libm} {G : RandomGen} (pset : PrimitiveSet)
  : Toolbox :=
  mkToolbox G
    (expr <- genHalfAndHalf pset 3 5 ;; mret (mkIndividual expr None))%rand
    compile
    cxOnePoint
    (mutUniform (depth <- randint 0 2 ;; genFull pset (Z.to_nat depth))%rand)
    (fun individuals k => selTournament individuals k 3).

End GP.

Import GP.

(** ** [evaluate_individuals] *)

Section Evaluate.
Context {L : Libm} {G : RandomGen}.
Variable toolbox : Toolbox.

(** Lines 96-102: an individual without a valid fitness starts at 0. *)
Definition init_fitness (pop : list Individual) : list Individual :=
  map (fun ind => if valid ind then ind else set_fitness ind (Some 0)) pop.

(** One pass of the body of the step loop, up to the end-of-battle test. *)
Definition tick (func1 func2 : program) (arena_size : float)
           (robots : Robot.t * Robot.t) : result (Robot.t * Robot.t) :=
  (let (robot1, robot2) := robots in
   robot1 <- Robot.update_sensors robot1 robot2 arena_size ;;
   robot2 <- Robot.update_sensors robot2 robot1 arena_size ;;
   output1 <- func1 (Sensors.enemy_distance (Robot.sensors robot1))
                    (Sensors.enemy_direction (Robot.sensors robot1))
                    (Sensors.health (Robot.sensors robot1))
                    (Sensors.ammo (Robot.sensors robot1))
                    (Sensors.wall_distance (Robot.sensors robot1)) ;;
   output2 <- func2 (Sensors.enemy_distance (Robot.sensors robot2))
                    (Sensors.enemy_direction (Robot.sensors robot2))
                    (Sensors.health (Robot.sensors robot2))
                    (Sensors.ammo (Robot.sensors robot2))
                    (Sensors.wall_distance (Robot.sensors robot2)) ;;
   action1 <- select_action output1 ;;
   action2 <- select_action output2 ;;
   '(robot1, robot2) <- Robot.execute_action action1 robot1 robot2 arena_size ;;
   '(robot2, robot1) <- Robot.execute_action action2 robot2 robot1 arena_size ;;
   Ok (robot1, robot2))%result.

Definition battle_over (robots : Robot.t * Robot.t) : bool :=
  (Robot.health (fst robots) <=? 0) || (Robot.health (snd robots) <=? 0).

(** [for _ in range(max_steps)]: the battle, left early once a robot's
    health is not positive. *)
Fixpoint battle (max_steps : nat) (func1 func2 : program)
         (arena_size : float) (robots : Robot.t * Robot.t)
  : result (Robot.t * Robot.t) :=
  match max_steps with
  | O => Ok robots
  | S n =>
      (robots <- tick func1 func2 arena_size robots ;;
       if battle_over robots then Ok robots
       else battle n func1 func2 arena_size robots)%result
  end.

(** [k] passes of the loop body, with no test in between. *)
Fixpoint ticks (k : nat) (func1 func2 : program) (arena_size : float)
         (robots : Robot.t * Robot.t) : result (Robot.t * Robot.t) :=
  match k with
  | O => Ok robots
  | S k' =>
      (robots <- tick func1 func2 arena_size robots ;;
       ticks k' func1 func2 arena_size robots)%result
  end.

(** Lines 154-157: the fitness update from the battle's outcome. *)
Definition credit (robots : Robot.t * Robot.t) (ind1 ind2 : Individual)
  : result (Individual * Individual) :=
  (let (robot1, robot2) := robots in
   if (0 <? Robot.health robot1) && (Robot.health robot2 <=? 0) then
     v <- fitness_value ind1 ;;
     Ok (set_fitness ind1 (Some (v + 1)), ind2)
   else if (0 <? Robot.health robot2) && (Robot.health robot1 <=? 0) then
     v <- fitness_value ind2 ;;
     Ok (ind1, set_fitness ind2 (Some (v + 1)))
   else Ok (ind1, ind2))%result.

(** The two robots of a match, placed at random inside the margin. *)
Definition place_robots (arena_size : float) : M (Robot.t * Robot.t) :=
  (x1 <- uniform 50 (arena_size - 50) ;;
   y1 <- uniform 50 (arena_size - 50) ;;
   robot1 <- Robot.new x1 y1 ;;
   x2 <- uniform 50 (arena_size - 50) ;;
   y2 <- uniform 50 (arena_size - 50) ;;
   robot2 <- Robot.new x2 y2 ;;
   mret (robot1, robot2))%rand.

(** The body of the competition loop for one pair. *)
Definition play (arena_size : float) (max_steps : Z)
           (ind1 ind2 : Individual) : M (Individual * Individual) :=
  (robots <- place_robots arena_size ;;
   let func1 := compile_expr toolbox (tree ind1) in
   let func2 := compile_expr toolbox (tree ind2) in
   robots <- lift (battle (Z.to_nat max_steps) func1 func2 arena_size
                     robots) ;;
   lift (credit robots ind1 ind2))%rand.

(** [for ind2 in pop2]: one individual of [pop1] against all of [pop2]. *)
Fixpoint versus (arena_size : float) (max_steps : Z) (ind1 : Individual)
         (pop2 : list Individual) : M (Individual * list Individual) :=
  match pop2 with
  | [] => mret (ind1, [])
  | ind2 :: rest =>
      ('(ind1, ind2) <- play arena_size max_steps ind1 ind2 ;;
       '(ind1, rest) <- versus arena_size max_steps ind1 rest ;;
       mret (ind1, ind2 :: rest))%rand
  end.

(** [for ind1 in pop1]: the competition loop. *)
Fixpoint compete (arena_size : float) (max_steps : Z)
         (pop1 pop2 : list Individual) : M (list Individual * list Individual) :=
  match pop1 with
  | [] => mret ([], pop2)
  | ind1 :: rest =>
      ('(ind1, pop2) <- versus arena_size max_steps ind1 pop2 ;;
       '(rest, pop2) <- compete arena_size max_steps rest pop2 ;;
       mret (ind1 :: rest, pop2))%rand
  end.

(** The two populations after the call (their individuals are updated in
    place). *)
Definition evaluate_individuals (pop1 pop2 : list Individual)
           (arena_size : float) (max_steps : Z)
  : M (list Individual * list Individual) :=
  compete arena_size max_steps (init_fitness pop1) (init_fitness pop2).

(** *** The outcome of a match, and the wins of a round robin *)

Inductive outcome : Type := Win1 | Win2 | NoChange.

Definition outcome_of (robots : Robot.t * Robot.t) : outcome :=
  let (robot1, robot2) := robots in
  if (0 <? Robot.health robot1) && (Robot.health robot2 <=? 0) then Win1
  else if (0 <? Robot.health robot2) && (Robot.health robot1 <=? 0) then Win2
  else NoChange.

(** The robots at the end of the match of two trees. *)
Definition match_result (arena_size : float) (max_steps : Z)
           (t1 t2 : Node) : M (Robot.t * Robot.t) :=
  (robots <- place_robots arena_size ;;
   lift (battle (Z.to_nat max_steps) (compile_expr toolbox t1)
           (compile_expr toolbox t2) arena_size robots))%rand.

(** The outcomes of the matches of one tree against a list of trees, and
    of a whole round robin, played in the order of the competition loop. *)
Fixpoint row_outcomes (arena_size : float) (max_steps : Z) (t1 : Node)
         (trees2 : list Node) : M (list outcome) :=
  match trees2 with
  | [] => mret []
  | t2 :: rest =>
      (robots <- match_result arena_size max_steps t1 t2 ;;
       os <- row_outcomes arena_size max_steps t1 rest ;;
       mret (outcome_of robots :: os))%rand
  end.

Fixpoint round_robin (arena_size : float) (max_steps : Z)
         (trees1 trees2 : list Node) : M (list (list outcome)) :=
  match trees1 with
  | [] => mret []
  | t1 :: rest =>
      (row <- row_outcomes arena_size max_steps t1 trees2 ;;
       rows <- round_robin arena_size max_steps rest trees2 ;;
       mret (row :: rows))%rand
  end.

Definition is_win1 (o : outcome) : bool :=
  match o with Win1 => true | _ => false end.
Definition is_win2 (o : outcome) : bool :=
  match o with Win2 => true | _ => false end.

(** Wins of the [i]-th individual of the first side: the [Win1] of row
    [i]; wins of the [j]-th of the second side: the [Win2] of column [j]. *)
Definition wins1 (rows : list (list outcome)) (i : nat) : Z :=
  Z.of_nat (List.length (filter is_win1 (nth i rows []))).

Definition wins2 (rows : list (list outcome)) (j : nat) : Z :=
  Z.of_nat
    (List.length (filter (fun row => is_win2 (nth j row NoChange)) rows)).

(** The score an individual enters the round robin with. *)
Definition entry_score (ind : Individual) : Z :=
  match fitness ind with
  | Some s => s
  | None => 0
  end.

(** An individual with [k] more wins than it entered with. *)
Definition add_score (k : Z) (ind : Individual) : Individual :=
  mkIndividual (tree ind) (Some (entry_score ind + k)).

(** The two individuals of a match after its outcome is credited. *)
Definition award (o : outcome) (ind1 ind2 : Individual)
  : Individual * Individual :=
  match o with
  | Win1 => (add_score 1 ind1, ind2)
  | Win2 => (ind1, add_score 1 ind2)
  | NoChange => (ind1, ind2)
  end.

(** The second side after a row of outcomes, and after all rows. *)
Fixpoint credit_row (row : list outcome) (pop2 : list Individual)
  : list Individual :=
  match row, pop2 with
  | o :: row', ind2 :: rest =>
      (if is_win2 o then add_score 1 ind2 else ind2) :: credit_row row' rest
  | _, _ => pop2
  end.

Definition credit_columns (rows : list (list outcome))
           (pop2 : list Individual) : list Individual :=
  fold_left (fun pop row => credit_row row pop) rows pop2.

(** The first side after all rows: each individual with the wins of its
    row. *)
Fixpoint credit_rows (rows : list (list outcome)) (pop1 : list Individual)
  : list Individual :=
  match rows, pop1 with
  | row :: rows', ind1 :: rest =>
      add_score (Z.of_nat (List.length (filter is_win1 row))) ind1
        :: credit_rows rows' rest
  | _, _ => pop1
  end.

(** An offspring is its parent's copy, fitness included, or has no valid
    fitness. *)
Definition copy_or_invalid (parent child : Individual) : Prop :=
  child = parent \/ fitness child = None.

(** *** [coevolution] *)

(** [toolbox.population(n)]: [n] fresh individuals (none when [n <= 0]). *)
Fixpoint population (n : nat) : M (list Individual) :=
  match n with
  | O => mret []
  | S n' =>
      (ind <- individual toolbox ;;
       rest <- population n' ;;
       mret (ind :: rest))%rand
  end.

(** Lines 265-269: crossover of the consecutive pairs, each with
    probability 0.5; both children lose their fitness. *)
Fixpoint crossover_pairs (offspring : list Individual)
  : M (list Individual) :=
  match offspring with
  | child1 :: child2 :: rest =>
      (r <- random ;;
       '(child1, child2) <-
         (if (r <? 0.5)%float then
            '(t1, t2) <- mate toolbox (tree child1) (tree child2) ;;
            mret (mkIndividual t1 None, mkIndividual t2 None)
          else mret (child1, child2)) ;;
       rest <- crossover_pairs rest ;;
       mret (child1 :: child2 :: rest))%rand
  | _ => mret offspring
  end.

(** Lines 278-281: mutation of each individual with probability 0.1; a
    mutant loses its fitness. *)
Fixpoint mutation (offspring : list Individual) : M (list Individual) :=
  match offspring with
  | [] => mret []
  | mutant :: rest =>
      (r <- random ;;
       mutant <-
         (if (r <? 0.1)%float then
            t <- mutate toolbox (tree mutant) ;;
            mret (mkIndividual t None)
          else mret mutant) ;;
       rest <- mutation rest ;;
       mret (mutant :: rest))%rand
  end.

(** Lines 257-286: the two offspring pools of a generation, as they enter
    the round robin ([toolbox.clone] copies an individual, fitness
    included). *)
Definition breed (pop1 pop2 : list Individual)
  : M (list Individual * list Individual) :=
  (offspring1 <- select toolbox pop1 (List.length pop1) ;;
   offspring2 <- select toolbox pop2 (List.length pop2) ;;
   offspring1 <- crossover_pairs offspring1 ;;
   offspring2 <- crossover_pairs offspring2 ;;
   offspring1 <- mutation offspring1 ;;
   offspring2 <- mutation offspring2 ;;
   mret (offspring1, offspring2))%rand.

(** Lines 294-301: average and maximum of a population's scores. *)
Definition fitness_stats (pop : list Individual) : result (list Z) :=
  fold_right
    (fun ind acc => (v <- fitness_value ind ;; vs <- acc ;; Ok (v :: vs))%result)
    (Ok []) pop.

Definition average (fits : list Z) : result pynum :=
  py_truediv (PyInt (fold_left Z.add fits 0))
    (PyInt (Z.of_nat (List.length fits))).

Definition maximum (fits : list Z) : result Z :=
  match fits with
  | [] => Raise ValueError
  | v :: vs => Ok (fold_left (fun m item => if m <? item then item else m) vs v)
  end.

Record Run : Type := mkRun {
  pop1 : list Individual;
  pop2 : list Individual;
  avg_fits1 : list pynum;
  max_fits1 : list Z;
  avg_fits2 : list pynum;
  max_fits2 : list Z
}.

(** Lines 254-301: the evolutionary loop. *)
Fixpoint evolve (generations : nat) (run : Run) : M Run :=
  match generations with
  | O => mret run
  | S n =>
      ('(offspring1, offspring2) <- breed (pop1 run) (pop2 run) ;;
       '(offspring1, offspring2) <-
         evaluate_individuals offspring1 offspring2 200 100 ;;
       fits1 <- lift (fitness_stats offspring1) ;;
       fits2 <- lift (fitness_stats offspring2) ;;
       avg1 <- lift (average fits1) ;;
       max1 <- lift (maximum fits1) ;;
       avg2 <- lift (average fits2) ;;
       max2 <- lift (maximum fits2) ;;
       evolve n
         (mkRun offspring1 offspring2
            (avg_fits1 run ++ [avg1]) (max_fits1 run ++ [max1])
            (avg_fits2 run ++ [avg2]) (max_fits2 run ++ [max2])))%rand
  end.

End Evaluate.

(** Lines 245-247: the two populations with their initial evaluation. *)
Definition initial_populations {L : Libm} {G : RandomGen} (toolbox : Toolbox)
           (pop_size : Z) : M (list Individual * list Individual) :=
  (pop1 <- population toolbox (Z.to_nat pop_size) ;;
   pop2 <- population toolbox (Z.to_nat pop_size) ;;
   evaluate_individuals toolbox pop1 pop2 200 100)%rand.

(** [coevolution(pop_size, generations, ifelse, logicals, angle_primitives)],
    over whatever [setup_evolution] makes of the primitive set. *)
Definition coevolution_with {L : Libm} {G : RandomGen}
           (setup : PrimitiveSet -> Toolbox)
           (pop_size generations : Z) (ifelse logicals angle_primitives : bool)
  : M Run :=
  (let pset := create_primitive_set ifelse logicals angle_primitives in
   let toolbox := setup pset in
   '(pop1, pop2) <- initial_populations toolbox pop_size ;;
   evolve toolbox (Z.to_nat generations) (mkRun pop1 pop2 [] [] [] []))%rand.

Definition coevolution {L : Libm} {G : RandomGen}
  : Z -> Z -> bool -> bool -> bool -> M Run :=
  coevolution_with setup_evolution.

(** ** Concrete inputs *)

(** The full binary tree of depth [n] of one function of arity 2 over
    copies of [leaf]. *)
Fixpoint full_tree (p : primitive) (n : nat) (leaf : Node) : Node :=
  match n with
  | O => leaf
  | S k => Function p [full_tree p k leaf; full_tree p k leaf]
  end.

(** [n] nested squarings of a tree: [mul(t, t)] with [t] squared [n - 1]
    times. *)
Definition squarings (n : nat) (base : Node) : Node := full_tree Mul n base.

(** A robot as [Robot(x, y)] builds it, with a chosen facing. *)
Definition robot_at (x y direction : float) : Robot.t :=
  Robot.make x y 100 50 direction None
    (Sensors.make (PyInt 0) (PyInt 0) (PyInt 100) (PyInt 50) (PyInt 0)).



(** The toolbox of the core primitive set, over recorded draws. *)
Definition core_toolbox : @Toolbox tape_gen :=
  @setup_evolution approx_libm tape_gen (create_primitive_set false false false).

(** A program that always shoots and one that never acts: full trees of
    depth 3, the maximum of eight copies of the constant 3, resp. 5. *)
Definition shooter : Node := full_tree Max 3 (Terminal (Constant (PyInt 3))).
Definition idler : Node := full_tree Max 3 (Terminal (Constant (PyInt 5))).

(** The index draws that make [genHalfAndHalf] build a full tree of depth 3
    of [max] over the constant [c]: the depth (3 + 0), the method (full),
    then in preorder the function (the fifth registered) at each inner node
    and, at each leaf, the terminal (the sixth: [rand_int]) and its value. *)
Definition full_max_draws (c : nat) : list nat :=
  (let leaf := [5; c] in
   let depth1 := 4 :: leaf ++ leaf in
   let depth2 := 4 :: depth1 ++ depth1 in
   [0; 0] ++ 4 :: depth2 ++ depth2)%nat.

(** Draws that place robot 1 at (60,100) facing robot 2 at (100,100). *)
Definition duel_draws : list float := [0.1; 0.5; 0; 0.5; 0.5; 0]%float.

(** Draws of a whole run with one individual per side and one generation:
    the two trees ([shooter], then [idler]) and the placement of the initial
    match; then the two tournaments, two mutation draws that mutate nothing,
    and the placement of the generation's match. *)
Definition run_draws : @rng tape_gen :=
  (duel_draws ++ [0.5; 0.5]%float ++ duel_draws,
   (full_max_draws 3 ++ full_max_draws 5 ++ [0; 0; 0; 0; 0; 0])%nat).

(** ** Predicates of the further properties *)

(** The robot stands inside the arena: the test of a move, on the robot's
    own position. *)
Definition inside_arena (arena_size : float) (r : Robot.t) : bool :=
  ((0 <=? Robot.x r)%float && (Robot.x r <=? arena_size)%float)
  && ((0 <=? Robot.y r)%float && (Robot.y r <=? arena_size)%float).

(** The sum of the scores of a population (an individual without a valid
    fitness counts for 0). *)
Definition total_score (pop : list Individual) : Z :=
  fold_right (fun ind acc => entry_score ind + acc) 0 pop.
(** * Properties *)

(** ** Results *)

Lemma rbind_ok {A B : Type} (r : result A) (k : A -> result B) (b : B) :
  rbind r k = Ok b -> exists a, r = Ok a /\ k a = Ok b.
Proof.
  destruct r as [a | e]; simpl; intros H.
  - exists a. split; [reflexivity | exact H].
  - discriminate H.
Qed.

Lemma rbind_raise {A B : Type} (r : result A) (k : A -> result B) (e : exn) :
  rbind r k = Raise e -> r = Raise e \/ exists a, r = Ok a /\ k a = Raise e.
Proof.
  destruct r as [a | e']; simpl; intros H.
  - right. exists a. split; [reflexivity | exact H].
  - left. injection H as ->. reflexivity.
Qed.

(** ** The action mapping *)

Lemma actions_getitem (i : Z) :
  0 <= i < 6 ->
  py_getitem actions i = Ok (nth (Z.to_nat i) actions EmptyString).
Proof.
  intros H.
  assert (i = 0 \/ i = 1 \/ i = 2 \/ i = 3 \/ i = 4 \/ i = 5) as Hi by lia.
  repeat (destruct Hi as [Hi | Hi]; [subst i; reflexivity | ]).
  subst i; reflexivity.
Qed.

(** On the absolute value of a finite number, truncation and floor agree. *)
Lemma int_of_abs_is_floor (v : pynum) :
  isfinite v = true ->
  exists n, py_int (py_abs v) = Ok n /\ py_floor (py_abs v) = Some n /\ 0 <= n.
Proof.
  destruct v as [z | f]; simpl.
  - intros _. exists (Z.abs z). repeat split; lia.
  - unfold float_isfinite, float_to_int, float_floor.
    rewrite abs_spec.
    destruct (Prim2SF f) as [s | s | | s m e]; simpl; try discriminate; intros _.
    + exists 0. repeat split; lia.
    + exists (Z.shiftl (Zpos m) e). repeat split.
      apply Z.shiftl_nonneg. lia.
Qed.

(** C3: for every finite output, [select_action] returns the action whose
    index in the ordered list is floor(|output|) mod 6, an index in 0..5;
    7.9 gives turn_left and -6.0 gives move_forward; every one of the six
    actions is the image of some output. *)
Theorem select_action_finite :
  (forall output, isfinite output = true ->
     exists idx,
       spec_action_index output = Some idx /\ 0 <= idx < 6 /\
       select_action output = Ok (nth (Z.to_nat idx) actions EmptyString)) /\
  select_action (PyFloat 7.9) = Ok "turn_left"%string /\
  select_action (PyFloat (-6.0)) = Ok "move_forward"%string /\
  (forall a, In a actions -> exists output,
     isfinite output = true /\ select_action output = Ok a).
Proof.
  split; [ | split; [ | split ] ].
  - intros output Hfin.
    destruct (int_of_abs_is_floor output Hfin) as (n & Hint & Hfloor & Hn).
    exists (n mod 6).
    assert (0 <= n mod 6 < 6) as Hr by (apply Z.mod_pos_bound; lia).
    unfold spec_action_index, select_action.
    rewrite Hfloor, Hint. simpl.
    split; [reflexivity | split; [exact Hr | apply actions_getitem, Hr] ].
  - vm_compute. reflexivity.
  - vm_compute. reflexivity.
  - intros a Ha. simpl in Ha.
    destruct Ha as [<- | [<- | [<- | [<- | [<- | [<- | []]]]]]].
    + exists (PyInt 0); split; reflexivity.
    + exists (PyInt 1); split; reflexivity.
    + exists (PyInt 2); split; reflexivity.
    + exists (PyInt 3); split; reflexivity.
    + exists (PyInt 4); split; reflexivity.
    + exists (PyInt 5); split; reflexivity.
Qed.

Lemma select_action_finite_witness :
  isfinite (PyFloat 7.9) = true /\
  exists idx,
    spec_action_index (PyFloat 7.9) = Some idx /\ 0 <= idx < 6 /\
    select_action (PyFloat 7.9) = Ok (nth (Z.to_nat idx) actions EmptyString).
Proof.
  assert (isfinite (PyFloat 7.9) = true) as H by (vm_compute; reflexivity).
  split; [exact H | exact (proj1 select_action_finite (PyFloat 7.9) H)].
Defined.

(** ** Protected division *)

Lemma to_float_raise (v : pynum) (e : exn) :
  to_float v = Raise e -> e = OverflowError.
Proof.
  destruct v as [z | f]; simpl; [ | discriminate ].
  unfold int_to_float.
  destruct (binary_normalize prec emax z 0 false); intros H;
    try discriminate H; injection H as <-; reflexivity.
Qed.

Lemma py_truediv_raise (a b : pynum) (e : exn) :
  py_truediv a b = Raise e -> e = OverflowError \/ e = ZeroDivisionError.
Proof.
  assert (forall ra rb : result float,
             (forall e', ra = Raise e' -> e' = OverflowError) ->
             (forall e', rb = Raise e' -> e' = OverflowError) ->
             (x <- ra ;; y <- rb ;;
              if (y =? 0)%float then Raise ZeroDivisionError
              else Ok (PyFloat (x / y)%float))%result = Raise e ->
             e = OverflowError \/ e = ZeroDivisionError) as Hmixed.
  { intros [x | ea] [y | eb] Ha Hb; simpl.
    - destruct (y =? 0)%float; intros H; [ | discriminate H].
      injection H as <-. right; reflexivity.
    - intros H; injection H as <-. left. apply Hb; reflexivity.
    - intros H; injection H as <-. left. apply Ha; reflexivity.
    - intros H; injection H as <-. left. apply Ha; reflexivity. }
  destruct a as [x | x], b as [y | y];
    try (apply Hmixed; intros e'; apply to_float_raise).
  simpl. destruct (y =? 0).
  - intros H; injection H as <-. right; reflexivity.
  - destruct (SFdiv prec emax (int_sf x) (int_sf y)); intros H;
      try discriminate H; injection H as <-; left; reflexivity.
Qed.

(** What [protected_div(a, b)] does: it is [a / b] with a
    [ZeroDivisionError] turned into 1.  On two floats it never raises: 1 for
    a zero divisor, the quotient otherwise.  On two ints it is 1 for the
    divisor 0 and the result of [a / b] otherwise.  With one int and one
    float the int is converted first, then the same rule applies.  It never
    raises [ZeroDivisionError]; whatever it raises is the [OverflowError]
    of [a / b]. *)
Lemma protected_div_masks_zero_division :
  (forall a b, Primitives.protected_div a b <> Raise ZeroDivisionError) /\
  (forall a b e, Primitives.protected_div a b = Raise e ->
     e = OverflowError /\ py_truediv a b = Raise OverflowError) /\
  (forall x y : float,
     Primitives.protected_div (PyFloat x) (PyFloat y) =
     if (y =? 0)%float then Ok (PyInt 1) else Ok (PyFloat (x / y)%float)) /\
  (forall x : Z, Primitives.protected_div (PyInt x) (PyInt 0) = Ok (PyInt 1)) /\
  (forall x y : Z, y <> 0 ->
     Primitives.protected_div (PyInt x) (PyInt y) = py_truediv (PyInt x) (PyInt y)) /\
  (forall (x : Z) (y : float),
     Primitives.protected_div (PyInt x) (PyFloat y) =
     (x' <- int_to_float x ;;
      if (y =? 0)%float then Ok (PyInt 1) else Ok (PyFloat (x' / y)%float))%result) /\
  (forall (x : float) (y : Z),
     Primitives.protected_div (PyFloat x) (PyInt y) =
     (y' <- int_to_float y ;;
      if (y' =? 0)%float then Ok (PyInt 1) else Ok (PyFloat (x / y')%float))%result).
Proof.
  split; [ | split; [ | split; [ | split; [ | split; [ | split ] ] ] ] ].
  - intros a b. unfold Primitives.protected_div.
    destruct (py_truediv a b) as [v | e] eqn:E; [discriminate | ].
    destruct e; discriminate.
  - intros a b e H. unfold Primitives.protected_div in H.
    destruct (py_truediv a b) as [v | e'] eqn:E; [discriminate | ].
    destruct (py_truediv_raise _ _ _ E) as [-> | ->].
    + injection H as <-; split; reflexivity.
    + discriminate H.
  - intros x y. unfold Primitives.protected_div. simpl.
    destruct (y =? 0)%float; reflexivity.
  - intros x. reflexivity.
  - intros x y Hy. unfold Primitives.protected_div. simpl.
    destruct (Z.eqb_spec y 0) as [-> | _]; [contradiction | ].
    destruct (SFdiv prec emax (int_sf x) (int_sf y)); reflexivity.
  - intros x y. unfold Primitives.protected_div. simpl.
    destruct (int_to_float x) as [x' | e] eqn:E; simpl.
    + destruct (y =? 0)%float; reflexivity.
    + rewrite (to_float_raise (PyInt x) e E). reflexivity.
  - intros x y. unfold Primitives.protected_div. simpl.
    destruct (int_to_float y) as [y' | e] eqn:E; simpl.
    + destruct (y' =? 0)%float; reflexivity.
    + rewrite (to_float_raise (PyInt y) e E). reflexivity.
Qed.

Lemma update_sensors_health {L : Libm} (self opponent r : Robot.t)
      (arena_size : float) :
  Robot.update_sensors self opponent arena_size = Ok r ->
  Sensors.health (Robot.sensors r) = PyInt (Robot.health self).
Proof.
  unfold Robot.update_sensors. intros H.
  apply rbind_ok in H as (dx2 & _ & H).
  apply rbind_ok in H as (dy2 & _ & H).
  apply rbind_ok in H as (dist & _ & H).
  apply rbind_ok in H as (rel & _ & H).
  injection H as <-. reflexivity.
Qed.

(** ** Non-finite outputs *)

(** The squares of the example: [40.0 ** 2] is 1600.0 whatever the rounding
    of [pow], the square being a float, and the distance from (60,100) to
    (100,100) is 40.0. *)
Lemma float_sq_forty {L : Libm} : float_sq 40 = Ok 1600%float.
Proof.
  assert (m_pow2 40 = (40 * 40)%float) as H
      by (apply m_pow2_exact; vm_compute; reflexivity).
  unfold float_sq.
  change (is_nan 40) with false. change (is_infinity 40) with false.
  change (40 =? 0)%float with false. change (40 <? 0)%float with false.
  cbv iota zeta.
  change (40 =? 1)%float with false. cbv iota.
  rewrite H. reflexivity.
Qed.

Lemma distance_forty {L : Libm} :
  Robot.distance (robot_at 60 100 0) (robot_at 100 100 0) = Ok 40%float.
Proof.
  unfold Robot.distance.
  change (Robot.x (robot_at 100 100 0) - Robot.x (robot_at 60 100 0))%float
    with 40%float.
  change (Robot.y (robot_at 100 100 0) - Robot.y (robot_at 60 100 0))%float
    with 0%float.
  rewrite float_sq_forty. cbn [rbind].
  reflexivity.
Qed.

Lemma update_sensors_distance {L : Libm} (self opponent r : Robot.t)
      (arena_size : float) :
  Robot.update_sensors self opponent arena_size = Ok r ->
  exists d, Robot.distance self opponent = Ok d /\
            Sensors.enemy_distance (Robot.sensors r) = PyFloat d.
Proof.
  unfold Robot.update_sensors, Robot.distance. intros H.
  apply rbind_ok in H as (dx2 & -> & H).
  apply rbind_ok in H as (dy2 & -> & H).
  apply rbind_ok in H as (dist & Hd & H).
  apply rbind_ok in H as (rel & _ & H).
  injection H as <-. exists dist. split; [exact Hd | reflexivity].
Qed.

(** C6 fails in the code: [protected_div] catches [ZeroDivisionError]
    only, so it raises where the claim has it return.  An int numerator
    beyond the range of floats makes [a / b] raise [OverflowError] whatever
    the float divisor is, the divisor 0.0 included, where the result should
    be 1; with the int divisor 1 the quotient itself is out of range.  A
    tree passes such operands to the primitive: eight nested squarings of
    the health sensor (the int 100) divided by the difference of the enemy
    distance with itself (0.0), or by the constant 1; the first tick of a
    match with that tree raises. *)
Theorem protected_div_overflow_uncaught :
  (forall (a : Z) (b : float),
     int_to_float a = Raise OverflowError ->
     Primitives.protected_div (PyInt a) (PyFloat b) = Raise OverflowError) /\
  Primitives.protected_div (PyInt (10 ^ 400)) (PyFloat 0) = Raise OverflowError /\
  Primitives.protected_div (PyInt (10 ^ 400)) (PyInt 1) = Raise OverflowError /\
  (forall (L : Libm) (direction ammo wall : pynum),
     compile
       (Function ProtectedDiv
          [squarings 8 (Terminal (Arg Health));
           Function Sub [Terminal (Arg EnemyDistance);
                         Terminal (Arg EnemyDistance)]])
       (PyFloat 40) direction (PyInt 100) ammo wall
     = Raise OverflowError) /\
  (forall (L : Libm) (distance direction ammo wall : pynum),
     compile
       (Function ProtectedDiv
          [squarings 8 (Terminal (Arg Health)); Terminal (Constant (PyInt 1))])
       distance direction (PyInt 100) ammo wall
     = Raise OverflowError) /\
  (forall (L : Libm) (func2 : program),
     is_ok (tick
              (compile
                 (Function ProtectedDiv
                    [squarings 8 (Terminal (Arg Health));
                     Function Sub [Terminal (Arg EnemyDistance);
                                   Terminal (Arg EnemyDistance)]]))
              func2 200 (robot_at 60 100 0, robot_at 100 100 0)) = false).
Proof.
  split; [ | split; [ | split; [ | split; [ | split ] ] ] ].
  - intros a b Hbig.
    rewrite (proj1 (proj2 (proj2 (proj2 (proj2
               (proj2 protected_div_masks_zero_division))))) a b).
    rewrite Hbig. reflexivity.
  - vm_compute. reflexivity.
  - vm_compute. reflexivity.
  - intros L direction ammo wall. vm_compute. reflexivity.
  - intros L distance direction ammo wall. vm_compute. reflexivity.
  - intros L func2. unfold tick.
    destruct (Robot.update_sensors (robot_at 60 100 0) (robot_at 100 100 0) 200)
      as [robot1 | e] eqn:E1; [ | reflexivity ].
    pose proof (update_sensors_health _ _ _ _ E1) as Hh.
    apply update_sensors_distance in E1 as (d & Hd & Hs).
    assert (d = 40%float) as ->
        by (rewrite distance_forty in Hd; injection Hd as <-; reflexivity).
    cbn [rbind].
    destruct (Robot.update_sensors (robot_at 100 100 0) robot1 200)
      as [robot2 | e] eqn:E2; [ | reflexivity ].
    cbn [rbind]. rewrite Hs, Hh.
    change (Robot.health (robot_at 60 100 0)) with 100.
    match goal with
    | |- context [compile ?tree ?a ?b ?c ?d ?e] =>
        assert (compile tree a b c d e = Raise OverflowError) as ->
            by (vm_compute; reflexivity)
    end.
    reflexivity.
Qed.

(** C8: an infinite or NaN output makes [select_action] raise
    ([int(abs(output))] has no value), and a tree of the core primitive set
    produces such an output: eight nested squarings of [enemy_distance]
    overflow to infinity at distance 40, so the first tick of that match
    raises. *)
Theorem select_action_raises_on_nonfinite :
  select_action (PyFloat infinity) = Raise OverflowError /\
  select_action (PyFloat neg_infinity) = Raise OverflowError /\
  select_action (PyFloat nan) = Raise ValueError /\
  (forall (L : Libm) (direction health ammo wall : pynum),
     compile (squarings 8 (Terminal (Arg EnemyDistance)))
       (PyFloat 40) direction health ammo wall = Ok (PyFloat infinity)) /\
  (forall (L : Libm) (func2 : program),
     is_ok (tick (compile (squarings 8 (Terminal (Arg EnemyDistance)))) func2
              200 (robot_at 60 100 0, robot_at 100 100 0)) = false).
Proof.
  split; [ | split; [ | split; [ | split ] ] ].
  - vm_compute. reflexivity.
  - vm_compute. reflexivity.
  - vm_compute. reflexivity.
  - intros L direction health ammo wall. vm_compute. reflexivity.
  - intros L func2. unfold tick.
    destruct (Robot.update_sensors (robot_at 60 100 0) (robot_at 100 100 0) 200)
      as [robot1 | e] eqn:E1; [ | reflexivity ].
    apply update_sensors_distance in E1 as (d & Hd & Hs).
    assert (d = 40%float) as ->
        by (rewrite distance_forty in Hd; injection Hd as <-; reflexivity).
    cbn [rbind].
    destruct (Robot.update_sensors (robot_at 100 100 0) robot1 200)
      as [robot2 | e] eqn:E2; [ | reflexivity ].
    cbn [rbind]. rewrite Hs.
    assert (compile (squarings 8 (Terminal (Arg EnemyDistance))) (PyFloat 40)
              (Sensors.enemy_direction (Robot.sensors robot1))
              (Sensors.health (Robot.sensors robot1))
              (Sensors.ammo (Robot.sensors robot1))
              (Sensors.wall_distance (Robot.sensors robot1))
            = Ok (PyFloat infinity)) as -> by (vm_compute; reflexivity).
    cbn [rbind].
    destruct (func2 _ _ _ _ _) as [output2 | e]; [ | reflexivity ].
    cbn [rbind].
    replace (select_action (PyFloat infinity)) with (@Raise string OverflowError)
      by (vm_compute; reflexivity).
    reflexivity.
Qed.

(** ** The robot's actions *)

Lemma float_mod_two_pi (v : float) :
  exists m, float_mod v (2 * pi) = Ok m.
Proof.
  unfold float_mod.
  change ((2 * pi =? 0)%float) with false. cbv iota.
  destruct (negb _); eexists; reflexivity.
Qed.

Lemma not_action_eqb (action : string) :
  ~ In action actions ->
  (action =? "move_forward")%string = false /\
  (action =? "turn_left")%string = false /\
  (action =? "turn_right")%string = false /\
  (action =? "shoot")%string = false /\
  (action =? "reload")%string = false /\
  (action =? "do_nothing")%string = false.
Proof.
  intros H. repeat split; apply String.eqb_neq; intros ->; apply H; simpl; auto 8.
Qed.

(** C10: [execute_action] with 'do_nothing', with 'shoot' while ammo is 0,
    or with a string that is none of the six actions records the string in
    [last_action] and changes no other field of the robot and no field of
    the opponent. *)
Theorem execute_action_frame (L : Libm) (action : string)
        (self opponent : Robot.t) (arena_size : float) :
  action = "do_nothing"%string \/
  (action = "shoot"%string /\ Robot.ammo self = 0) \/
  ~ In action actions ->
  exists self',
    Robot.execute_action action self opponent arena_size = Ok (self', opponent) /\
    Robot.last_action self' = Some action /\
    Robot.x self' = Robot.x self /\
    Robot.y self' = Robot.y self /\
    Robot.health self' = Robot.health self /\
    Robot.ammo self' = Robot.ammo self /\
    Robot.direction self' = Robot.direction self /\
    Robot.sensors self' = Robot.sensors self.
Proof.
  intros H. exists (Robot.set_last_action self action).
  split; [ | repeat split ].
  unfold Robot.execute_action.
  destruct H as [-> | [[-> Hammo] | Hnot]].
  - reflexivity.
  - cbn. rewrite Hammo. reflexivity.
  - destruct (not_action_eqb action Hnot) as (-> & -> & -> & -> & -> & ->).
    reflexivity.
Qed.

Lemma execute_action_frame_witness :
  ("do_nothing"%string = "do_nothing"%string \/
   ("do_nothing"%string = "shoot"%string /\ Robot.ammo (robot_at 60 100 0) = 0) \/
   ~ In "do_nothing"%string actions) /\
  exists self',
    @Robot.execute_action approx_libm "do_nothing"
      (robot_at 60 100 0) (robot_at 100 100 0) 200
    = Ok (self', robot_at 100 100 0) /\
    Robot.last_action self' = Some "do_nothing"%string /\
    Robot.x self' = Robot.x (robot_at 60 100 0) /\
    Robot.y self' = Robot.y (robot_at 60 100 0) /\
    Robot.health self' = Robot.health (robot_at 60 100 0) /\
    Robot.ammo self' = Robot.ammo (robot_at 60 100 0) /\
    Robot.direction self' = Robot.direction (robot_at 60 100 0) /\
    Robot.sensors self' = Robot.sensors (robot_at 60 100 0).
Proof.
  assert ("do_nothing"%string = "do_nothing"%string \/
          ("do_nothing"%string = "shoot"%string /\ Robot.ammo (robot_at 60 100 0) = 0) \/
          ~ In "do_nothing"%string actions) as H by (left; reflexivity).
  split; [exact H | ].
  exact (execute_action_frame approx_libm "do_nothing"
           (robot_at 60 100 0) (robot_at 100 100 0) 200 H).
Defined.

(** What an action does to the ammunition of the two robots. *)
Lemma execute_action_ammo {L : Libm} (action : string)
      (self opponent self' opponent' : Robot.t) (arena_size : float) :
  Robot.execute_action action self opponent arena_size = Ok (self', opponent') ->
  Robot.ammo opponent' = Robot.ammo opponent /\
  ((action = "shoot"%string /\ 0 < Robot.ammo self /\
    Robot.ammo self' = Robot.ammo self - 1) \/
   (action = "reload"%string /\
    Robot.ammo self' = Z.min 50 (Robot.ammo self + 10)) \/
   (action <> "reload"%string /\
    (action <> "shoot"%string \/ Robot.ammo self <= 0) /\
    Robot.ammo self' = Robot.ammo self)).
Proof.
  unfold Robot.execute_action.
  destruct (String.eqb_spec action "move_forward") as [-> | Hmove].
  { intros H.
    apply rbind_ok in H as (c & _ & H). apply rbind_ok in H as (s & _ & H).
    destruct (_ && _); injection H as <- <-;
      (split; [reflexivity | right; right; repeat split;
                             [discriminate | left; discriminate] ]). }
  destruct (String.eqb_spec action "turn_left") as [-> | Hleft].
  { intros H. apply rbind_ok in H as (d & _ & H). injection H as <- <-.
    split; [reflexivity | right; right; repeat split;
                          [discriminate | left; discriminate] ]. }
  destruct (String.eqb_spec action "turn_right") as [-> | Hright].
  { intros H. apply rbind_ok in H as (d & _ & H). injection H as <- <-.
    split; [reflexivity | right; right; repeat split;
                          [discriminate | left; discriminate] ]. }
  destruct (String.eqb_spec action "shoot") as [-> | Hshoot]; cbn [andb].
  { cbn [Robot.ammo Robot.set_last_action].
    destruct (Z.ltb_spec 0 (Robot.ammo self)) as [Hpos | Hle].
    - intros H. apply rbind_ok in H as (m & _ & H).
      apply rbind_ok in H as (hit & _ & H).
      destruct hit; injection H as <- <-;
        (split; [reflexivity | left; repeat split; assumption]).
    - cbn. intros H. injection H as <- <-.
      split; [reflexivity | right; right; repeat split;
                            [discriminate | right; assumption] ]. }
  destruct (String.eqb_spec action "reload") as [-> | Hreload].
  { intros H. injection H as <- <-.
    split; [reflexivity | right; left; split; reflexivity]. }
  destruct (String.eqb_spec action "do_nothing") as [-> | Hnothing];
    intros H; injection H as <- <-;
    (split; [reflexivity | right; right; repeat split;
                           [assumption | left; assumption] ]).
Qed.

(** C5: a robot built by [Robot(x, y)] has 50 rounds; an action of any name,
    against any opponent in any arena, keeps an ammo in 0..50 in 0..50, and
    so does any sequence of actions; 'shoot' takes one round exactly when
    the ammo is positive, 'reload' sets the ammo to min(50, ammo + 10). *)
Theorem ammo_invariant :
  (forall (G : RandomGen) (x y : float) (g g' : rng) (r : Robot.t),
     Robot.new x y g = Ok (r, g') -> Robot.ammo r = 50) /\
  (forall (L : Libm) action self opponent arena_size self' opponent',
     0 <= Robot.ammo self <= 50 ->
     Robot.execute_action action self opponent arena_size = Ok (self', opponent') ->
     0 <= Robot.ammo self' <= 50) /\
  (forall (L : Libm) todo self opponent arena_size self' opponent',
     0 <= Robot.ammo self <= 50 ->
     Robot.execute_actions todo self opponent arena_size = Ok (self', opponent') ->
     0 <= Robot.ammo self' <= 50) /\
  (forall (L : Libm) self opponent arena_size self' opponent',
     Robot.execute_action "shoot" self opponent arena_size = Ok (self', opponent') ->
     Robot.ammo self' =
     if 0 <? Robot.ammo self then Robot.ammo self - 1 else Robot.ammo self) /\
  (forall (L : Libm) self opponent arena_size,
     Robot.execute_action "reload" self opponent arena_size =
     Ok (Robot.set_ammo (Robot.set_last_action self "reload")
           (Z.min 50 (Robot.ammo self + 10)), opponent)).
Proof.
  assert (forall (L : Libm) action self opponent arena_size self' opponent',
             0 <= Robot.ammo self <= 50 ->
             Robot.execute_action action self opponent arena_size
             = Ok (self', opponent') ->
             0 <= Robot.ammo self' <= 50) as Hstep.
  { intros L action self opponent arena_size self' opponent' Hrange H.
    apply execute_action_ammo in H as (_ & [(_ & Hpos & ->) | [(_ & ->) | (_ & _ & ->)]]);
      lia. }
  split; [ | split; [exact Hstep | split; [ | split ] ] ].
  - intros G x y g g' r. unfold Robot.new, Robot.init, uniform, random, mbind, mret.
    destruct (random_random g) as [d g1]. intros H. injection H as <- _. reflexivity.
  - intros L todo. induction todo as [ | action rest IH];
      intros self opponent arena_size self' opponent' Hrange H.
    + injection H as <- _. exact Hrange.
    + cbn [Robot.execute_actions] in H.
      apply rbind_ok in H as ([self1 opponent1] & Hfirst & Hrest).
      apply (IH self1 opponent1 arena_size self' opponent'); [ | exact Hrest].
      exact (Hstep L action self opponent arena_size self1 opponent1 Hrange Hfirst).
  - intros L self opponent arena_size self' opponent' H.
    apply execute_action_ammo in H as (_ & [(_ & Hpos & ->) | [(Habs & _) | (_ & Hor & ->)]]).
    + destruct (Z.ltb_spec 0 (Robot.ammo self)); [reflexivity | lia].
    + discriminate Habs.
    + destruct Hor as [Habs | Hle]; [contradiction Habs; reflexivity | ].
      destruct (Z.ltb_spec 0 (Robot.ammo self)); [lia | reflexivity].
  - intros L self opponent arena_size. reflexivity.
Qed.

Lemma ammo_invariant_witness :
  (0 <= Robot.ammo (robot_at 60 100 0) <= 50 /\
   @Robot.execute_actions approx_libm
     ["shoot"; "reload"; "shoot"; "shoot"]%string
     (robot_at 60 100 0) (robot_at 100 100 0) 200
   = Ok (Robot.set_last_action
           (Robot.set_ammo (robot_at 60 100 0) 48) "shoot",
         Robot.set_health (robot_at 100 100 0) 40)) /\
  0 <= Robot.ammo
         (Robot.set_last_action (Robot.set_ammo (robot_at 60 100 0) 48) "shoot")
    <= 50.
Proof.
  assert (0 <= Robot.ammo (robot_at 60 100 0) <= 50) as Hrange
      by (split; discriminate).
  assert (@Robot.execute_actions approx_libm
            ["shoot"; "reload"; "shoot"; "shoot"]%string
            (robot_at 60 100 0) (robot_at 100 100 0) 200
          = Ok (Robot.set_last_action
                  (Robot.set_ammo (robot_at 60 100 0) 48) "shoot",
                Robot.set_health (robot_at 100 100 0) 40)) as Hrun
      by (vm_compute; reflexivity).
  split; [split; [exact Hrange | exact Hrun] | ].
  exact (proj1 (proj2 (proj2 ammo_invariant)) approx_libm _ _ _ _ _ _
           Hrange Hrun).
Defined.

(** ** Shooting *)

Lemma add_sign_clear (a b : float) :
  sign_clear (Prim2SF a) -> sign_clear (Prim2SF b) ->
  sign_clear (Prim2SF (a + b)).
Proof.
  rewrite add_spec. unfold SF64add.
  destruct (Prim2SF a) as [sa | sa | | sa ma ea];
    destruct (Prim2SF b) as [sb | sb | | sb mb eb]; simpl;
    intros Ha Hb; subst; try reflexivity; try exact I.
  unfold binary_normalize. simpl.
  unfold binary_round.
  destruct (shl_align _ _ _) as [mz ez].
  pose proof (binary_round_aux_sign false (Z.pos mz) ez loc_Exact) as H.
  destruct (binary_round_aux prec emax false (Z.pos mz) ez loc_Exact);
    simpl; try exact I; exact H.
Qed.

Lemma sign_clear_not_negative (v : float) :
  sign_clear (Prim2SF v) -> (v <? 0)%float = false.
Proof.
  rewrite ltb_spec.
  change (Prim2SF 0) with (S754_zero false).
  destruct (Prim2SF v) as [s | s | | s m e]; simpl; intros H; subst; reflexivity.
Qed.

(** The square root of a sum of two floats that are not negative is always
    defined. *)
Lemma sqrt_sum_squares (a b : float) :
  sign_clear (Prim2SF a) -> sign_clear (Prim2SF b) ->
  math_sqrt (a + b) = Ok (sqrt (a + b)).
Proof.
  intros Ha Hb. unfold math_sqrt.
  rewrite sign_clear_not_negative; [reflexivity | ].
  apply add_sign_clear; assumption.
Qed.

Lemma is_nan_spec (v : float) : is_nan v = true -> Prim2SF v = S754_nan.
Proof.
  unfold is_nan. rewrite FloatAxioms.eqb_spec. unfold SFeqb, SFcompare.
  destruct (Prim2SF v) as [s | s | | s m e]; try (destruct s; discriminate);
    try reflexivity.
  rewrite Z.compare_refl.
  change (Pos.compare_cont Eq m m) with (Pos.compare m m).
  rewrite Pos.compare_refl. destruct s; discriminate.
Qed.

(** What [v ** 2] returns is never negative. *)
Lemma float_sq_sign {L : Libm} (v p : float) :
  float_sq v = Ok p -> sign_clear (Prim2SF p).
Proof.
  unfold float_sq.
  destruct (is_nan v) eqn:Hnan.
  { intros H. injection H as <-. rewrite (is_nan_spec v Hnan). exact I. }
  destruct (is_infinity v).
  { intros H. injection H as <-. rewrite abs_spec.
    destruct (Prim2SF v); simpl; try reflexivity; exact I. }
  destruct (v =? 0)%float.
  { intros H. injection H as <-. reflexivity. }
  cbv zeta.
  destruct ((if (v <? 0)%float then (- v)%float else v) =? 1)%float.
  { intros H. injection H as <-. reflexivity. }
  destruct (is_infinity (m_pow2 _)); [discriminate | ].
  intros H. injection H as <-. apply m_pow2_sign.
Qed.

(** [v ** 2] returns, or raises [OverflowError]. *)
Lemma float_sq_cases {L : Libm} (v : float) :
  (exists p, float_sq v = Ok p /\ sign_clear (Prim2SF p)) \/
  float_sq v = Raise OverflowError.
Proof.
  destruct (float_sq v) as [p | e] eqn:E.
  - left. exists p. split; [reflexivity | exact (float_sq_sign v p E)].
  - right. unfold float_sq in E.
    destruct (is_nan v); [discriminate | ].
    destruct (is_infinity v); [discriminate | ].
    destruct (v =? 0)%float; [discriminate | ].
    cbv zeta in E.
    destruct ((if (v <? 0)%float then (- v)%float else v) =? 1)%float;
      [discriminate | ].
    destruct (is_infinity (m_pow2 _)); [ | discriminate].
    symmetry. exact E.
Qed.

Lemma distance_defined {L : Libm} (self opponent : Robot.t) (dx2 dy2 : float) :
  float_sq (Robot.x opponent - Robot.x self) = Ok dx2 ->
  float_sq (Robot.y opponent - Robot.y self) = Ok dy2 ->
  Robot.distance self opponent = Ok (sqrt (dx2 + dy2)).
Proof.
  unfold Robot.distance. intros Hx Hy. rewrite Hx, Hy. cbn [rbind].
  apply sqrt_sum_squares; eapply float_sq_sign; eassumption.
Qed.

(** The shooter after a shot was fired. *)
Lemma shoot_fired {L : Libm} (self opponent : Robot.t) (arena_size : float) :
  0 < Robot.ammo self ->
  Robot.execute_action "shoot" self opponent arena_size =
  (let shooter :=
     Robot.set_ammo (Robot.set_last_action self "shoot") (Robot.ammo self - 1) in
   diff <- Robot.angular_difference self opponent ;;
   hit <- (if (diff <? pi / 8)%float then
             dist <- Robot.distance self opponent ;; Ok (dist <? 50)%float
           else Ok false) ;;
   Ok (shooter,
       if hit then Robot.set_health opponent (Robot.health opponent - 20)
       else opponent))%result.
Proof.
  intros Hpos. unfold Robot.execute_action, Robot.angular_difference, Robot.distance.
  cbn [String.eqb Ascii.eqb Bool.eqb andb Robot.ammo Robot.x Robot.y
       Robot.direction Robot.set_last_action Robot.set_ammo].
  destruct (Z.ltb_spec 0 (Robot.ammo self)) as [_ | Hle]; [ | lia].
  cbn [andb].
  destruct (float_mod _ _) as [m | e]; cbn [rbind]; [ | reflexivity].
  destruct (abs m <? pi / 8)%float; cbn [rbind]; [ | reflexivity].
  destruct (float_sq (Robot.x opponent - Robot.x self)) as [dx2 | e];
    cbn [rbind]; [ | reflexivity].
  destruct (float_sq (Robot.y opponent - Robot.y self)) as [dy2 | e];
    cbn [rbind]; [ | reflexivity].
  destruct (math_sqrt (dx2 + dy2)) as [dist | e]; cbn [rbind]; [ | reflexivity].
  destruct (dist <? 50)%float; reflexivity.
Qed.

(** C4 (amended): 'shoot' always records itself in [last_action].  With no
    ammo nothing else happens.  With ammo, the shooter loses exactly one
    round, and the opponent loses exactly 20 health if and only if the shot
    hits (angular difference below pi/8 and distance below 50), nothing else
    changing; the call returns whenever squaring the coordinate differences
    does not overflow.  The angle and the distance are the code's own, for
    every rounding of [atan2] and of the [pow] behind [** 2].  For the
    shooter at (60,100) heading 0 and the opponent at (100,100), with
    [atan2(0, 40) = 0], the opponent's health goes from 100 to 80 and the
    shooter's ammo from 50 to 49. *)
Theorem shoot_semantics (L : Libm) :
  (forall self opponent arena_size,
     Robot.ammo self <= 0 ->
     Robot.execute_action "shoot" self opponent arena_size =
     Ok (Robot.set_last_action self "shoot", opponent)) /\
  (forall self opponent arena_size self' opponent',
     0 < Robot.ammo self ->
     Robot.execute_action "shoot" self opponent arena_size = Ok (self', opponent') ->
     self' = Robot.set_ammo (Robot.set_last_action self "shoot")
               (Robot.ammo self - 1) /\
     ((Robot.hits self opponent /\
       opponent' = Robot.set_health opponent (Robot.health opponent - 20)) \/
      (~ Robot.hits self opponent /\ opponent' = opponent))) /\
  (forall self opponent arena_size dx2 dy2,
     0 < Robot.ammo self ->
     float_sq (Robot.x opponent - Robot.x self) = Ok dx2 ->
     float_sq (Robot.y opponent - Robot.y self) = Ok dy2 ->
     exists self' opponent',
       Robot.execute_action "shoot" self opponent arena_size
       = Ok (self', opponent')) /\
  (forall arena_size,
     m_atan2 0 40 = 0%float ->
     Robot.execute_action "shoot" (robot_at 60 100 0) (robot_at 100 100 0)
       arena_size
     = Ok (Robot.set_ammo (Robot.set_last_action (robot_at 60 100 0) "shoot") 49,
           Robot.set_health (robot_at 100 100 0) 80)).
Proof.
  split; [ | split; [ | split ] ].
  - intros self opponent arena_size Hle. unfold Robot.execute_action.
    cbn [String.eqb Ascii.eqb Bool.eqb andb Robot.ammo Robot.set_last_action].
    destruct (Z.ltb_spec 0 (Robot.ammo self)) as [Hpos | _]; [lia | reflexivity].
  - intros self opponent arena_size self' opponent' Hpos H.
    rewrite (shoot_fired self opponent arena_size Hpos) in H. cbv zeta in H.
    apply rbind_ok in H as (diff & Hdiff & H).
    apply rbind_ok in H as (hit & Hhit & H).
    injection H as <- <-. split; [reflexivity | ].
    destruct (diff <? pi / 8)%float eqn:Hangle.
    + apply rbind_ok in Hhit as (dist & Hdist & Hhit). injection Hhit as <-.
      destruct (dist <? 50)%float eqn:Hnear.
      * left. split; [ | reflexivity]. exists diff, dist. auto.
      * right. split; [ | reflexivity].
        intros (diff' & dist' & Hd' & _ & Hdist' & Hnear').
        rewrite Hdist in Hdist'. injection Hdist' as <-. congruence.
    + injection Hhit as <-. right. split; [ | reflexivity].
      intros (diff' & dist' & Hd' & Hangle' & _).
      rewrite Hdiff in Hd'. injection Hd' as <-. congruence.
  - intros self opponent arena_size dx2 dy2 Hpos Hx Hy.
    rewrite (shoot_fired self opponent arena_size Hpos). cbv zeta.
    unfold Robot.angular_difference.
    destruct (float_mod_two_pi
                (m_atan2 (Robot.y opponent - Robot.y self)
                         (Robot.x opponent - Robot.x self)
                 - Robot.direction self)) as (m & ->).
    cbn [rbind]. rewrite (distance_defined self opponent dx2 dy2 Hx Hy).
    destruct (abs m <? pi / 8)%float; cbn [rbind]; eexists; eexists; reflexivity.
  - intros arena_size Hatan.
    rewrite shoot_fired by (vm_compute; reflexivity). cbv zeta.
    rewrite distance_forty.
    unfold Robot.angular_difference.
    change (Robot.y (robot_at 100 100 0) - Robot.y (robot_at 60 100 0))%float
      with 0%float.
    change (Robot.x (robot_at 100 100 0) - Robot.x (robot_at 60 100 0))%float
      with 40%float.
    rewrite Hatan. vm_compute. reflexivity.
Qed.

Lemma shoot_semantics_witness :
  @m_atan2 approx_libm 0 40 = 0%float /\
  @Robot.execute_action approx_libm "shoot"
    (robot_at 60 100 0) (robot_at 100 100 0) 200
  = Ok (Robot.set_ammo (Robot.set_last_action (robot_at 60 100 0) "shoot") 49,
        Robot.set_health (robot_at 100 100 0) 80).
Proof.
  assert (@m_atan2 approx_libm 0 40 = 0%float) as H by (vm_compute; reflexivity).
  split; [exact H | ].
  exact (proj2 (proj2 (proj2 (shoot_semantics approx_libm))) 200%float H).
Defined.

(** C4, as stated, fails: a 'shoot' with no ammo is not without effect, it
    sets [last_action]; and a 'shoot' that fires changes [last_action]
    besides the ammo and the opponent's health. *)
Lemma shoot_records_last_action :
  @Robot.execute_action approx_libm "shoot"
    (Robot.set_ammo (robot_at 60 100 0) 0) (robot_at 100 100 0) 200
  = Ok (Robot.set_last_action (Robot.set_ammo (robot_at 60 100 0) 0) "shoot",
        robot_at 100 100 0) /\
  Robot.last_action (Robot.set_ammo (robot_at 60 100 0) 0) = None /\
  Robot.last_action
    (Robot.set_last_action (Robot.set_ammo (robot_at 60 100 0) 0) "shoot")
  = Some "shoot"%string /\
  Robot.set_last_action (Robot.set_ammo (robot_at 60 100 0) 0) "shoot"
  <> Robot.set_ammo (robot_at 60 100 0) 0.
Proof.
  split; [vm_compute; reflexivity | ].
  split; [reflexivity | ].
  split; [reflexivity | ].
  intros H. apply (f_equal Robot.last_action) in H. discriminate H.
Qed.

(** Whether a shot at the edge of the range hits is decided by the rounding
    of [pow]: from (60,100) with heading 0.8 at the opponent at
    (93.4569374561625, 137.15687468093125), the reference instance finds a
    distance below 50 and the shot hits; the instance whose [pow] returns
    the next float for the square of the x difference finds the distance
    50.0 and the shot misses. *)
Lemma pow_rounding_decides_hit :
  @Robot.distance approx_libm (robot_at 60 100 0.8)
    (robot_at 93.4569374561625 137.15687468093125 0)
  = Ok 0x1.8ffffffffffffp+5%float /\
  @Robot.execute_action approx_libm "shoot" (robot_at 60 100 0.8)
    (robot_at 93.4569374561625 137.15687468093125 0) 200
  = Ok (Robot.set_ammo (Robot.set_last_action (robot_at 60 100 0.8) "shoot") 49,
        Robot.set_health (robot_at 93.4569374561625 137.15687468093125 0) 80) /\
  @Robot.distance skewed_libm (robot_at 60 100 0.8)
    (robot_at 93.4569374561625 137.15687468093125 0)
  = Ok 50%float /\
  @Robot.execute_action skewed_libm "shoot" (robot_at 60 100 0.8)
    (robot_at 93.4569374561625 137.15687468093125 0) 200
  = Ok (Robot.set_ammo (Robot.set_last_action (robot_at 60 100 0.8) "shoot") 49,
        robot_at 93.4569374561625 137.15687468093125 0).
Proof.
  split; [ | split; [ | split ] ]; vm_compute; reflexivity.
Qed.

(** ** Subtree crossover *)

Lemma Node_forall_ind (P : Node -> Prop) :
  (forall t, P (Terminal t)) ->
  (forall p children, Forall P children -> P (Function p children)) ->
  forall n, P n.
Proof.
  intros Hterminal Hfunction. fix IH 1. intros [t | p children].
  - apply Hterminal.
  - apply Hfunction. induction children as [ | c cs IHcs]; constructor.
    + apply IH.
    + exact IHcs.
Qed.

(** Replacing a subtree changes the node count by the difference of the two
    subtrees' counts. *)
Lemma replace_size (n : Node) :
  forall (i : nat) (s new : Node),
    subtree n i = Some s ->
    (size (replace n i new) + size s = size n + size new)%nat.
Proof.
  induction n as [t | p children IH] using Node_forall_ind; intros i s new H.
  - destruct i as [ | j].
    + injection H as <-. simpl. lia.
    + discriminate H.
  - destruct i as [ | j].
    + injection H as <-. simpl. lia.
    + simpl in H. simpl.
      revert j H. induction IH as [ | c cs Hc Hcs IHcs]; intros j H.
      * discriminate H.
      * destruct (Nat.ltb_spec j (size c)) as [Hlt | Hge].
        -- specialize (Hc j s new H). simpl. lia.
        -- specialize (IHcs (j - size c)%nat H). simpl in IHcs |- *. lia.
Qed.

(** Every index below the node count names a node, and no other does. *)
Lemma subtree_defined (n : Node) :
  forall i : nat, (i < size n)%nat <-> subtree n i <> None.
Proof.
  induction n as [t | p children IH] using Node_forall_ind; intros i.
  - destruct i as [ | j]; simpl; split; intros H; try lia; try discriminate.
    contradiction H; reflexivity.
  - destruct i as [ | j]; simpl; [split; intros; [discriminate | lia] | ].
    revert j. induction IH as [ | c cs Hc Hcs IHcs]; intros j; simpl.
    + split; intros H; [lia | contradiction H; reflexivity].
    + destruct (Nat.ltb_spec j (size c)) as [Hlt | Hge].
      * split; intros _; [apply Hc; exact Hlt | lia].
      * specialize (IHcs (j - size c)%nat). simpl in IHcs.
        split; intros H.
        -- apply IHcs. lia.
        -- apply IHcs in H. lia.
Qed.

Lemma subtree_root (n : Node) : subtree n 0 = Some n.
Proof.
  destruct n; reflexivity.
Qed.

(** After a replacement the new subtree is found at the index. *)
Lemma subtree_replace (n : Node) :
  forall (i : nat) (new : Node),
    subtree n i <> None -> subtree (replace n i new) i = Some new.
Proof.
  induction n as [t | p children IH] using Node_forall_ind; intros i new H.
  - destruct i as [ | j]; [apply subtree_root | contradiction H; reflexivity].
  - destruct i as [ | j]; [apply subtree_root | ].
    simpl in H |- *. revert j H.
    induction IH as [ | c cs Hc Hcs IHcs]; intros j H.
    + contradiction H; reflexivity.
    + destruct (Nat.ltb_spec j (size c)) as [Hlt | Hge].
      * destruct (subtree c j) as [s | ] eqn:Es; [ | contradiction H; reflexivity].
        pose proof (replace_size c j s new Es) as Hsize.
        pose proof (proj2 (subtree_defined (replace c j new) j)) as Hdef.
        rewrite (Hc j new) in Hdef by (rewrite Es; discriminate).
        assert (j < size (replace c j new))%nat as Hlt'
            by (apply Hdef; discriminate).
        destruct (Nat.ltb_spec j (size (replace c j new))); [ | lia].
        apply Hc. rewrite Es. discriminate.
      * destruct (Nat.ltb_spec j (size c)); [lia | ].
        apply IHcs. exact H.
Qed.

(** C9: the two offspring of the subtree-swap crossover have, together, as
    many nodes as the two parents, whichever nodes are picked; so have the
    offspring of the randomised operator, which always returns. *)
Theorem crossover_conserves_size :
  (forall (t1 t2 : Node) (i1 i2 : nat),
     (size (fst (swap_subtrees t1 t2 i1 i2))
      + size (snd (swap_subtrees t1 t2 i1 i2))
      = size t1 + size t2)%nat) /\
  (forall (G : RandomGen) (t1 t2 : Node) (g : rng),
     exists offspring1 offspring2 g',
       cxOnePoint t1 t2 g = Ok ((offspring1, offspring2), g') /\
       (size offspring1 + size offspring2 = size t1 + size t2)%nat).
Proof.
  assert (forall (t1 t2 : Node) (i1 i2 : nat),
             (size (fst (swap_subtrees t1 t2 i1 i2))
              + size (snd (swap_subtrees t1 t2 i1 i2))
              = size t1 + size t2)%nat) as Hswap.
  { intros t1 t2 i1 i2. unfold swap_subtrees.
    destruct (subtree t1 i1) as [s1 | ] eqn:E1; [ | reflexivity].
    destruct (subtree t2 i2) as [s2 | ] eqn:E2; [ | reflexivity].
    pose proof (replace_size t1 i1 s1 s2 E1).
    pose proof (replace_size t2 i2 s2 s1 E2).
    simpl. lia. }
  split; [exact Hswap | ].
  intros G t1 t2 g. unfold cxOnePoint.
  destruct (random_below (size t1) g) as [i1 g1].
  destruct (random_below (size t2) g1) as [i2 g2].
  specialize (Hswap t1 t2 i1 i2).
  destruct (swap_subtrees t1 t2 i1 i2) as [o1 o2].
  exists o1, o2, g2. split; [reflexivity | exact Hswap].
Qed.

(** ** Random computations *)

Lemma mbind_ok {G : RandomGen} {A B : Type} (c : M A) (k : A -> M B)
      (g g' : rng) (b : B) :
  mbind c k g = Ok (b, g') ->
  exists a g1, c g = Ok (a, g1) /\ k a g1 = Ok (b, g').
Proof.
  unfold mbind. destruct (c g) as [[a g1] | e]; intros H.
  - exists a, g1. split; [reflexivity | exact H].
  - discriminate H.
Qed.

Lemma lift_ok {G : RandomGen} {A : Type} (r : result A) (g g' : rng) (a : A) :
  lift r g = Ok (a, g') -> r = Ok a /\ g' = g.
Proof.
  unfold lift. destruct r as [a0 | e]; intros H; [ | discriminate H].
  injection H as <- <-. split; reflexivity.
Qed.

(** Placing the robots never fails; both start with health 100. *)
Lemma place_robots_ok {G : RandomGen} (arena_size : float) (g : rng) :
  exists robot1 robot2 g',
    place_robots arena_size g = Ok ((robot1, robot2), g') /\
    Robot.health robot1 = 100 /\ Robot.health robot2 = 100.
Proof.
  unfold place_robots, Robot.new, Robot.init, uniform, random, mbind, mret.
  repeat (destruct (random_random _) as [? ?]).
  eexists; eexists; eexists. split; [reflexivity | split; reflexivity].
Qed.

(** ** One match *)

Lemma battle_ticks {L : Libm} (n : nat) (func1 func2 : program)
      (arena_size : float) :
  forall robots final,
    battle n func1 func2 arena_size robots = Ok final ->
    exists k,
      (k <= n)%nat /\
      ticks k func1 func2 arena_size robots = Ok final /\
      ((k < n)%nat -> battle_over final = true) /\
      (forall j, (0 < j < k)%nat ->
         exists mid, ticks j func1 func2 arena_size robots = Ok mid /\
                     battle_over mid = false).
Proof.
  induction n as [ | n IH]; intros robots final H.
  - injection H as <-. exists O.
    split; [lia | split; [reflexivity | split; intros; lia] ].
  - cbn [battle] in H. apply rbind_ok in H as (next & Htick & H).
    destruct (battle_over next) eqn:Hover.
    + injection H as <-. exists 1%nat.
      split; [lia | split; [ | split ] ].
      * cbn [ticks]. rewrite Htick. reflexivity.
      * intros _. exact Hover.
      * intros j Hj; lia.
    + destruct (IH next final H) as (k & Hk & Hrun & Hearly & Hmid).
      exists (S k).
      split; [lia | split; [ | split ] ].
      * cbn [ticks]. rewrite Htick. exact Hrun.
      * intros Hlt. apply Hearly. lia.
      * intros j Hj. destruct j as [ | j]; [lia | ].
        cbn [ticks]. rewrite Htick. cbn [rbind].
        destruct j as [ | j].
        -- exists next. split; [reflexivity | exact Hover].
        -- apply Hmid. lia.
Qed.

Lemma outcome_of_spec (robot1 robot2 : Robot.t) :
  (outcome_of (robot1, robot2) = Win1 <->
   0 < Robot.health robot1 /\ Robot.health robot2 <= 0) /\
  (outcome_of (robot1, robot2) = Win2 <->
   0 < Robot.health robot2 /\ Robot.health robot1 <= 0) /\
  (outcome_of (robot1, robot2) = NoChange <->
   (Robot.health robot1 <= 0 /\ Robot.health robot2 <= 0) \/
   (0 < Robot.health robot1 /\ 0 < Robot.health robot2)).
Proof.
  unfold outcome_of.
  destruct (Z.ltb_spec 0 (Robot.health robot1)),
           (Z.leb_spec (Robot.health robot2) 0),
           (Z.ltb_spec 0 (Robot.health robot2)),
           (Z.leb_spec (Robot.health robot1) 0);
    cbn [andb]; repeat split; intros; try discriminate; try lia;
    try reflexivity.
Qed.

Lemma credit_outcome (robots : Robot.t * Robot.t) (ind1 ind2 : Individual) :
  valid ind1 = true -> valid ind2 = true ->
  credit robots ind1 ind2 =
  Ok (award (outcome_of robots) ind1 ind2).
Proof.
  unfold valid, credit, outcome_of, award, add_score, fitness_value, entry_score,
    set_fitness.
  destruct robots as [robot1 robot2].
  destruct (fitness ind1) as [s1 | ]; [ | discriminate].
  destruct (fitness ind2) as [s2 | ]; [ | discriminate].
  intros _ _.
  destruct (_ && _); [reflexivity | ].
  destruct (_ && _); reflexivity.
Qed.

(** A match between two evaluated individuals is the match of their trees
    followed by the award. *)
Lemma play_match {L : Libm} {G : RandomGen} (toolbox : Toolbox)
      (arena_size : float) (max_steps : Z) (ind1 ind2 : Individual) (g : rng) :
  valid ind1 = true -> valid ind2 = true ->
  play toolbox arena_size max_steps ind1 ind2 g =
  match match_result toolbox arena_size max_steps (tree ind1) (tree ind2) g with
  | Ok (final, g') => Ok (award (outcome_of final) ind1 ind2, g')
  | Raise e => Raise e
  end.
Proof.
  intros H1 H2. unfold play, match_result, mbind.
  destruct (place_robots arena_size g) as [[robots g1] | e]; [ | reflexivity].
  unfold lift.
  destruct (battle _ _ _ _ robots) as [final | e]; [ | reflexivity].
  rewrite (credit_outcome final ind1 ind2 H1 H2). reflexivity.
Qed.

Lemma award_fitness (o : outcome) (ind1 ind2 : Individual) (s1 s2 : Z) :
  fitness ind1 = Some s1 -> fitness ind2 = Some s2 ->
  tree (fst (award o ind1 ind2)) = tree ind1 /\
  tree (snd (award o ind1 ind2)) = tree ind2 /\
  fitness (fst (award o ind1 ind2)) = Some (if is_win1 o then s1 + 1 else s1) /\
  fitness (snd (award o ind1 ind2)) = Some (if is_win2 o then s2 + 1 else s2).
Proof.
  intros H1 H2. unfold award, add_score, entry_score.
  destruct o; cbn; rewrite ?H1, ?H2; repeat split; reflexivity.
Qed.

(** C2: a match runs some [k] ticks, at most the allotted number, and
    fewer only if after the [k]-th tick (both actions applied) a robot's
    health is not positive, none being so after an earlier tick.  Side 1's
    fitness then grows by exactly 1 if and only if robot 1's health is
    positive and robot 2's is not, side 2's symmetrically, and nothing
    changes when both or neither are alive.  The match fails only if the
    battle raises.  With no step allotted, no fitness changes, wherever the
    robots are placed. *)
Theorem match_outcome_rule (L : Libm) (G : RandomGen) (toolbox : Toolbox)
        (arena_size : float) (max_steps : Z) (ind1 ind2 : Individual)
        (s1 s2 : Z) (g : rng) :
  fitness ind1 = Some s1 -> fitness ind2 = Some s2 ->
  (forall ind1' ind2' g',
     play toolbox arena_size max_steps ind1 ind2 g = Ok ((ind1', ind2'), g') ->
     exists start robot1 robot2 k,
       place_robots arena_size g = Ok (start, g') /\
       (k <= Z.to_nat max_steps)%nat /\
       ticks k (compile_expr toolbox (tree ind1))
         (compile_expr toolbox (tree ind2)) arena_size start
       = Ok (robot1, robot2) /\
       ((k < Z.to_nat max_steps)%nat ->
        Robot.health robot1 <= 0 \/ Robot.health robot2 <= 0) /\
       (forall j, (0 < j < k)%nat ->
          exists mid1 mid2,
            ticks j (compile_expr toolbox (tree ind1))
              (compile_expr toolbox (tree ind2)) arena_size start
            = Ok (mid1, mid2) /\
            0 < Robot.health mid1 /\ 0 < Robot.health mid2) /\
       tree ind1' = tree ind1 /\ tree ind2' = tree ind2 /\
       (0 < Robot.health robot1 /\ Robot.health robot2 <= 0 ->
        fitness ind1' = Some (s1 + 1) /\ fitness ind2' = Some s2) /\
       (0 < Robot.health robot2 /\ Robot.health robot1 <= 0 ->
        fitness ind1' = Some s1 /\ fitness ind2' = Some (s2 + 1)) /\
       (fitness ind1' = Some (s1 + 1) ->
        0 < Robot.health robot1 /\ Robot.health robot2 <= 0) /\
       (fitness ind2' = Some (s2 + 1) ->
        0 < Robot.health robot2 /\ Robot.health robot1 <= 0) /\
       ((Robot.health robot1 <= 0 /\ Robot.health robot2 <= 0) \/
        (0 < Robot.health robot1 /\ 0 < Robot.health robot2) ->
        ind1' = ind1 /\ ind2' = ind2)) /\
  (forall final g',
     match_result toolbox arena_size max_steps (tree ind1) (tree ind2) g
     = Ok (final, g') ->
     exists ind1' ind2',
       play toolbox arena_size max_steps ind1 ind2 g = Ok ((ind1', ind2'), g')) /\
  (max_steps <= 0 ->
   exists g', play toolbox arena_size max_steps ind1 ind2 g = Ok ((ind1, ind2), g')).
Proof.
  intros Hs1 Hs2.
  assert (valid ind1 = true) as Hv1 by (unfold valid; rewrite Hs1; reflexivity).
  assert (valid ind2 = true) as Hv2 by (unfold valid; rewrite Hs2; reflexivity).
  split; [ | split ].
  - intros ind1' ind2' g' Hplay.
    rewrite (play_match toolbox arena_size max_steps ind1 ind2 g Hv1 Hv2) in Hplay.
    unfold match_result, mbind in Hplay.
    destruct (place_robots arena_size g) as [[start g1] | e] eqn:Hplace;
      [ | discriminate Hplay].
    unfold lift in Hplay.
    destruct (battle _ _ _ _ start) as [[robot1 robot2] | e] eqn:Hbattle;
      [ | discriminate Hplay].
    assert (award (outcome_of (robot1, robot2)) ind1 ind2 = (ind1', ind2'))
      as Haward by congruence.
    assert (g1 = g') as -> by congruence. clear Hplay.
    destruct (battle_ticks _ _ _ _ _ _ Hbattle) as (k & Hk & Hrun & Hearly & Hmid).
    destruct (award_fitness (outcome_of (robot1, robot2)) ind1 ind2 s1 s2 Hs1 Hs2)
      as (Ht1 & Ht2 & Hf1 & Hf2).
    rewrite Haward in Ht1, Ht2, Hf1, Hf2. cbn [fst snd] in Ht1, Ht2, Hf1, Hf2.
    destruct (outcome_of_spec robot1 robot2) as (Hw1 & Hw2 & Hnc).
    exists start, robot1, robot2, k.
    split; [reflexivity | ]. split; [exact Hk | ]. split; [exact Hrun | ].
    split.
    { intros Hlt. specialize (Hearly Hlt). unfold battle_over in Hearly.
      cbn [fst snd] in Hearly. apply orb_true_iff in Hearly.
      destruct Hearly as [H | H]; apply Z.leb_le in H; auto. }
    split.
    { intros j Hj. destruct (Hmid j Hj) as ([mid1 mid2] & Hticks & Halive).
      exists mid1, mid2. split; [exact Hticks | ].
      unfold battle_over in Halive. cbn [fst snd] in Halive.
      apply orb_false_iff in Halive. destruct Halive as [H1 H2].
      apply Z.leb_gt in H1, H2. split; assumption. }
    split; [exact Ht1 | ]. split; [exact Ht2 | ].
    destruct (outcome_of (robot1, robot2)) eqn:Ho; cbn [is_win1 is_win2] in Hf1, Hf2.
    + assert (0 < Robot.health robot1 /\ Robot.health robot2 <= 0) as Hwin
          by (apply Hw1; reflexivity).
      repeat split; intros; try assumption; try lia.
      * rewrite Hf2 in H. injection H as H. lia.
      * rewrite Hf2 in H. injection H as H. lia.
    + assert (0 < Robot.health robot2 /\ Robot.health robot1 <= 0) as Hwin
          by (apply Hw2; reflexivity).
      repeat split; intros; try assumption; try lia.
      * rewrite Hf1 in H. injection H as H. lia.
      * rewrite Hf1 in H. injection H as H. lia.
    + assert ((Robot.health robot1 <= 0 /\ Robot.health robot2 <= 0) \/
              (0 < Robot.health robot1 /\ 0 < Robot.health robot2)) as Hnone
          by (apply Hnc; reflexivity).
      cbn [award] in Haward. injection Haward as <- <-.
      repeat split; intros; try assumption; try lia.
      * rewrite Hf1 in H. injection H as H. lia.
      * rewrite Hf1 in H. injection H as H. lia.
      * rewrite Hf2 in H. injection H as H. lia.
      * rewrite Hf2 in H. injection H as H. lia.
  - intros final g' Hmatch.
    rewrite (play_match toolbox arena_size max_steps ind1 ind2 g Hv1 Hv2), Hmatch.
    destruct (award (outcome_of final) ind1 ind2) as [ind1' ind2'].
    exists ind1', ind2'. reflexivity.
  - intros Hzero.
    rewrite (play_match toolbox arena_size max_steps ind1 ind2 g Hv1 Hv2).
    unfold match_result, mbind.
    destruct (place_robots_ok arena_size g) as (robot1 & robot2 & g' & -> & H1 & H2).
    replace (Z.to_nat max_steps) with O by lia.
    cbn [battle lift]. unfold outcome_of. rewrite H1, H2. cbn.
    exists g'. reflexivity.
Qed.

Lemma match_outcome_rule_witness :
  fitness (mkIndividual shooter (Some 0)) = Some 0 /\
  fitness (mkIndividual idler (Some 0)) = Some 0 /\
  @play approx_libm tape_gen core_toolbox 200 100
    (mkIndividual shooter (Some 0)) (mkIndividual idler (Some 0)) (duel_draws, [])
  = Ok ((mkIndividual shooter (Some 1), mkIndividual idler (Some 0)), ([], [])) /\
  exists start robot1 robot2 k,
    @place_robots tape_gen 200 (duel_draws, []) = Ok (start, ([], [])) /\
    (k <= 100)%nat /\
    @ticks approx_libm k (compile_expr core_toolbox shooter)
      (compile_expr core_toolbox idler) 200 start = Ok (robot1, robot2) /\
    0 < Robot.health robot1 /\ Robot.health robot2 <= 0.
Proof.
  assert (fitness (mkIndividual shooter (Some 0)) = Some 0) as H1 by reflexivity.
  assert (fitness (mkIndividual idler (Some 0)) = Some 0) as H2 by reflexivity.
  assert (@play approx_libm tape_gen core_toolbox 200 100
            (mkIndividual shooter (Some 0)) (mkIndividual idler (Some 0))
            (duel_draws, [])
          = Ok ((mkIndividual shooter (Some 1), mkIndividual idler (Some 0)),
                ([], []))) as Hplay by (vm_compute; reflexivity).
  split; [exact H1 | ]. split; [exact H2 | ]. split; [exact Hplay | ].
  destruct (proj1 (match_outcome_rule approx_libm tape_gen core_toolbox 200 100
                     _ _ 0 0 (duel_draws, []) H1 H2) _ _ _ Hplay)
    as (start & robot1 & robot2 & k & Hplace & Hk & Hticks & _ & _ & _ & _
        & _ & _ & Hwin & _).
  exists start, robot1, robot2, k.
  split; [exact Hplace | ]. split; [exact Hk | ]. split; [exact Hticks | ].
  apply Hwin. reflexivity.
Defined.

(** ** The round robin *)

Lemma add_score_zero (ind : Individual) :
  valid ind = true -> add_score 0 ind = ind.
Proof.
  unfold valid, add_score, entry_score. destruct ind as [t [s | ]]; cbn.
  - intros _. rewrite Z.add_0_r. reflexivity.
  - discriminate.
Qed.

Lemma add_score_add (k m : Z) (ind : Individual) :
  add_score k (add_score m ind) = add_score (m + k) ind.
Proof.
  unfold add_score, entry_score. cbn. rewrite Z.add_assoc. reflexivity.
Qed.

Lemma award_first (o : outcome) (ind1 ind2 : Individual) :
  valid ind1 = true ->
  fst (award o ind1 ind2) = add_score (if is_win1 o then 1 else 0) ind1.
Proof.
  intros H. destruct o; cbn; rewrite ?add_score_zero by exact H; reflexivity.
Qed.

Lemma award_second (o : outcome) (ind1 ind2 : Individual) :
  snd (award o ind1 ind2) = if is_win2 o then add_score 1 ind2 else ind2.
Proof.
  destruct o; reflexivity.
Qed.

Lemma versus_row {L : Libm} {G : RandomGen} (toolbox : Toolbox)
      (arena_size : float) (max_steps : Z) (pop2 : list Individual) :
  forall (ind1 : Individual) (g : rng),
    valid ind1 = true -> Forall (fun ind => valid ind = true) pop2 ->
    versus toolbox arena_size max_steps ind1 pop2 g =
    match row_outcomes toolbox arena_size max_steps (tree ind1)
            (map tree pop2) g with
    | Ok (row, g') =>
        Ok ((add_score (Z.of_nat (List.length (filter is_win1 row))) ind1,
             credit_row row pop2), g')
    | Raise e => Raise e
    end.
Proof.
  induction pop2 as [ | ind2 rest IH]; intros ind1 g Hv1 Hv2.
  - cbn. unfold mret. rewrite add_score_zero by exact Hv1. reflexivity.
  - inversion Hv2 as [ | ? ? Hv Hrest]; subst.
    cbn [versus map row_outcomes]. unfold mbind at 1 3.
    rewrite (play_match toolbox arena_size max_steps ind1 ind2 g Hv1 Hv).
    destruct (match_result _ _ _ _ _ g) as [[final g1] | e]; [ | reflexivity].
    pose proof (award_first (outcome_of final) ind1 ind2 Hv1) as Hfst.
    pose proof (award_second (outcome_of final) ind1 ind2) as Hsnd.
    destruct (award (outcome_of final) ind1 ind2) as [ind1' ind2'].
    cbn [fst snd] in Hfst, Hsnd. subst ind1' ind2'.
    unfold mbind.
    rewrite IH; [ | reflexivity | exact Hrest].
    cbn [tree add_score].
    destruct (row_outcomes _ _ _ _ _ g1) as [[row g2] | e]; [ | reflexivity].
    unfold mret. rewrite add_score_add. cbn [filter credit_row].
    destruct (is_win1 (outcome_of final)); cbn [List.length];
      repeat f_equal; lia.
Qed.

Lemma credit_row_preserves (row : list outcome) :
  forall pop2,
    map tree (credit_row row pop2) = map tree pop2 /\
    (Forall (fun ind => valid ind = true) pop2 ->
     Forall (fun ind => valid ind = true) (credit_row row pop2)).
Proof.
  induction row as [ | o row IH]; intros [ | ind2 rest]; cbn;
    try (split; [reflexivity | auto]).
  destruct (IH rest) as [Htree Hvalid]. split.
  - rewrite Htree. destruct (is_win2 o); reflexivity.
  - intros H. inversion H; subst. constructor; [ | auto].
    destruct (is_win2 o); [reflexivity | assumption].
Qed.

Lemma compete_rows {L : Libm} {G : RandomGen} (toolbox : Toolbox)
      (arena_size : float) (max_steps : Z) (pop1 : list Individual) :
  forall (pop2 : list Individual) (g : rng),
    Forall (fun ind => valid ind = true) pop1 ->
    Forall (fun ind => valid ind = true) pop2 ->
    compete toolbox arena_size max_steps pop1 pop2 g =
    match round_robin toolbox arena_size max_steps (map tree pop1)
            (map tree pop2) g with
    | Ok (rows, g') =>
        Ok ((credit_rows rows pop1, credit_columns rows pop2), g')
    | Raise e => Raise e
    end.
Proof.
  induction pop1 as [ | ind1 rest IH]; intros pop2 g Hv1 Hv2.
  - reflexivity.
  - inversion Hv1 as [ | ? ? Hv Hrest]; subst.
    cbn [compete map round_robin]. unfold mbind at 1 3.
    rewrite (versus_row toolbox arena_size max_steps pop2 ind1 g Hv Hv2).
    destruct (row_outcomes _ _ _ _ _ g) as [[row g1] | e]; [ | reflexivity].
    destruct (credit_row_preserves row pop2) as [Htree Hvalid].
    unfold mbind.
    rewrite IH; [ | exact Hrest | exact (Hvalid Hv2)].
    rewrite Htree.
    destruct (round_robin _ _ _ _ _ g1) as [[rows g2] | e]; reflexivity.
Qed.

Lemma credit_rows_nth (rows : list (list outcome)) :
  forall (pop1 : list Individual) (i : nat) (ind : Individual),
    Forall (fun ind => valid ind = true) pop1 ->
    nth_error pop1 i = Some ind ->
    nth_error (credit_rows rows pop1) i = Some (add_score (wins1 rows i) ind).
Proof.
  unfold wins1.
  induction rows as [ | row rows IH]; intros pop1 i ind Hv H.
  - assert (valid ind = true) as Hvi
        by (apply nth_error_In in H; rewrite Forall_forall in Hv; auto).
    destruct pop1, i; cbn in *; try discriminate;
      rewrite add_score_zero by exact Hvi; exact H.
  - destruct pop1 as [ | ind1 rest]; [destruct i; discriminate H | ].
    inversion Hv; subst. destruct i as [ | i]; cbn in *.
    + injection H as <-. reflexivity.
    + apply IH; assumption.
Qed.

Lemma credit_row_nth (row : list outcome) :
  forall (pop2 : list Individual) (j : nat) (ind : Individual),
    nth_error pop2 j = Some ind ->
    nth_error (credit_row row pop2) j =
    Some (if is_win2 (nth j row NoChange) then add_score 1 ind else ind).
Proof.
  induction row as [ | o row IH]; intros pop2 j ind H.
  - destruct pop2, j; cbn in *; try discriminate; exact H.
  - destruct pop2 as [ | ind2 rest]; [destruct j; discriminate H | ].
    destruct j as [ | j]; cbn in *.
    + injection H as <-. reflexivity.
    + apply IH; assumption.
Qed.

Lemma credit_columns_nth (rows : list (list outcome)) :
  forall (pop2 : list Individual) (j : nat) (ind : Individual),
    valid ind = true ->
    nth_error pop2 j = Some ind ->
    nth_error (credit_columns rows pop2) j = Some (add_score (wins2 rows j) ind).
Proof.
  unfold credit_columns, wins2.
  induction rows as [ | row rows IH]; intros pop2 j ind Hv H.
  - cbn. rewrite add_score_zero by exact Hv. exact H.
  - cbn [fold_left filter].
    pose proof (credit_row_nth row pop2 j ind H) as Hrow.
    destruct (is_win2 (nth j row NoChange)).
    + rewrite (IH _ j (add_score 1 ind) eq_refl Hrow). rewrite add_score_add.
      cbn [List.length]. f_equal. f_equal. lia.
    + exact (IH _ j _ Hv Hrow).
Qed.

Lemma init_fitness_valid (pop : list Individual) :
  Forall (fun ind => valid ind = true) (init_fitness pop) /\
  map tree (init_fitness pop) = map tree pop.
Proof.
  unfold init_fitness. induction pop as [ | ind rest [IHv IHt]]; cbn.
  - split; [constructor | reflexivity].
  - split.
    + constructor; [ | exact IHv]. destruct (valid ind) eqn:E; [exact E | reflexivity].
    + rewrite IHt. destruct (valid ind); reflexivity.
Qed.

Lemma init_fitness_nth (pop : list Individual) (i : nat) (ind : Individual) :
  nth_error pop i = Some ind ->
  exists ind0,
    nth_error (init_fitness pop) i = Some ind0 /\ valid ind0 = true /\
    forall k, add_score k ind0 = add_score k ind.
Proof.
  unfold init_fitness. intros H.
  rewrite nth_error_map, H. cbn.
  destruct (valid ind) eqn:E.
  - exists ind. auto.
  - exists (set_fitness ind (Some 0)). split; [reflexivity | ].
    split; [reflexivity | ]. intros k.
    unfold valid in E. unfold add_score, entry_score, set_fitness. cbn.
    destruct (fitness ind); [discriminate E | reflexivity].
Qed.

(** One random step of the breeding loops leaves each individual as it was
    or without a valid fitness. *)
Lemma crossover_pairs_fitness {G : RandomGen} (toolbox : Toolbox) (n : nat) :
  forall (offspring out : list Individual) (g g' : rng),
    (List.length offspring <= n)%nat ->
    crossover_pairs toolbox offspring g = Ok (out, g') ->
    Forall2 copy_or_invalid offspring out.
Proof.
  induction n as [ | n IH]; intros offspring out g g' Hlen H.
  - destruct offspring; [ | cbn in Hlen; lia].
    injection H as <- _. constructor.
  - destruct offspring as [ | child1 [ | child2 rest]].
    + injection H as <- _. constructor.
    + injection H as <- _. constructor; [left; reflexivity | constructor].
    + cbn [crossover_pairs] in H.
      apply mbind_ok in H as (r & g1 & _ & H).
      apply mbind_ok in H as ([c1 c2] & g2 & Hpair & H).
      apply mbind_ok in H as (rest' & g3 & Hrest & H).
      injection H as <- _.
      assert (copy_or_invalid child1 c1 /\ copy_or_invalid child2 c2) as [H1 H2].
      { destruct (r <? 0.5)%float.
        - apply mbind_ok in Hpair as ([t1 t2] & g4 & _ & Hpair).
          injection Hpair as <- <- _. split; right; reflexivity.
        - injection Hpair as <- <- _. split; left; reflexivity. }
      constructor; [exact H1 | ]. constructor; [exact H2 | ].
      apply (IH rest rest' g2 g3); [cbn in Hlen; lia | exact Hrest].
Qed.

Lemma mutation_fitness {G : RandomGen} (toolbox : Toolbox) :
  forall (offspring out : list Individual) (g g' : rng),
    mutation toolbox offspring g = Ok (out, g') ->
    Forall2 copy_or_invalid offspring out.
Proof.
  induction offspring as [ | mutant rest IH]; intros out g g' H.
  - injection H as <- _. constructor.
  - cbn [mutation] in H.
    apply mbind_ok in H as (r & g1 & _ & H).
    apply mbind_ok in H as (m & g2 & Hm & H).
    apply mbind_ok in H as (rest' & g3 & Hrest & H).
    injection H as <- _. constructor; [ | exact (IH _ _ _ Hrest)].
    destruct (r <? 0.1)%float.
    + apply mbind_ok in Hm as (t & g4 & _ & Hm). injection Hm as <- _.
      right; reflexivity.
    + injection Hm as <- _. left; reflexivity.
Qed.






(** ** Configuration *)

Lemma population_empty {G : RandomGen} (toolbox : Toolbox) (n : Z) (g : rng) :
  n <= 0 -> population toolbox (Z.to_nat n) g = Ok ([], g).
Proof.
  intros H. replace (Z.to_nat n) with O by lia. reflexivity.
Qed.

(** C7 (amended): [coevolution] validates nothing.  The tournament size and
    the crossover and mutation probabilities are the constants 3, 0.5 and
    0.1 of the code, not options.  With a generation count that is not
    positive the loop body never runs: the call does the initial round robin
    and returns the two initial populations with empty statistics, raising
    only what creating or evaluating them raises; with, besides, a
    population size that is not positive it returns two empty populations
    and raises nothing. *)
Theorem coevolution_validates_nothing (L : Libm) (G : RandomGen)
        (setup : PrimitiveSet -> Toolbox) (pop_size generations : Z)
        (ifelse logicals angle_primitives : bool) (g : rng) :
  generations <= 0 ->
  coevolution_with setup pop_size generations ifelse logicals angle_primitives g =
  match initial_populations
          (setup (create_primitive_set ifelse logicals angle_primitives))
          pop_size g with
  | Ok ((pop1, pop2), g') => Ok (mkRun pop1 pop2 [] [] [] [], g')
  | Raise e => Raise e
  end /\
  (pop_size <= 0 ->
   coevolution_with setup pop_size generations ifelse logicals angle_primitives g
   = Ok (mkRun [] [] [] [] [] [], g)).
Proof.
  intros Hgen.
  assert (coevolution_with setup pop_size generations ifelse logicals
            angle_primitives g =
          match initial_populations
                  (setup (create_primitive_set ifelse logicals angle_primitives))
                  pop_size g with
          | Ok ((pop1, pop2), g') => Ok (mkRun pop1 pop2 [] [] [] [], g')
          | Raise e => Raise e
          end) as Hrun.
  { unfold coevolution_with, mbind.
    destruct (initial_populations _ pop_size g) as [[[pop1 pop2] g'] | e];
      [ | reflexivity].
    replace (Z.to_nat generations) with O by lia. reflexivity. }
  split; [exact Hrun | ].
  intros Hsize. rewrite Hrun. unfold initial_populations, mbind.
  rewrite !population_empty by exact Hsize. reflexivity.
Qed.

Lemma coevolution_validates_nothing_witness :
  0 <= 0 /\
  @coevolution_with approx_libm tape_gen (@setup_evolution approx_libm tape_gen) 1 0 false false false
    run_draws
  = match @initial_populations approx_libm tape_gen
            (@setup_evolution approx_libm tape_gen
               (create_primitive_set false false false)) 1
            run_draws with
    | Ok ((pop1, pop2), g') => Ok (mkRun pop1 pop2 [] [] [] [], g')
    | Raise e => Raise e
    end.
Proof.
  assert (0 <= 0) as H by lia.
  split; [exact H | ].
  exact (proj1 (coevolution_validates_nothing approx_libm tape_gen
                  (@setup_evolution approx_libm tape_gen) 1 0 false false false run_draws H)).
Defined.

(** C7, as stated, fails: no configuration is refused.  With 0 or -3
    generations the run returns normally, its populations evaluated by the
    initial round robin; with population size 0 and 0 generations it returns
    two empty populations; with population size 0 or -2 and one generation
    it does raise, but a [ZeroDivisionError] from the average over an empty
    population, after the generation was bred and evaluated. *)
Lemma invalid_configuration_accepted :
  @coevolution approx_libm tape_gen 1 0 false false false run_draws
  = Ok (mkRun [mkIndividual shooter (Some 1)] [mkIndividual idler (Some 0)]
          [] [] [] [],
        ([0.5; 0.5]%float ++ duel_draws, [0; 0; 0; 0; 0; 0]%nat)) /\
  @coevolution approx_libm tape_gen 1 (-3) false false false run_draws
  = Ok (mkRun [mkIndividual shooter (Some 1)] [mkIndividual idler (Some 0)]
          [] [] [] [],
        ([0.5; 0.5]%float ++ duel_draws, [0; 0; 0; 0; 0; 0]%nat)) /\
  @coevolution approx_libm tape_gen 0 0 false false false run_draws
  = Ok (mkRun [] [] [] [] [] [], run_draws) /\
  @coevolution approx_libm tape_gen 0 1 false false false run_draws
  = Raise ZeroDivisionError /\
  @coevolution approx_libm tape_gen (-2) 1 false false false run_draws
  = Raise ZeroDivisionError.
Proof.
  repeat split; vm_compute; reflexivity.
Qed.

(** * Further properties of the code *)

(** ** [select_action] beyond finite outputs *)

Lemma getitem_in {A : Type} (l : list A) (i : Z) (a : A) :
  py_getitem l i = Ok a -> In a l.
Proof.
  unfold py_getitem. destruct (_ && _); [ | discriminate].
  destruct (nth_error l _) as [a' | ] eqn:E; [ | discriminate].
  intros H. injection H as <-. exact (nth_error_In _ _ E).
Qed.

(** [select_action] returns exactly on the finite outputs, what it returns
    is one of the six actions, and what it raises is the [OverflowError] of
    an infinity or the [ValueError] of a NaN. *)
Theorem select_action_domain :
  (forall output, is_ok (select_action output) = isfinite output) /\
  (forall output a, select_action output = Ok a -> In a actions) /\
  (forall output e, select_action output = Raise e ->
     exists f, output = PyFloat f /\
       ((e = OverflowError /\ is_infinity f = true) \/
        (e = ValueError /\ is_nan f = true))).
Proof.
  split; [ | split ].
  - intros output. destruct (isfinite output) eqn:Hfin.
    + destruct (int_of_abs_is_floor output Hfin) as (n & Hint & _ & _).
      unfold select_action. rewrite Hint. cbn [rbind].
      rewrite actions_getitem by (apply Z.mod_pos_bound; lia). reflexivity.
    + destruct output as [z | f]; [discriminate Hfin | ].
      unfold select_action, isfinite, float_isfinite in *. simpl.
      unfold float_to_int. rewrite abs_spec.
      destruct (Prim2SF f); simpl in *; try discriminate; reflexivity.
  - intros output a H. unfold select_action in H.
    apply rbind_ok in H as (n & _ & H). exact (getitem_in _ _ _ H).
  - intros output e H. unfold select_action in H.
    apply rbind_raise in H as [H | (n & _ & H)].
    + destruct output as [z | f]; [discriminate H | ]. exists f.
      split; [reflexivity | ].
      simpl in H. unfold float_to_int in H. rewrite abs_spec in H.
      unfold is_infinity, is_nan.
      rewrite !FloatAxioms.eqb_spec, abs_spec. change (Prim2SF infinity) with (S754_infinity false).
      destruct (Prim2SF f) as [s | s | | s m e0]; simpl in *;
        try discriminate H; injection H as <-.
      * left. split; reflexivity.
      * right. split; reflexivity.
    + rewrite actions_getitem in H by (apply Z.mod_pos_bound; lia).
      discriminate H.
Qed.

Lemma float_abs_opp (f : float) : abs (- f) = abs f.
Proof.
  rewrite <- (SF2Prim_Prim2SF (abs (- f))), <- (SF2Prim_Prim2SF (abs f)).
  rewrite !abs_spec, opp_spec. destruct (Prim2SF f); reflexivity.
Qed.

(** [select_action] looks at the magnitude of the output only: an output
    and its negation select the same action, or raise the same error; on
    ints the action has period 6. *)
Theorem select_action_magnitude :
  (forall output, select_action (py_neg output) = select_action output) /\
  (forall z : Z, 0 <= z ->
     select_action (PyInt (z + 6)) = select_action (PyInt z)).
Proof.
  split.
  - intros [z | f]; unfold select_action; simpl.
    + rewrite Z.abs_opp. reflexivity.
    + rewrite float_abs_opp. reflexivity.
  - intros z Hz. unfold select_action. simpl.
    rewrite !Z.abs_eq by lia.
    replace (z + 6) with (z + 1 * 6) by lia. rewrite Z.mod_add by lia.
    reflexivity.
Qed.

(** ** What an action can change *)

Lemma execute_action_effect {L : Libm} (action : string)
      (self opponent self' opponent' : Robot.t) (arena_size : float) :
  Robot.execute_action action self opponent arena_size = Ok (self', opponent') ->
  Robot.last_action self' = Some action /\
  Robot.health self' = Robot.health self /\
  Robot.sensors self' = Robot.sensors self /\
  (opponent' = opponent \/
   (action = "shoot"%string /\ 0 < Robot.ammo self /\
    opponent' = Robot.set_health opponent (Robot.health opponent - 20))) /\
  ((Robot.x self' = Robot.x self /\ Robot.y self' = Robot.y self) \/
   (action = "move_forward"%string /\ inside_arena arena_size self' = true)) /\
  (Robot.direction self' = Robot.direction self \/
   action = "turn_left"%string \/ action = "turn_right"%string).
Proof.
  unfold Robot.execute_action.
  destruct (String.eqb_spec action "move_forward") as [-> | Hmove].
  { intros H.
    apply rbind_ok in H as (c & _ & H). apply rbind_ok in H as (s & _ & H).
    destruct (_ && _) eqn:Hin; injection H as <- <-.
    - repeat split; auto.
    - repeat split; auto. }
  destruct (String.eqb_spec action "turn_left") as [-> | Hleft].
  { intros H. apply rbind_ok in H as (d & _ & H). injection H as <- <-.
    repeat split; auto. }
  destruct (String.eqb_spec action "turn_right") as [-> | Hright].
  { intros H. apply rbind_ok in H as (d & _ & H). injection H as <- <-.
    repeat split; auto. }
  destruct (String.eqb_spec action "shoot") as [-> | Hshoot]; cbn [andb].
  { cbn [Robot.ammo Robot.set_last_action].
    destruct (Z.ltb_spec 0 (Robot.ammo self)) as [Hpos | Hle].
    - intros H. apply rbind_ok in H as (m & _ & H).
      apply rbind_ok in H as (hit & _ & H).
      destruct hit; injection H as <- <-; repeat split; auto.
    - cbn. intros H. injection H as <- <-. repeat split; auto. }
  destruct (String.eqb_spec action "reload") as [-> | Hreload].
  { intros H. injection H as <- <-. repeat split; auto. }
  destruct (String.eqb_spec action "do_nothing") as [-> | Hnothing];
    intros H; injection H as <- <-; repeat split; auto.
Qed.

(** An action never changes the acting robot's own health or sensors, and
    changes nothing of the opponent but its health, which either stays or
    drops by exactly 20, the latter only for a 'shoot' with ammo left. *)
Theorem damage_is_twenty (L : Libm) :
  forall action self opponent arena_size self' opponent',
    Robot.execute_action action self opponent arena_size = Ok (self', opponent') ->
    Robot.health self' = Robot.health self /\
    Robot.sensors self' = Robot.sensors self /\
    Robot.x opponent' = Robot.x opponent /\
    Robot.y opponent' = Robot.y opponent /\
    Robot.ammo opponent' = Robot.ammo opponent /\
    Robot.direction opponent' = Robot.direction opponent /\
    Robot.last_action opponent' = Robot.last_action opponent /\
    Robot.sensors opponent' = Robot.sensors opponent /\
    (Robot.health opponent' = Robot.health opponent \/
     (Robot.health opponent' = Robot.health opponent - 20 /\
      action = "shoot"%string /\ 0 < Robot.ammo self)).
Proof.
  intros action self opponent arena_size self' opponent' H.
  apply execute_action_effect in H
    as (_ & Hhealth & Hsensors & [-> | (-> & Hpos & ->)] & _ & _).
  - repeat split; auto.
  - repeat split; auto.
Qed.

Lemma damage_is_twenty_witness :
  @Robot.execute_action approx_libm "shoot" (robot_at 60 100 0)
    (robot_at 100 100 0) 200
  = Ok (Robot.set_ammo (Robot.set_last_action (robot_at 60 100 0) "shoot") 49,
        Robot.set_health (robot_at 100 100 0) 80) /\
  Robot.health (Robot.set_ammo (Robot.set_last_action (robot_at 60 100 0) "shoot") 49)
  = Robot.health (robot_at 60 100 0) /\
  (Robot.health (Robot.set_health (robot_at 100 100 0) 80)
   = Robot.health (robot_at 100 100 0) \/
   (Robot.health (Robot.set_health (robot_at 100 100 0) 80)
    = Robot.health (robot_at 100 100 0) - 20 /\
    "shoot"%string = "shoot"%string /\ 0 < Robot.ammo (robot_at 60 100 0))).
Proof.
  assert (@Robot.execute_action approx_libm "shoot" (robot_at 60 100 0)
            (robot_at 100 100 0) 200
          = Ok (Robot.set_ammo (Robot.set_last_action (robot_at 60 100 0) "shoot") 49,
                Robot.set_health (robot_at 100 100 0) 80)) as H
      by (vm_compute; reflexivity).
  split; [exact H | ].
  destruct (damage_is_twenty approx_libm _ _ _ _ _ _ H)
    as (H1 & _ & _ & _ & _ & _ & _ & _ & H2).
  split; [exact H1 | exact H2].
Defined.

(** A robot inside the arena is still inside after any sequence of actions,
    whatever the actions are, and the opponent is where it was. *)
Theorem arena_confinement (L : Libm) (arena_size : float) :
  forall todo self opponent self' opponent',
    inside_arena arena_size self = true ->
    Robot.execute_actions todo self opponent arena_size = Ok (self', opponent') ->
    inside_arena arena_size self' = true /\
    Robot.x opponent' = Robot.x opponent /\ Robot.y opponent' = Robot.y opponent.
Proof.
  induction todo as [ | action rest IH]; intros self opponent self' opponent' Hin H.
  - injection H as <- <-. auto.
  - cbn [Robot.execute_actions] in H.
    apply rbind_ok in H as ([self1 opponent1] & Hfirst & Hrest).
    apply execute_action_effect in Hfirst
      as (_ & _ & _ & Hopp & Hpos & _).
    assert (inside_arena arena_size self1 = true) as Hin1.
    { destruct Hpos as [[Hx Hy] | [_ Hnew]]; [ | exact Hnew].
      unfold inside_arena in *. rewrite Hx, Hy. exact Hin. }
    destruct (IH self1 opponent1 self' opponent' Hin1 Hrest) as (Hin' & Hx & Hy).
    split; [exact Hin' | ].
    destruct Hopp as [-> | (_ & _ & ->)]; auto.
Qed.

Lemma arena_confinement_witness :
  inside_arena 200 (robot_at 198 100 0) = true /\
  @Robot.execute_actions approx_libm
    ["move_forward"; "reload"; "move_forward"]%string
    (robot_at 198 100 0) (robot_at 100 100 0) 200
  = Ok (Robot.set_last_action (robot_at 198 100 0) "move_forward",
        robot_at 100 100 0) /\
  inside_arena 200 (Robot.set_last_action (robot_at 198 100 0) "move_forward")
  = true.
Proof.
  assert (inside_arena 200 (robot_at 198 100 0) = true) as Hin
      by (vm_compute; reflexivity).
  assert (@Robot.execute_actions approx_libm
            ["move_forward"; "reload"; "move_forward"]%string
            (robot_at 198 100 0) (robot_at 100 100 0) 200
          = Ok (Robot.set_last_action (robot_at 198 100 0) "move_forward",
                robot_at 100 100 0)) as Hrun by (vm_compute; reflexivity).
  split; [exact Hin | ]. split; [exact Hrun | ].
  exact (proj1 (arena_confinement approx_libm 200 _ _ _ _ _ Hin Hrun)).
Defined.

Lemma distance_raises {L : Libm} (self opponent : Robot.t) (e : exn) :
  Robot.distance self opponent = Raise e -> e = OverflowError.
Proof.
  unfold Robot.distance.
  destruct (float_sq_cases (Robot.x opponent - Robot.x self))
    as [(dx2 & -> & Hx) | ->]; cbn [rbind]; [ | congruence].
  destruct (float_sq_cases (Robot.y opponent - Robot.y self))
    as [(dy2 & -> & Hy) | ->]; cbn [rbind]; [ | congruence].
  rewrite (sqrt_sum_squares dx2 dy2 Hx Hy). discriminate.
Qed.

Lemma angular_difference_defined {L : Libm} (self opponent : Robot.t) :
  exists diff, Robot.angular_difference self opponent = Ok diff.
Proof.
  unfold Robot.angular_difference.
  destruct (float_mod_two_pi
              (m_atan2 (Robot.y opponent - Robot.y self)
                       (Robot.x opponent - Robot.x self)
               - Robot.direction self)) as (m & ->).
  eexists; reflexivity.
Qed.

(** The only ways an action raises: 'move_forward' with an infinite
    heading (a domain error of the cosine or sine), and a 'shoot' with ammo
    whose angle test passes and whose squared coordinate difference
    overflows.  Turning, reloading, doing nothing and unknown actions always
    return. *)
Theorem execute_action_raises (L : Libm) :
  forall action self opponent arena_size e,
    Robot.execute_action action self opponent arena_size = Raise e ->
    (action = "move_forward"%string /\ e = ValueError /\
     is_infinity (Robot.direction self) = true) \/
    (action = "shoot"%string /\ 0 < Robot.ammo self /\ e = OverflowError /\
     exists diff,
       Robot.angular_difference self opponent = Ok diff /\
       (diff <? pi / 8)%float = true /\
       Robot.distance self opponent = Raise OverflowError).
Proof.
  intros action self opponent arena_size e.
  destruct (String.eqb_spec action "shoot") as [-> | Hshoot].
  { destruct (Z.ltb_spec 0 (Robot.ammo self)) as [Hpos | Hle].
    - rewrite (shoot_fired self opponent arena_size Hpos). cbv zeta.
      destruct (angular_difference_defined self opponent) as (diff & Hdiff).
      rewrite Hdiff. cbn [rbind].
      destruct (diff <? pi / 8)%float eqn:Hangle; cbn [rbind].
      + destruct (Robot.distance self opponent) as [dist | e'] eqn:Hdist;
          cbn [rbind]; [discriminate | ].
        intros H. injection H as ->.
        pose proof (distance_raises self opponent e Hdist) as ->.
        right. repeat split; auto. exists diff. auto.
      + discriminate.
    - unfold Robot.execute_action.
      cbn [String.eqb Ascii.eqb Bool.eqb andb Robot.ammo Robot.set_last_action].
      destruct (Z.ltb_spec 0 (Robot.ammo self)); [lia | discriminate]. }
  unfold Robot.execute_action.
  destruct (String.eqb_spec action "move_forward") as [-> | Hmove].
  { unfold Robot.math_cos, Robot.math_sin.
    cbn [Robot.direction Robot.set_last_action].
    destruct (is_infinity (Robot.direction self)) eqn:Hinf; cbn [rbind].
    - intros H. injection H as <-. left. auto.
    - destruct (_ && _); discriminate. }
  destruct (String.eqb_spec action "turn_left") as [-> | Hleft].
  { cbn [Robot.direction Robot.set_last_action].
    destruct (float_mod_two_pi (Robot.direction self - pi / 8)) as (d & ->).
    discriminate. }
  destruct (String.eqb_spec action "turn_right") as [-> | Hright].
  { cbn [Robot.direction Robot.set_last_action].
    destruct (float_mod_two_pi (Robot.direction self + pi / 8)) as (d & ->).
    discriminate. }
  destruct (String.eqb_spec action "shoot") as [-> | _]; [contradiction | ].
  cbn [andb].
  destruct (String.eqb_spec action "reload"); [discriminate | ].
  destruct (String.eqb_spec action "do_nothing"); discriminate.
Qed.

Lemma execute_action_raises_witness :
  @Robot.execute_action approx_libm "shoot" (robot_at 0 0 0)
    (robot_at 1e200 0 0) 200 = Raise OverflowError /\
  (("shoot"%string = "move_forward"%string /\ OverflowError = ValueError /\
    is_infinity (Robot.direction (robot_at 0 0 0)) = true) \/
   ("shoot"%string = "shoot"%string /\ 0 < Robot.ammo (robot_at 0 0 0) /\
    OverflowError = OverflowError /\
    exists diff,
      @Robot.angular_difference approx_libm (robot_at 0 0 0) (robot_at 1e200 0 0)
      = Ok diff /\
      (diff <? pi / 8)%float = true /\
      @Robot.distance approx_libm (robot_at 0 0 0) (robot_at 1e200 0 0)
      = Raise OverflowError)).
Proof.
  assert (@Robot.execute_action approx_libm "shoot" (robot_at 0 0 0)
            (robot_at 1e200 0 0) 200 = Raise OverflowError) as H
      by (vm_compute; reflexivity).
  split; [exact H | ].
  exact (execute_action_raises approx_libm _ _ _ _ _ H).
Defined.

(** ** The order of floats *)

Lemma lex_compare_lt_trans (e1 e2 e3 : Z) (m1 m2 m3 : positive) :
  match e1 ?= e2 with Lt => Lt | Gt => Gt | Eq => Pos.compare_cont Eq m1 m2 end = Lt ->
  match e2 ?= e3 with Lt => Lt | Gt => Gt | Eq => Pos.compare_cont Eq m2 m3 end = Lt ->
  match e1 ?= e3 with Lt => Lt | Gt => Gt | Eq => Pos.compare_cont Eq m1 m3 end = Lt.
Proof.
  change (Pos.compare_cont Eq m1 m2) with (Pos.compare m1 m2).
  change (Pos.compare_cont Eq m2 m3) with (Pos.compare m2 m3).
  change (Pos.compare_cont Eq m1 m3) with (Pos.compare m1 m3).
  destruct (Z.compare_spec e1 e2), (Z.compare_spec e2 e3), (Z.compare_spec e1 e3);
    destruct (Pos.compare_spec m1 m2), (Pos.compare_spec m2 m3),
             (Pos.compare_spec m1 m3);
    intros; try discriminate; try reflexivity; lia.
Qed.

Lemma lex_compare_gt_trans (e1 e2 e3 : Z) (m1 m2 m3 : positive) :
  match e1 ?= e2 with Lt => Gt | Gt => Lt
                 | Eq => CompOpp (Pos.compare_cont Eq m1 m2) end = Lt ->
  match e2 ?= e3 with Lt => Gt | Gt => Lt
                 | Eq => CompOpp (Pos.compare_cont Eq m2 m3) end = Lt ->
  match e1 ?= e3 with Lt => Gt | Gt => Lt
                 | Eq => CompOpp (Pos.compare_cont Eq m1 m3) end = Lt.
Proof.
  change (Pos.compare_cont Eq m1 m2) with (Pos.compare m1 m2).
  change (Pos.compare_cont Eq m2 m3) with (Pos.compare m2 m3).
  change (Pos.compare_cont Eq m1 m3) with (Pos.compare m1 m3).
  destruct (Z.compare_spec e1 e2), (Z.compare_spec e2 e3), (Z.compare_spec e1 e3);
    destruct (Pos.compare_spec m1 m2), (Pos.compare_spec m2 m3),
             (Pos.compare_spec m1 m3);
    simpl; intros; try discriminate; try reflexivity; lia.
Qed.

Lemma float_lt_trans (a b c : float) :
  (a <? b)%float = true -> (b <? c)%float = true -> (a <? c)%float = true.
Proof.
  rewrite !ltb_spec. unfold SFltb.
  destruct (Prim2SF a) as [sa | sa | | sa ma ea];
    destruct (Prim2SF b) as [sb | sb | | sb mb eb];
    destruct (Prim2SF c) as [sc | sc | | sc mc ec];
    simpl; try discriminate;
    try (destruct sa; try discriminate);
    try (destruct sb; try discriminate);
    try (destruct sc; try discriminate);
    try reflexivity.
  - intros H1 H2.
    assert (match ea ?= eb with Lt => Gt | Gt => Lt
                           | Eq => CompOpp (Pos.compare_cont Eq ma mb) end = Lt) as H1'
        by (destruct (match ea ?= eb with Lt => Gt | Gt => Lt
                                     | Eq => CompOpp (Pos.compare_cont Eq ma mb) end);
            [discriminate | reflexivity | discriminate]).
    assert (match eb ?= ec with Lt => Gt | Gt => Lt
                           | Eq => CompOpp (Pos.compare_cont Eq mb mc) end = Lt) as H2'
        by (destruct (match eb ?= ec with Lt => Gt | Gt => Lt
                                     | Eq => CompOpp (Pos.compare_cont Eq mb mc) end);
            [discriminate | reflexivity | discriminate]).
    rewrite (lex_compare_gt_trans ea eb ec ma mb mc H1' H2'). reflexivity.
  - intros H1 H2.
    assert (match ea ?= eb with Lt => Lt | Gt => Gt
                           | Eq => Pos.compare_cont Eq ma mb end = Lt) as H1'
        by (destruct (match ea ?= eb with Lt => Lt | Gt => Gt
                                     | Eq => Pos.compare_cont Eq ma mb end);
            [discriminate | reflexivity | discriminate]).
    assert (match eb ?= ec with Lt => Lt | Gt => Gt
                           | Eq => Pos.compare_cont Eq mb mc end = Lt) as H2'
        by (destruct (match eb ?= ec with Lt => Lt | Gt => Gt
                                     | Eq => Pos.compare_cont Eq mb mc end);
            [discriminate | reflexivity | discriminate]).
    rewrite (lex_compare_lt_trans ea eb ec ma mb mc H1' H2'). reflexivity.
Qed.

Lemma float_lt_irrefl (a : float) : (a <? a)%float = false.
Proof.
  rewrite ltb_spec. unfold SFltb.
  destruct (Prim2SF a) as [s | s | | s m e]; simpl;
    try (destruct s; reflexivity); try reflexivity.
  rewrite Z.compare_refl.
  change (Pos.compare_cont Eq m m) with (Pos.compare m m).
  rewrite Pos.compare_refl. destruct s; reflexivity.
Qed.

Lemma float_lt_asym (a b : float) :
  (a <? b)%float = true -> (b <? a)%float = false.
Proof.
  intros H. destruct (b <? a)%float eqn:E; [ | reflexivity].
  rewrite <- (float_lt_irrefl a). symmetry. exact (float_lt_trans a b a H E).
Qed.

(** ** Sensors *)

(** The builtin [min]: the result is an item, and no item is strictly below
    it. *)
Lemma float_min_least (rest : list float) :
  forall first : float,
    (float_min first rest = first \/
     ((float_min first rest <? first)%float = true /\
      In (float_min first rest) rest)) /\
    forall item, In item (first :: rest) ->
                 (item <? float_min first rest)%float = false.
Proof.
  unfold float_min.
  induction rest as [ | it rest IH]; intros first; cbn [fold_left].
  - split; [left; reflexivity | ].
    intros item [<- | []]. apply float_lt_irrefl.
  - destruct (it <? first)%float eqn:Hlt.
    + destruct (IH it) as [Hres Hleast].
      set (r := fold_left _ rest it) in *. split.
      * right. destruct Hres as [-> | [Hbelow Hin]].
        -- split; [exact Hlt | left; reflexivity].
        -- split; [exact (float_lt_trans _ _ _ Hbelow Hlt) | right; exact Hin].
      * intros item [<- | Hin]; [ | exact (Hleast item Hin)].
        destruct (first <? r)%float eqn:E; [ | reflexivity].
        rewrite <- (Hleast it (or_introl eq_refl)). symmetry.
        exact (float_lt_trans _ _ _ Hlt E).
    + destruct (IH first) as [Hres Hleast].
      set (r := fold_left _ rest first) in *. split.
      * destruct Hres as [-> | [Hbelow Hin]]; [left; reflexivity | ].
        right. split; [exact Hbelow | right; exact Hin].
      * intros item [<- | [<- | Hin]].
        -- exact (Hleast _ (or_introl eq_refl)).
        -- destruct Hres as [Heq | [Hbelow _]].
           ++ rewrite Heq. exact Hlt.
           ++ destruct (it <? r)%float eqn:E; [ | reflexivity].
              rewrite <- Hlt. symmetry. exact (float_lt_trans _ _ _ E Hbelow).
        -- exact (Hleast item (or_intror Hin)).
Qed.

(** [update_sensors] changes nothing but the sensors.  The health and ammo
    readings are the robot's current health and ammo, the enemy distance is
    the distance to the opponent, and the wall distance is one of the four
    distances to the sides, none of the four being strictly smaller.  The
    call raises only when squaring a coordinate difference overflows. *)
Theorem update_sensors_readings (L : Libm) (self opponent : Robot.t)
        (arena_size : float) :
  (forall r,
     Robot.update_sensors self opponent arena_size = Ok r ->
     Robot.x r = Robot.x self /\ Robot.y r = Robot.y self /\
     Robot.health r = Robot.health self /\ Robot.ammo r = Robot.ammo self /\
     Robot.direction r = Robot.direction self /\
     Robot.last_action r = Robot.last_action self /\
     Sensors.health (Robot.sensors r) = PyInt (Robot.health self) /\
     Sensors.ammo (Robot.sensors r) = PyInt (Robot.ammo self) /\
     (exists d, Robot.distance self opponent = Ok d /\
                Sensors.enemy_distance (Robot.sensors r) = PyFloat d) /\
     (exists w, Sensors.wall_distance (Robot.sensors r) = PyFloat w /\
                In w [Robot.x self; (arena_size - Robot.x self)%float;
                      Robot.y self; (arena_size - Robot.y self)%float] /\
                forall side,
                  In side [Robot.x self; (arena_size - Robot.x self)%float;
                           Robot.y self; (arena_size - Robot.y self)%float] ->
                  (side <? w)%float = false)) /\
  (forall e,
     Robot.update_sensors self opponent arena_size = Raise e ->
     e = OverflowError /\ Robot.distance self opponent = Raise OverflowError) /\
  (forall d, Robot.distance self opponent = Ok d ->
             exists r, Robot.update_sensors self opponent arena_size = Ok r).
Proof.
  split; [ | split ].
  - intros r H. destruct (update_sensors_distance self opponent r arena_size H)
      as (d & Hd & Hsd).
    unfold Robot.update_sensors in H.
    apply rbind_ok in H as (dx2 & _ & H).
    apply rbind_ok in H as (dy2 & _ & H).
    apply rbind_ok in H as (dist & _ & H).
    apply rbind_ok in H as (rel & _ & H).
    injection H as <-.
    cbn [Robot.x Robot.y Robot.health Robot.ammo Robot.direction
         Robot.last_action Robot.sensors Robot.set_sensors Sensors.health
         Sensors.ammo Sensors.wall_distance Sensors.enemy_distance] in *.
    repeat (split; [reflexivity | ]).
    split; [exists d; split; [exact Hd | exact Hsd] | ].
    destruct (float_min_least
                [(arena_size - Robot.x self)%float; Robot.y self;
                 (arena_size - Robot.y self)%float] (Robot.x self))
      as [Hres Hleast].
    exists (float_min (Robot.x self)
              [(arena_size - Robot.x self)%float; Robot.y self;
               (arena_size - Robot.y self)%float]).
    split; [reflexivity | ]. split; [ | exact Hleast].
    destruct Hres as [Heq | [_ Hin]]; [left; symmetry; exact Heq | right; exact Hin].
  - intros e H. unfold Robot.update_sensors, Robot.distance in *.
    destruct (float_sq_cases (Robot.x opponent - Robot.x self))
      as [(dx2 & Hx & Hsx) | Hx];
      rewrite Hx in *; cbn [rbind] in *;
      [ | injection H as <-; split; reflexivity].
    destruct (float_sq_cases (Robot.y opponent - Robot.y self))
      as [(dy2 & Hy & Hsy) | Hy];
      rewrite Hy in *; cbn [rbind] in *;
      [ | injection H as <-; split; reflexivity].
    rewrite (sqrt_sum_squares dx2 dy2 Hsx Hsy) in H. cbn [rbind] in H.
    destruct (float_mod_two_pi
                (m_atan2 (Robot.y opponent - Robot.y self)
                         (Robot.x opponent - Robot.x self)
                 - Robot.direction self)) as (m & Hm).
    rewrite Hm in H. discriminate H.
  - intros d Hd. unfold Robot.update_sensors, Robot.distance in *.
    apply rbind_ok in Hd as (dx2 & -> & Hd).
    apply rbind_ok in Hd as (dy2 & -> & Hd).
    cbn [rbind]. rewrite Hd. cbn [rbind].
    destruct (float_mod_two_pi
                (m_atan2 (Robot.y opponent - Robot.y self)
                         (Robot.x opponent - Robot.x self)
                 - Robot.direction self)) as (m & ->).
    eexists; reflexivity.
Qed.

(** ** Invariants of a battle *)

Lemma update_sensors_frame {L : Libm} (self opponent r : Robot.t)
      (arena_size : float) :
  Robot.update_sensors self opponent arena_size = Ok r ->
  Robot.x r = Robot.x self /\ Robot.y r = Robot.y self /\
  Robot.health r = Robot.health self /\ Robot.ammo r = Robot.ammo self.
Proof.
  unfold Robot.update_sensors. intros H.
  apply rbind_ok in H as (dx2 & _ & H).
  apply rbind_ok in H as (dy2 & _ & H).
  apply rbind_ok in H as (dist & _ & H).
  apply rbind_ok in H as (rel & _ & H).
  injection H as <-. repeat split.
Qed.

Lemma inside_arena_position (arena_size : float) (r r' : Robot.t) :
  Robot.x r' = Robot.x r -> Robot.y r' = Robot.y r ->
  inside_arena arena_size r' = inside_arena arena_size r.
Proof.
  unfold inside_arena. intros -> ->. reflexivity.
Qed.

(** One tick: each robot keeps its health or loses 20, keeps an ammo of
    0..50 in 0..50, and stays inside the arena if it was inside. *)
Lemma tick_effect {L : Libm} (func1 func2 : program) (arena_size : float)
      (robot1 robot2 robot1' robot2' : Robot.t) :
  tick func1 func2 arena_size (robot1, robot2) = Ok (robot1', robot2') ->
  (Robot.health robot1' = Robot.health robot1 \/
   Robot.health robot1' = Robot.health robot1 - 20) /\
  (Robot.health robot2' = Robot.health robot2 \/
   Robot.health robot2' = Robot.health robot2 - 20) /\
  (0 <= Robot.ammo robot1 <= 50 -> 0 <= Robot.ammo robot1' <= 50) /\
  (0 <= Robot.ammo robot2 <= 50 -> 0 <= Robot.ammo robot2' <= 50) /\
  (inside_arena arena_size robot1 = true ->
   inside_arena arena_size robot1' = true) /\
  (inside_arena arena_size robot2 = true ->
   inside_arena arena_size robot2' = true).
Proof.
  unfold tick. intros H.
  apply rbind_ok in H as (u1 & Hu1 & H).
  apply rbind_ok in H as (u2 & Hu2 & H).
  apply rbind_ok in H as (output1 & _ & H).
  apply rbind_ok in H as (output2 & _ & H).
  apply rbind_ok in H as (action1 & _ & H).
  apply rbind_ok in H as (action2 & _ & H).
  apply rbind_ok in H as ([a1 b1] & Hact1 & H).
  apply rbind_ok in H as ([b2 a2] & Hact2 & H).
  injection H as <- <-.
  apply update_sensors_frame in Hu1 as (Hx1 & Hy1 & Hh1 & Ham1).
  apply update_sensors_frame in Hu2 as (Hx2 & Hy2 & Hh2 & Ham2).
  pose proof (execute_action_ammo _ _ _ _ _ _ Hact1) as (Hoa1 & Hsa1).
  pose proof (execute_action_ammo _ _ _ _ _ _ Hact2) as (Hoa2 & Hsa2).
  apply execute_action_effect in Hact1 as (_ & Hsh1 & _ & Hopp1 & Hpos1 & _).
  apply execute_action_effect in Hact2 as (_ & Hsh2 & _ & Hopp2 & Hpos2 & _).
  assert (Robot.x b1 = Robot.x u2 /\ Robot.y b1 = Robot.y u2 /\
          (Robot.health b1 = Robot.health u2 \/
           Robot.health b1 = Robot.health u2 - 20)) as (Hbx & Hby & Hbh).
  { destruct Hopp1 as [-> | (_ & _ & ->)]; cbn; auto. }
  assert (Robot.x a2 = Robot.x a1 /\ Robot.y a2 = Robot.y a1 /\
          (Robot.health a2 = Robot.health a1 \/
           Robot.health a2 = Robot.health a1 - 20)) as (Hax & Hay & Hah).
  { destruct Hopp2 as [-> | (_ & _ & ->)]; cbn; auto. }
  split; [ | split; [ | split; [ | split; [ | split ] ] ] ].
  - rewrite <- Hh1, <- Hsh1. exact Hah.
  - rewrite Hsh2, <- Hh2. exact Hbh.
  - intros Hrange. rewrite Hoa2. rewrite <- Ham1 in Hrange.
    destruct Hsa1 as [(_ & ? & ->) | [(_ & ->) | (_ & _ & ->)]]; lia.
  - intros Hrange. rewrite <- Ham2, <- Hoa1 in Hrange.
    destruct Hsa2 as [(_ & ? & ->) | [(_ & ->) | (_ & _ & ->)]]; lia.
  - intros Hin.
    rewrite (inside_arena_position arena_size a1 a2 Hax Hay).
    destruct Hpos1 as [[Hx Hy] | [_ Hnew]]; [ | exact Hnew].
    rewrite (inside_arena_position arena_size u1 a1 Hx Hy).
    rewrite (inside_arena_position arena_size robot1 u1 Hx1 Hy1). exact Hin.
  - intros Hin.
    destruct Hpos2 as [[Hx Hy] | [_ Hnew]]; [ | exact Hnew].
    rewrite (inside_arena_position arena_size b1 b2 Hx Hy).
    rewrite (inside_arena_position arena_size u2 b1 Hbx Hby).
    rewrite (inside_arena_position arena_size robot2 u2 Hx2 Hy2). exact Hin.
Qed.

(** In a battle between two living robots whose health is a multiple of 20,
    health only goes down, in steps of 20, and never below 0: a robot dies
    with health exactly 0. *)
Lemma battle_health_levels {L : Libm} (func1 func2 : program)
      (arena_size : float) :
  forall (max_steps : nat) (robot1 robot2 robot1' robot2' : Robot.t),
    0 < Robot.health robot1 -> 0 < Robot.health robot2 ->
    Robot.health robot1 mod 20 = 0 -> Robot.health robot2 mod 20 = 0 ->
    battle max_steps func1 func2 arena_size (robot1, robot2)
    = Ok (robot1', robot2') ->
    0 <= Robot.health robot1' <= Robot.health robot1 /\
    Robot.health robot1' mod 20 = 0 /\
    0 <= Robot.health robot2' <= Robot.health robot2 /\
    Robot.health robot2' mod 20 = 0.
Proof.
  induction max_steps as [ | n IH];
    intros robot1 robot2 robot1' robot2' Hp1 Hp2 Hm1 Hm2 H.
  - injection H as <- <-. repeat split; try assumption; lia.
  - cbn [battle] in H. apply rbind_ok in H as ([next1 next2] & Htick & H).
    apply tick_effect in Htick as (Hh1 & Hh2 & _).
    assert (0 <= Robot.health next1 <= Robot.health robot1 /\
            Robot.health next1 mod 20 = 0) as (Hr1 & Hn1).
    { destruct Hh1 as [-> | ->]; [split; [lia | exact Hm1] | ].
      split; Z.div_mod_to_equations; lia. }
    assert (0 <= Robot.health next2 <= Robot.health robot2 /\
            Robot.health next2 mod 20 = 0) as (Hr2 & Hn2).
    { destruct Hh2 as [-> | ->]; [split; [lia | exact Hm2] | ].
      split; Z.div_mod_to_equations; lia. }
    destruct (battle_over (next1, next2)) eqn:Hover.
    + injection H as <- <-. repeat split; try assumption; lia.
    + unfold battle_over in Hover. cbn [fst snd] in Hover.
      apply orb_false_iff in Hover as [Ha1 Ha2].
      apply Z.leb_gt in Ha1, Ha2.
      destruct (IH next1 next2 robot1' robot2' Ha1 Ha2 Hn1 Hn2 H)
        as (Hf1 & Hg1 & Hf2 & Hg2).
      repeat split; try assumption; lia.
Qed.

(** Through a battle each robot's ammo stays in 0..50, and a robot that
    starts inside the arena ends inside it. *)
Theorem battle_keeps_ammo_and_arena (L : Libm) (func1 func2 : program)
        (arena_size : float) :
  forall (max_steps : nat) (robot1 robot2 robot1' robot2' : Robot.t),
    battle max_steps func1 func2 arena_size (robot1, robot2)
    = Ok (robot1', robot2') ->
    (0 <= Robot.ammo robot1 <= 50 -> 0 <= Robot.ammo robot1' <= 50) /\
    (0 <= Robot.ammo robot2 <= 50 -> 0 <= Robot.ammo robot2' <= 50) /\
    (inside_arena arena_size robot1 = true ->
     inside_arena arena_size robot1' = true) /\
    (inside_arena arena_size robot2 = true ->
     inside_arena arena_size robot2' = true).
Proof.
  induction max_steps as [ | n IH]; intros robot1 robot2 robot1' robot2' H.
  - injection H as <- <-.
    split; [ | split; [ | split ] ]; intros Hstart; exact Hstart.
  - cbn [battle] in H. apply rbind_ok in H as ([next1 next2] & Htick & H).
    apply tick_effect in Htick as (_ & _ & Ha1 & Ha2 & Hi1 & Hi2).
    destruct (battle_over (next1, next2)).
    + injection H as <- <-.
      split; [exact Ha1 | split; [exact Ha2 | split; [exact Hi1 | exact Hi2] ] ].
    + destruct (IH next1 next2 robot1' robot2' H) as (Hb1 & Hb2 & Hj1 & Hj2).
      split; [ | split; [ | split ] ]; intros Hstart.
      * exact (Hb1 (Ha1 Hstart)).
      * exact (Hb2 (Ha2 Hstart)).
      * exact (Hj1 (Hi1 Hstart)).
      * exact (Hj2 (Hi2 Hstart)).
Qed.

Lemma battle_keeps_ammo_and_arena_witness :
  exists robot1' robot2',
    @battle approx_libm 100 (@compile approx_libm shooter)
      (@compile approx_libm idler) 200
      (robot_at 60 100 0, robot_at 100 100 0) = Ok (robot1', robot2') /\
    0 <= Robot.ammo robot1' <= 50 /\ 0 <= Robot.ammo robot2' <= 50 /\
    inside_arena 200 robot1' = true /\ inside_arena 200 robot2' = true.
Proof.
  destruct (@battle approx_libm 100 (@compile approx_libm shooter)
      (@compile approx_libm idler) 200
              (robot_at 60 100 0, robot_at 100 100 0))
    as [[robot1' robot2'] | e] eqn:E.
  - exists robot1', robot2'. split; [reflexivity | ].
    destruct (battle_keeps_ammo_and_arena approx_libm _ _ _ _ _ _ _ _ E)
      as (Ha1 & Ha2 & Hi1 & Hi2).
    split; [apply Ha1; cbn; lia | ]. split; [apply Ha2; cbn; lia | ].
    split; [apply Hi1 | apply Hi2]; vm_compute; reflexivity.
  - vm_compute in E. discriminate E.
Defined.

(** At the end of a match each robot's health is one of 0, 20, 40, 60, 80
    and 100: robots start at 100, a hit takes 20, and the battle stops at
    the first tick after which a robot has no health left, so that no robot
    ends below 0. *)
Theorem match_final_health (L : Libm) (G : RandomGen) (toolbox : Toolbox)
        (arena_size : float) (max_steps : Z) (t1 t2 : Node) (g g' : rng)
        (robot1 robot2 : Robot.t) :
  match_result toolbox arena_size max_steps t1 t2 g = Ok ((robot1, robot2), g') ->
  In (Robot.health robot1) [0; 20; 40; 60; 80; 100] /\
  In (Robot.health robot2) [0; 20; 40; 60; 80; 100].
Proof.
  unfold match_result. intros H.
  apply mbind_ok in H as ([start1 start2] & g1 & Hplace & H).
  apply lift_ok in H as [Hbattle _].
  destruct (place_robots_ok arena_size g)
    as (p1 & p2 & g2 & Hplace' & Hh1 & Hh2).
  rewrite Hplace in Hplace'. injection Hplace' as -> -> _.
  assert (0 < Robot.health p1) as Hp1 by lia.
  assert (0 < Robot.health p2) as Hp2 by lia.
  assert (Robot.health p1 mod 20 = 0) as Hd1 by (rewrite Hh1; reflexivity).
  assert (Robot.health p2 mod 20 = 0) as Hd2 by (rewrite Hh2; reflexivity).
  destruct (battle_health_levels _ _ _ _ _ _ _ _ Hp1 Hp2 Hd1 Hd2 Hbattle)
    as (Hr1 & Hm1 & Hr2 & Hm2).
  assert (forall h, 0 <= h <= 100 -> h mod 20 = 0 ->
                    In h [0; 20; 40; 60; 80; 100]) as Hlevels.
  { intros h Hh Hm. cbn.
    assert (h = 0 \/ h = 20 \/ h = 40 \/ h = 60 \/ h = 80 \/ h = 100)
      by (Z.div_mod_to_equations; lia).
    intuition auto. }
  split; apply Hlevels; try assumption; lia.
Qed.

Lemma match_final_health_witness :
  exists robot1 robot2,
    @match_result approx_libm tape_gen core_toolbox 200 100 shooter idler
      (duel_draws, []) = Ok ((robot1, robot2), ([], [])) /\
    In (Robot.health robot1) [0; 20; 40; 60; 80; 100] /\
    In (Robot.health robot2) [0; 20; 40; 60; 80; 100].
Proof.
  destruct (@match_result approx_libm tape_gen core_toolbox 200 100 shooter
              idler (duel_draws, [])) as [[[robot1 robot2] g'] | e] eqn:E.
  - assert (g' = ([], [])) as -> by (vm_compute in E; congruence).
    exists robot1, robot2. split; [reflexivity | ].
    exact (match_final_health approx_libm tape_gen core_toolbox 200 100
             shooter idler _ _ _ _ E).
  - vm_compute in E. discriminate E.
Defined.

(** ** Scores after a round robin *)

Lemma evaluate_rows {L : Libm} {G : RandomGen} (toolbox : Toolbox)
      (arena_size : float) (max_steps : Z) (pop1 pop2 : list Individual)
      (g : rng) :
  evaluate_individuals toolbox pop1 pop2 arena_size max_steps g =
  match round_robin toolbox arena_size max_steps (map tree pop1)
          (map tree pop2) g with
  | Ok (rows, g') =>
      Ok ((credit_rows rows (init_fitness pop1),
           credit_columns rows (init_fitness pop2)), g')
  | Raise e => Raise e
  end.
Proof.
  unfold evaluate_individuals.
  destruct (init_fitness_valid pop1) as [Hv1 Ht1].
  destruct (init_fitness_valid pop2) as [Hv2 Ht2].
  rewrite (compete_rows toolbox arena_size max_steps _ _ g Hv1 Hv2).
  rewrite Ht1, Ht2. reflexivity.
Qed.

Lemma row_outcomes_length {L : Libm} {G : RandomGen} (toolbox : Toolbox)
      (arena_size : float) (max_steps : Z) (t1 : Node) (trees2 : list Node) :
  forall g row g',
    row_outcomes toolbox arena_size max_steps t1 trees2 g = Ok (row, g') ->
    List.length row = List.length trees2.
Proof.
  induction trees2 as [ | t2 rest IH]; intros g row g' H.
  - injection H as <- _. reflexivity.
  - cbn [row_outcomes] in H.
    apply mbind_ok in H as (robots & g1 & _ & H).
    apply mbind_ok in H as (os & g2 & Hos & H).
    injection H as <- _. cbn. f_equal. exact (IH _ _ _ Hos).
Qed.

Lemma round_robin_shape {L : Libm} {G : RandomGen} (toolbox : Toolbox)
      (arena_size : float) (max_steps : Z) (trees1 trees2 : list Node) :
  forall g rows g',
    round_robin toolbox arena_size max_steps trees1 trees2 g = Ok (rows, g') ->
    List.length rows = List.length trees1 /\
    Forall (fun row => List.length row = List.length trees2) rows.
Proof.
  induction trees1 as [ | t1 rest IH]; intros g rows g' H.
  - injection H as <- _. split; [reflexivity | constructor].
  - cbn [round_robin] in H.
    apply mbind_ok in H as (row & g1 & Hrow & H).
    apply mbind_ok in H as (rows' & g2 & Hrows & H).
    injection H as <- _.
    destruct (IH _ _ _ Hrows) as [Hlen Hall]. split.
    + cbn. f_equal. exact Hlen.
    + constructor; [exact (row_outcomes_length _ _ _ _ _ _ _ _ Hrow) | exact Hall].
Qed.

Lemma credit_rows_length (rows : list (list outcome)) :
  forall pop1, List.length (credit_rows rows pop1) = List.length pop1.
Proof.
  induction rows as [ | row rows IH]; intros [ | ind rest]; cbn; auto.
Qed.

Lemma credit_row_length (row : list outcome) :
  forall pop2, List.length (credit_row row pop2) = List.length pop2.
Proof.
  induction row as [ | o row IH]; intros [ | ind rest]; cbn; auto.
Qed.

Lemma credit_columns_length (rows : list (list outcome)) :
  forall pop2, List.length (credit_columns rows pop2) = List.length pop2.
Proof.
  unfold credit_columns.
  induction rows as [ | row rows IH]; intros pop2; cbn; [reflexivity | ].
  rewrite IH. apply credit_row_length.
Qed.

Lemma init_fitness_length (pop : list Individual) :
  List.length (init_fitness pop) = List.length pop.
Proof.
  unfold init_fitness. apply length_map.
Qed.

Lemma wins1_bound (rows : list (list outcome)) (n : nat) (i : nat) :
  Forall (fun row => List.length row = n) rows ->
  0 <= wins1 rows i <= Z.of_nat n.
Proof.
  intros Hall. unfold wins1.
  pose proof (filter_length_le is_win1 (nth i rows [])) as Hle.
  assert (List.length (nth i rows []) <= n)%nat as Hn.
  { destruct (nth_in_or_default i rows []) as [Hin | ->]; [ | cbn; lia].
    rewrite Forall_forall in Hall. rewrite (Hall _ Hin). lia. }
  lia.
Qed.

Lemma wins2_bound (rows : list (list outcome)) (j : nat) :
  0 <= wins2 rows j <= Z.of_nat (List.length rows).
Proof.
  unfold wins2.
  pose proof (filter_length_le (fun row => is_win2 (nth j row NoChange)) rows).
  lia.
Qed.

(** After [evaluate_individuals] both populations have their size and their
    trees, every individual has a valid fitness, and its score lies between
    the score it entered with and that score plus the number of its
    opponents. *)
Theorem evaluation_validates_and_bounds (L : Libm) (G : RandomGen)
        (toolbox : Toolbox) (arena_size : float) (max_steps : Z)
        (pop1 pop2 pop1' pop2' : list Individual) (g g' : rng) :
  evaluate_individuals toolbox pop1 pop2 arena_size max_steps g
  = Ok ((pop1', pop2'), g') ->
  List.length pop1' = List.length pop1 /\
  List.length pop2' = List.length pop2 /\
  (forall i ind', nth_error pop1' i = Some ind' ->
     exists ind s,
       nth_error pop1 i = Some ind /\ tree ind' = tree ind /\
       fitness ind' = Some s /\
       entry_score ind <= s <= entry_score ind + Z.of_nat (List.length pop2)) /\
  (forall j ind', nth_error pop2' j = Some ind' ->
     exists ind s,
       nth_error pop2 j = Some ind /\ tree ind' = tree ind /\
       fitness ind' = Some s /\
       entry_score ind <= s <= entry_score ind + Z.of_nat (List.length pop1)).
Proof.
  rewrite evaluate_rows.
  destruct (round_robin _ _ _ _ _ g) as [[rows g1] | e] eqn:Hrr;
    [ | discriminate].
  intros H. injection H as <- <- <-.
  destruct (round_robin_shape _ _ _ _ _ _ _ _ Hrr) as [Hlen Hall].
  rewrite !length_map in *.
  assert (List.length (credit_rows rows (init_fitness pop1)) = List.length pop1)
    as Hl1 by (rewrite credit_rows_length; apply init_fitness_length).
  assert (List.length (credit_columns rows (init_fitness pop2)) = List.length pop2)
    as Hl2 by (rewrite credit_columns_length; apply init_fitness_length).
  destruct (init_fitness_valid pop1) as [Hv1 _].
  split; [exact Hl1 | ]. split; [exact Hl2 | ]. split.
  - intros i ind' Hi.
    assert (i < List.length pop1)%nat as Hlt
        by (rewrite <- Hl1; apply nth_error_Some; congruence).
    destruct (nth_error pop1 i) as [ind | ] eqn:Hn;
      [ | apply nth_error_None in Hn; lia].
    destruct (init_fitness_nth pop1 i ind Hn) as (ind0 & Hn0 & _ & Hadd).
    rewrite (credit_rows_nth rows _ i ind0 Hv1 Hn0), Hadd in Hi.
    injection Hi as <-.
    exists ind, (entry_score ind + wins1 rows i).
    split; [reflexivity | ]. split; [reflexivity | ]. split; [reflexivity | ].
    pose proof (wins1_bound rows (List.length pop2) i Hall). lia.
  - intros j ind' Hj.
    assert (j < List.length pop2)%nat as Hlt
        by (rewrite <- Hl2; apply nth_error_Some; congruence).
    destruct (nth_error pop2 j) as [ind | ] eqn:Hn;
      [ | apply nth_error_None in Hn; lia].
    destruct (init_fitness_nth pop2 j ind Hn) as (ind0 & Hn0 & Hv0 & Hadd).
    rewrite (credit_columns_nth rows _ j ind0 Hv0 Hn0), Hadd in Hj.
    injection Hj as <-.
    exists ind, (entry_score ind + wins2 rows j).
    split; [reflexivity | ]. split; [reflexivity | ]. split; [reflexivity | ].
    pose proof (wins2_bound rows j). lia.
Qed.

Lemma evaluation_validates_and_bounds_witness :
  @evaluate_individuals approx_libm tape_gen core_toolbox
    [mkIndividual shooter (Some 1)] [mkIndividual idler None] 200 100
    (duel_draws, [])
  = Ok (([mkIndividual shooter (Some 2)], [mkIndividual idler (Some 0)]),
        ([], [])) /\
  List.length [mkIndividual shooter (Some 2)]
  = List.length [mkIndividual shooter (Some 1)] /\
  List.length [mkIndividual idler (Some 0)]
  = List.length [mkIndividual idler None].
Proof.
  assert (@evaluate_individuals approx_libm tape_gen core_toolbox
            [mkIndividual shooter (Some 1)] [mkIndividual idler None] 200 100
            (duel_draws, [])
          = Ok (([mkIndividual shooter (Some 2)], [mkIndividual idler (Some 0)]),
                ([], []))) as H by (vm_compute; reflexivity).
  split; [exact H | ].
  destruct (evaluation_validates_and_bounds approx_libm tape_gen core_toolbox
              200 100 _ _ _ _ _ _ H) as (H1 & H2 & _).
  split; [exact H1 | exact H2].
Defined.

Lemma total_score_init (pop : list Individual) :
  total_score (init_fitness pop) = total_score pop.
Proof.
  unfold init_fitness, total_score.
  induction pop as [ | ind rest IH]; cbn [map fold_right]; [reflexivity | ].
  rewrite IH. f_equal. unfold valid, entry_score.
  destruct (fitness ind) eqn:E; cbn; rewrite ?E; reflexivity.
Qed.

Lemma total_score_credit_row (row : list outcome) :
  forall pop2,
    List.length row = List.length pop2 ->
    total_score (credit_row row pop2)
    = total_score pop2 + Z.of_nat (List.length (filter is_win2 row)).
Proof.
  induction row as [ | o row IH]; intros [ | ind rest] Hlen;
    try discriminate Hlen; cbn [credit_row total_score fold_right filter].
  - cbn. lia.
  - injection Hlen as Hlen. specialize (IH rest Hlen).
    unfold total_score in IH. rewrite IH.
    destruct (is_win2 o); cbn [List.length entry_score add_score fitness]; lia.
Qed.

Lemma total_score_credit_columns (rows : list (list outcome)) :
  forall pop2,
    Forall (fun row => List.length row = List.length pop2) rows ->
    total_score (credit_columns rows pop2)
    = total_score pop2
      + fold_right (fun row acc => Z.of_nat (List.length (filter is_win2 row)) + acc)
          0 rows.
Proof.
  unfold credit_columns.
  induction rows as [ | row rows IH]; intros pop2 Hall; cbn [fold_left fold_right].
  - lia.
  - inversion Hall as [ | ? ? Hrow Hrest]; subst.
    rewrite IH.
    + rewrite (total_score_credit_row row pop2 Hrow). lia.
    + rewrite credit_row_length. exact Hrest.
Qed.

Lemma total_score_credit_rows (rows : list (list outcome)) :
  forall pop1,
    List.length rows = List.length pop1 ->
    total_score (credit_rows rows pop1)
    = total_score pop1
      + fold_right (fun row acc => Z.of_nat (List.length (filter is_win1 row)) + acc)
          0 rows.
Proof.
  induction rows as [ | row rows IH]; intros [ | ind rest] Hlen;
    try discriminate Hlen; cbn [credit_rows total_score fold_right].
  - lia.
  - injection Hlen as Hlen. specialize (IH rest Hlen).
    unfold total_score in IH. rewrite IH.
    cbn [entry_score add_score fitness]. lia.
Qed.

Lemma wins_exclusive (row : list outcome) :
  (List.length (filter is_win1 row) + List.length (filter is_win2 row)
   <= List.length row)%nat.
Proof.
  induction row as [ | o row IH]; cbn; [lia | ].
  destruct o; cbn; lia.
Qed.

Lemma decisive_bound (rows : list (list outcome)) (n : nat) :
  Forall (fun row => List.length row = n) rows ->
  0 <= fold_right (fun row acc => Z.of_nat (List.length (filter is_win1 row)) + acc)
         0 rows
       + fold_right (fun row acc => Z.of_nat (List.length (filter is_win2 row)) + acc)
           0 rows
    <= Z.of_nat (List.length rows) * Z.of_nat n.
Proof.
  induction 1 as [ | row rows Hrow _ IH]; cbn [fold_right List.length]; [lia | ].
  pose proof (wins_exclusive row). nia.
Qed.

(** A round robin never hands out more wins than matches were played: the
    scores of the two populations together grow by at least 0 and at most
    the product of the two sizes (a match credits one side or none). *)
Theorem evaluation_total_credit (L : Libm) (G : RandomGen)
        (toolbox : Toolbox) (arena_size : float) (max_steps : Z)
        (pop1 pop2 pop1' pop2' : list Individual) (g g' : rng) :
  evaluate_individuals toolbox pop1 pop2 arena_size max_steps g
  = Ok ((pop1', pop2'), g') ->
  total_score pop1 + total_score pop2
  <= total_score pop1' + total_score pop2'
  <= total_score pop1 + total_score pop2
     + Z.of_nat (List.length pop1) * Z.of_nat (List.length pop2).
Proof.
  rewrite evaluate_rows.
  destruct (round_robin _ _ _ _ _ g) as [[rows g1] | e] eqn:Hrr;
    [ | discriminate].
  intros H. injection H as <- <- <-.
  destruct (round_robin_shape _ _ _ _ _ _ _ _ Hrr) as [Hlen Hall].
  rewrite !length_map in *.
  rewrite total_score_credit_rows by (rewrite init_fitness_length; exact Hlen).
  rewrite total_score_credit_columns
    by (rewrite init_fitness_length; exact Hall).
  rewrite !total_score_init.
  pose proof (decisive_bound rows (List.length pop2) Hall) as Hb.
  rewrite Hlen in Hb. lia.
Qed.

Lemma evaluation_total_credit_witness :
  @evaluate_individuals approx_libm tape_gen core_toolbox
    [mkIndividual shooter (Some 1)] [mkIndividual idler None] 200 100
    (duel_draws, [])
  = Ok (([mkIndividual shooter (Some 2)], [mkIndividual idler (Some 0)]),
        ([], [])) /\
  total_score [mkIndividual shooter (Some 1)] + total_score [mkIndividual idler None]
  <= total_score [mkIndividual shooter (Some 2)]
     + total_score [mkIndividual idler (Some 0)]
  <= total_score [mkIndividual shooter (Some 1)]
     + total_score [mkIndividual idler None]
     + Z.of_nat (List.length [mkIndividual shooter (Some 1)])
       * Z.of_nat (List.length [mkIndividual idler None]).
Proof.
  assert (@evaluate_individuals approx_libm tape_gen core_toolbox
            [mkIndividual shooter (Some 1)] [mkIndividual idler None] 200 100
            (duel_draws, [])
          = Ok (([mkIndividual shooter (Some 2)], [mkIndividual idler (Some 0)]),
                ([], []))) as H by (vm_compute; reflexivity).
  split; [exact H | ].
  exact (evaluation_total_credit approx_libm tape_gen core_toolbox
           200 100 _ _ _ _ _ _ H).
Defined.

(** ** Edge cases of the round robin *)

Lemma versus_nobody {L : Libm} {G : RandomGen} (toolbox : Toolbox)
      (arena_size : float) (max_steps : Z) (pop1 : list Individual) (g : rng) :
  compete toolbox arena_size max_steps pop1 [] g = Ok ((pop1, []), g).
Proof.
  induction pop1 as [ | ind1 rest IH]; [reflexivity | ].
  cbn [compete versus]. unfold mbind, mret in *. rewrite IH. reflexivity.
Qed.

(** Against an empty population no match is played: the individuals without
    a valid fitness get 0, the others keep their score, and no random number
    is drawn. *)
Theorem evaluation_of_empty_population (L : Libm) (G : RandomGen)
        (toolbox : Toolbox) (arena_size : float) (max_steps : Z)
        (pop : list Individual) (g : rng) :
  evaluate_individuals toolbox [] pop arena_size max_steps g
  = Ok (([], init_fitness pop), g) /\
  evaluate_individuals toolbox pop [] arena_size max_steps g
  = Ok ((init_fitness pop, []), g).
Proof.
  unfold evaluate_individuals. split; [reflexivity | ].
  apply versus_nobody.
Qed.

Lemma play_without_steps {L : Libm} {G : RandomGen} (toolbox : Toolbox)
      (arena_size : float) (max_steps : Z) (ind1 ind2 : Individual) (g : rng) :
  max_steps <= 0 ->
  exists g', play toolbox arena_size max_steps ind1 ind2 g = Ok ((ind1, ind2), g').
Proof.
  intros Hzero. unfold play, mbind.
  destruct (place_robots_ok arena_size g) as (robot1 & robot2 & g' & -> & H1 & H2).
  replace (Z.to_nat max_steps) with O by lia.
  cbn [battle lift]. unfold credit. rewrite H1, H2. cbn.
  exists g'. reflexivity.
Qed.

Lemma versus_without_steps {L : Libm} {G : RandomGen} (toolbox : Toolbox)
      (arena_size : float) (max_steps : Z) (pop2 : list Individual) :
  max_steps <= 0 ->
  forall ind1 g,
    exists g', versus toolbox arena_size max_steps ind1 pop2 g
               = Ok ((ind1, pop2), g').
Proof.
  intros Hzero. induction pop2 as [ | ind2 rest IH]; intros ind1 g.
  - exists g. reflexivity.
  - cbn [versus]. unfold mbind.
    destruct (play_without_steps toolbox arena_size max_steps ind1 ind2 g Hzero)
      as (g1 & ->).
    destruct (IH ind1 g1) as (g2 & ->).
    exists g2. reflexivity.
Qed.

(** With a step budget that is not positive, nobody wins: the round robin
    only starts the individuals without a valid fitness at 0, whatever the
    random draws. *)
Theorem evaluation_without_steps (L : Libm) (G : RandomGen)
        (toolbox : Toolbox) (arena_size : float) (max_steps : Z)
        (pop1 pop2 : list Individual) (g : rng) :
  max_steps <= 0 ->
  exists g',
    evaluate_individuals toolbox pop1 pop2 arena_size max_steps g
    = Ok ((init_fitness pop1, init_fitness pop2), g').
Proof.
  intros Hzero. unfold evaluate_individuals.
  generalize (init_fitness pop2) as q2. generalize (init_fitness pop1) as q1.
  intros q1. revert g. induction q1 as [ | ind1 rest IH]; intros g q2.
  - exists g. reflexivity.
  - cbn [compete]. unfold mbind.
    destruct (versus_without_steps toolbox arena_size max_steps q2 Hzero ind1 g)
      as (g1 & ->).
    destruct (IH g1 q2) as (g2 & ->).
    exists g2. reflexivity.
Qed.

Lemma evaluation_without_steps_witness :
  0 <= 0 /\
  exists g',
    @evaluate_individuals approx_libm tape_gen core_toolbox
      [mkIndividual shooter None] [mkIndividual idler (Some 4)] 200 0
      (duel_draws, [])
    = Ok ((init_fitness [mkIndividual shooter None],
           init_fitness [mkIndividual idler (Some 4)]), g').
Proof.
  assert (0 <= 0) as H by lia.
  split; [exact H | ].
  exact (evaluation_without_steps approx_libm tape_gen core_toolbox 200 0
           _ _ _ H).
Defined.

(** ** The evolutionary loop *)

Lemma population_length {G : RandomGen} (toolbox : Toolbox) (n : nat) :
  forall g pop g',
    population toolbox n g = Ok (pop, g') -> List.length pop = n.
Proof.
  induction n as [ | n IH]; intros g pop g' H.
  - injection H as <- _. reflexivity.
  - cbn [population] in H.
    apply mbind_ok in H as (ind & g1 & _ & H).
    apply mbind_ok in H as (rest & g2 & Hrest & H).
    injection H as <- _. cbn. f_equal. exact (IH _ _ _ Hrest).
Qed.

Lemma evaluate_lengths {L : Libm} {G : RandomGen} (toolbox : Toolbox)
      (arena_size : float) (max_steps : Z)
      (pop1 pop2 pop1' pop2' : list Individual) (g g' : rng) :
  evaluate_individuals toolbox pop1 pop2 arena_size max_steps g
  = Ok ((pop1', pop2'), g') ->
  List.length pop1' = List.length pop1 /\ List.length pop2' = List.length pop2.
Proof.
  rewrite evaluate_rows.
  destruct (round_robin _ _ _ _ _ g) as [[rows g1] | e]; [ | discriminate].
  intros H. injection H as <- <- _.
  rewrite credit_rows_length, credit_columns_length, !init_fitness_length.
  split; reflexivity.
Qed.

Lemma breed_lengths {G : RandomGen} (toolbox : Toolbox)
      (pop1 pop2 offspring1 offspring2 : list Individual) (g g' : rng) :
  (forall pop k g sel g',
     select toolbox pop k g = Ok (sel, g') -> List.length sel = k) ->
  breed toolbox pop1 pop2 g = Ok ((offspring1, offspring2), g') ->
  List.length offspring1 = List.length pop1 /\
  List.length offspring2 = List.length pop2.
Proof.
  intros Hselect H. unfold breed in H.
  apply mbind_ok in H as (sel1 & g1 & Hsel1 & H).
  apply mbind_ok in H as (sel2 & g2 & Hsel2 & H).
  apply mbind_ok in H as (crossed1 & g3 & Hc1 & H).
  apply mbind_ok in H as (crossed2 & g4 & Hc2 & H).
  apply mbind_ok in H as (mutated1 & g5 & Hm1 & H).
  apply mbind_ok in H as (mutated2 & g6 & Hm2 & H).
  injection H as <- <- _.
  apply Hselect in Hsel1, Hsel2.
  apply (crossover_pairs_fitness toolbox (List.length sel1)) in Hc1; [ | lia].
  apply (crossover_pairs_fitness toolbox (List.length sel2)) in Hc2; [ | lia].
  apply mutation_fitness in Hm1, Hm2.
  apply Forall2_length in Hc1, Hc2, Hm1, Hm2.
  split; congruence.
Qed.

(** One generation, spelled out. *)
Lemma evolve_step {L : Libm} {G : RandomGen} (toolbox : Toolbox) (n : nat)
      (run run' : Run) (g g' : rng) :
  evolve toolbox (S n) run g = Ok (run', g') ->
  exists bred1 bred2 g1 offspring1 offspring2 g2 fits1 fits2 avg1 max1 avg2 max2,
    breed toolbox (pop1 run) (pop2 run) g = Ok ((bred1, bred2), g1) /\
    evaluate_individuals toolbox bred1 bred2 200 100 g1
    = Ok ((offspring1, offspring2), g2) /\
    fitness_stats offspring1 = Ok fits1 /\ fitness_stats offspring2 = Ok fits2 /\
    average fits1 = Ok avg1 /\ maximum fits1 = Ok max1 /\
    average fits2 = Ok avg2 /\ maximum fits2 = Ok max2 /\
    evolve toolbox n
      (mkRun offspring1 offspring2
         (avg_fits1 run ++ [avg1]) (max_fits1 run ++ [max1])
         (avg_fits2 run ++ [avg2]) (max_fits2 run ++ [max2])) g2
    = Ok (run', g').
Proof.
  cbn [evolve]. intros H.
  apply mbind_ok in H as ([bred1 bred2] & g1 & Hbreed & H).
  apply mbind_ok in H as ([offspring1 offspring2] & g2 & Heval & H).
  apply mbind_ok in H as (fits1 & g3 & Hf1 & H). apply lift_ok in Hf1 as [Hf1 ->].
  apply mbind_ok in H as (fits2 & g3 & Hf2 & H). apply lift_ok in Hf2 as [Hf2 ->].
  apply mbind_ok in H as (avg1 & g3 & Ha1 & H). apply lift_ok in Ha1 as [Ha1 ->].
  apply mbind_ok in H as (max1 & g3 & Hm1 & H). apply lift_ok in Hm1 as [Hm1 ->].
  apply mbind_ok in H as (avg2 & g3 & Ha2 & H). apply lift_ok in Ha2 as [Ha2 ->].
  apply mbind_ok in H as (max2 & g3 & Hm2 & H). apply lift_ok in Hm2 as [Hm2 ->].
  exists bred1, bred2, g1, offspring1, offspring2, g2, fits1, fits2,
    avg1, max1, avg2, max2.
  repeat (split; [assumption | ]). exact H.
Qed.

(** A run that returns has recorded one average and one maximum per side
    and per generation, whatever the toolbox. *)
Theorem statistics_per_generation (L : Libm) (G : RandomGen)
        (setup : PrimitiveSet -> Toolbox) (pop_size generations : Z)
        (ifelse logicals angle_primitives : bool) (g g' : rng) (run : Run) :
  coevolution_with setup pop_size generations ifelse logicals angle_primitives g
  = Ok (run, g') ->
  List.length (avg_fits1 run) = Z.to_nat generations /\
  List.length (max_fits1 run) = Z.to_nat generations /\
  List.length (avg_fits2 run) = Z.to_nat generations /\
  List.length (max_fits2 run) = Z.to_nat generations.
Proof.
  unfold coevolution_with. intros H.
  apply mbind_ok in H as ([p1 p2] & g1 & _ & H).
  assert (forall n start gs run' gs',
             evolve (setup (create_primitive_set ifelse logicals angle_primitives))
               n start gs = Ok (run', gs') ->
             List.length (avg_fits1 run') = (List.length (avg_fits1 start) + n)%nat /\
             List.length (max_fits1 run') = (List.length (max_fits1 start) + n)%nat /\
             List.length (avg_fits2 run') = (List.length (avg_fits2 start) + n)%nat /\
             List.length (max_fits2 run') = (List.length (max_fits2 start) + n)%nat)
    as Hloop.
  { induction n as [ | n IH]; intros start gs run' gs' Hrun.
    - injection Hrun as <- _. repeat split; lia.
    - apply evolve_step in Hrun
        as (b1 & b2 & ga & o1 & o2 & gb & f1 & f2 & a1 & m1 & a2 & m2
            & _ & _ & _ & _ & _ & _ & _ & _ & Hrest).
      apply IH in Hrest. cbn [avg_fits1 max_fits1 avg_fits2 max_fits2] in Hrest.
      rewrite !length_app in Hrest. cbn [List.length] in Hrest.
      repeat split; lia. }
  apply Hloop in H. cbn in H. exact H.
Qed.

Lemma statistics_per_generation_witness :
  @coevolution_with approx_libm tape_gen (@setup_evolution approx_libm tape_gen)
    1 1 false false false run_draws
  = Ok (mkRun [mkIndividual shooter (Some 2)] [mkIndividual idler (Some 0)]
          [PyFloat 2] [2] [PyFloat 0] [0], ([], [])) /\
  List.length [PyFloat 2] = Z.to_nat 1 /\ List.length [2] = Z.to_nat 1 /\
  List.length [PyFloat 0] = Z.to_nat 1 /\ List.length [0] = Z.to_nat 1.
Proof.
  assert (@coevolution_with approx_libm tape_gen
            (@setup_evolution approx_libm tape_gen) 1 1 false false false
            run_draws
          = Ok (mkRun [mkIndividual shooter (Some 2)]
                  [mkIndividual idler (Some 0)] [PyFloat 2] [2] [PyFloat 0] [0],
                ([], []))) as H by (vm_compute; reflexivity).
  split; [exact H | ].
  exact (statistics_per_generation approx_libm tape_gen _ 1 1 false false false
           _ _ _ H).
Defined.

Lemma tournament_selects {G : RandomGen} (individuals : list Individual)
      (tournsize : nat) :
  forall k g sel g',
    selTournament individuals k tournsize g = Ok (sel, g') ->
    List.length sel = k.
Proof.
  induction k as [ | k IH]; intros g sel g' H.
  - injection H as <- _. reflexivity.
  - cbn [selTournament] in H.
    apply mbind_ok in H as (chosen & g1 & _ & H).
    apply mbind_ok in H as (rest & g2 & Hrest & H).
    injection H as <- _. cbn. f_equal. exact (IH _ _ _ Hrest).
Qed.

(** If selection returns as many individuals as it is asked for, the size
    of both populations is the requested one (none for a size that is not
    positive) at the end of a run: creation, crossover, mutation and
    evaluation never add or drop an individual. *)
Theorem population_size_invariant (L : Libm) (G : RandomGen)
        (setup : PrimitiveSet -> Toolbox) (pop_size generations : Z)
        (ifelse logicals angle_primitives : bool) (g g' : rng) (run : Run) :
  (forall pop k gs sel gs',
     select (setup (create_primitive_set ifelse logicals angle_primitives))
       pop k gs = Ok (sel, gs') ->
     List.length sel = k) ->
  coevolution_with setup pop_size generations ifelse logicals angle_primitives g
  = Ok (run, g') ->
  List.length (pop1 run) = Z.to_nat pop_size /\
  List.length (pop2 run) = Z.to_nat pop_size.
Proof.
  intros Hselect H. unfold coevolution_with in H.
  set (toolbox := setup (create_primitive_set ifelse logicals angle_primitives))
    in *.
  apply mbind_ok in H as ([p1 p2] & g1 & Hinit & H).
  unfold initial_populations in Hinit.
  apply mbind_ok in Hinit as (q1 & ga & Hq1 & Hinit).
  apply mbind_ok in Hinit as (q2 & gb & Hq2 & Hinit).
  apply population_length in Hq1, Hq2.
  apply evaluate_lengths in Hinit as [Hl1 Hl2].
  assert (forall n start gs run' gs',
             evolve toolbox n start gs = Ok (run', gs') ->
             List.length (pop1 run') = List.length (pop1 start) /\
             List.length (pop2 run') = List.length (pop2 start)) as Hloop.
  { induction n as [ | n IH]; intros start gs run' gs' Hrun.
    - injection Hrun as <- _. split; reflexivity.
    - apply evolve_step in Hrun
        as (b1 & b2 & gc & o1 & o2 & gd & f1 & f2 & a1 & m1 & a2 & m2
            & Hbreed & Heval & _ & _ & _ & _ & _ & _ & Hrest).
      apply (breed_lengths toolbox) in Hbreed as [Hb1 Hb2]; [ | exact Hselect].
      apply evaluate_lengths in Heval as [He1 He2].
      apply IH in Hrest as [Hr1 Hr2]. cbn [pop1 pop2] in Hr1, Hr2.
      split; congruence. }
  apply Hloop in H as [H1 H2]. cbn [pop1 pop2] in H1, H2.
  split; congruence.
Qed.

Lemma population_size_invariant_witness :
  (forall pop k gs sel gs',
     select (@setup_evolution approx_libm tape_gen
               (create_primitive_set false false false)) pop k gs
     = Ok (sel, gs') ->
     List.length sel = k) /\
  @coevolution_with approx_libm tape_gen (@setup_evolution approx_libm tape_gen)
    1 1 false false false run_draws
  = Ok (mkRun [mkIndividual shooter (Some 2)] [mkIndividual idler (Some 0)]
          [PyFloat 2] [2] [PyFloat 0] [0], ([], [])) /\
  List.length [mkIndividual shooter (Some 2)] = Z.to_nat 1 /\
  List.length [mkIndividual idler (Some 0)] = Z.to_nat 1.
Proof.
  assert (forall pop k gs sel gs',
             select (@setup_evolution approx_libm tape_gen
                       (create_primitive_set false false false)) pop k gs
             = Ok (sel, gs') ->
             List.length sel = k) as Hselect
      by (intros pop k gs sel gs'; apply tournament_selects).
  assert (@coevolution_with approx_libm tape_gen
            (@setup_evolution approx_libm tape_gen) 1 1 false false false
            run_draws
          = Ok (mkRun [mkIndividual shooter (Some 2)]
                  [mkIndividual idler (Some 0)] [PyFloat 2] [2] [PyFloat 0] [0],
                ([], []))) as H by (vm_compute; reflexivity).
  split; [exact Hselect | ]. split; [exact H | ].
  exact (population_size_invariant approx_libm tape_gen _ 1 1 false false false
           _ _ _ Hselect H).
Defined.

(** With a population size that is not positive and at least one
    generation, the run cannot return: selection from the empty population
    yields the empty pool, the round robin plays nothing, and the average of
    the first generation divides 0 by 0. *)
Theorem empty_population_fails (L : Libm) (G : RandomGen)
        (setup : PrimitiveSet -> Toolbox) (pop_size generations : Z)
        (ifelse logicals angle_primitives : bool) (g : rng) :
  pop_size <= 0 -> 0 < generations ->
  (forall gs,
     select (setup (create_primitive_set ifelse logicals angle_primitives))
       [] 0 gs = Ok ([], gs)) ->
  coevolution_with setup pop_size generations ifelse logicals angle_primitives g
  = Raise ZeroDivisionError.
Proof.
  intros Hsize Hgen Hselect. unfold coevolution_with, initial_populations.
  set (toolbox := setup (create_primitive_set ifelse logicals angle_primitives))
    in *.
  unfold mbind at 1 2 3. rewrite !population_empty by exact Hsize.
  destruct (Z.to_nat generations) as [ | n] eqn:En; [lia | ].
  cbn [evaluate_individuals init_fitness map compete mret evolve pop1 pop2].
  unfold breed, mbind. cbn [List.length]. rewrite !Hselect.
  reflexivity.
Qed.

Lemma empty_population_fails_witness :
  -2 <= 0 /\ 0 < 3 /\
  (forall gs,
     select (@setup_evolution approx_libm tape_gen
               (create_primitive_set false false false)) [] 0 gs
     = Ok ([], gs)) /\
  @coevolution_with approx_libm tape_gen (@setup_evolution approx_libm tape_gen)
    (-2) 3 false false false run_draws
  = Raise ZeroDivisionError.
Proof.
  assert (-2 <= 0) as H1 by lia. assert (0 < 3) as H2 by lia.
  assert (forall gs,
             select (@setup_evolution approx_libm tape_gen
                       (create_primitive_set false false false)) [] 0 gs
             = Ok ([], gs)) as H3 by (intros gs; reflexivity).
  split; [exact H1 | ]. split; [exact H2 | ]. split; [exact H3 | ].
  exact (empty_population_fails approx_libm tape_gen _ (-2) 3 false false false
           run_draws H1 H2 H3).
Defined.

Lemma fitness_stats_scores (pop : list Individual) (fits : list Z) :
  fitness_stats pop = Ok fits ->
  fits = map entry_score pop /\ Forall (fun ind => valid ind = true) pop.
Proof.
  revert fits. induction pop as [ | ind rest IH]; intros fits H.
  - injection H as <-. split; [reflexivity | constructor].
  - cbn [fitness_stats fold_right] in H.
    apply rbind_ok in H as (v & Hv & H).
    apply rbind_ok in H as (vs & Hvs & H). injection H as <-.
    destruct (IH vs Hvs) as [-> Hall].
    unfold fitness_value in Hv. unfold entry_score, valid.
    destruct (fitness ind) as [s | ] eqn:E; [ | discriminate Hv].
    injection Hv as <-. split.
    + cbn. unfold entry_score. rewrite E. reflexivity.
    + constructor; [unfold valid; rewrite E; reflexivity | exact Hall].
Qed.

Lemma maximum_greatest (fits : list Z) (m : Z) :
  maximum fits = Ok m -> In m fits /\ forall v, In v fits -> v <= m.
Proof.
  unfold maximum. destruct fits as [ | first rest]; [discriminate | ].
  intros H. injection H as <-.
  revert first. induction rest as [ | item rest IH]; intros first.
  - cbn. split; [left; reflexivity | ]. intros v [<- | []]. lia.
  - cbn [fold_left]. destruct (Z.ltb_spec first item) as [Hlt | Hge].
    + destruct (IH item) as [Hin Hmax]. split.
      * right. exact Hin.
      * intros v [<- | Hv]; [ | exact (Hmax v Hv)].
        specialize (Hmax item (or_introl eq_refl)). lia.
    + destruct (IH first) as [Hin Hmax]. split.
      * destruct Hin as [Hfirst | Hrest]; [left; exact Hfirst | right; right; exact Hrest].
      * intros v [<- | [<- | Hv]].
        -- exact (Hmax _ (or_introl eq_refl)).
        -- specialize (Hmax first (or_introl eq_refl)). lia.
        -- exact (Hmax v (or_intror Hv)).
Qed.

(** After at least one generation the last recorded statistics describe the
    returned populations: every individual has a valid fitness, the maximum
    is the score of some individual and no individual scores more, and the
    average is the quotient of the sum of the scores by the size. *)
Theorem final_statistics (L : Libm) (G : RandomGen) (toolbox : Toolbox) :
  forall (n : nat) (start run : Run) (g g' : rng),
    evolve toolbox (S n) start g = Ok (run, g') ->
    exists avgs1 avg1 maxs1 max1 avgs2 avg2 maxs2 max2,
      avg_fits1 run = avgs1 ++ [avg1] /\ max_fits1 run = maxs1 ++ [max1] /\
      avg_fits2 run = avgs2 ++ [avg2] /\ max_fits2 run = maxs2 ++ [max2] /\
      (exists ind, In ind (pop1 run) /\ fitness ind = Some max1) /\
      (forall ind, In ind (pop1 run) ->
         exists s, fitness ind = Some s /\ s <= max1) /\
      (exists ind, In ind (pop2 run) /\ fitness ind = Some max2) /\
      (forall ind, In ind (pop2 run) ->
         exists s, fitness ind = Some s /\ s <= max2) /\
      average (map entry_score (pop1 run)) = Ok avg1 /\
      average (map entry_score (pop2 run)) = Ok avg2.
Proof.
  assert (forall pop fits m,
             fitness_stats pop = Ok fits -> maximum fits = Ok m ->
             (exists ind, In ind pop /\ fitness ind = Some m) /\
             (forall ind, In ind pop -> exists s, fitness ind = Some s /\ s <= m))
    as Hmax.
  { intros pop fits m Hfits Hm.
    apply fitness_stats_scores in Hfits as [-> Hvalid].
    apply maximum_greatest in Hm as [Hin Hle].
    rewrite Forall_forall in Hvalid. split.
    - apply in_map_iff in Hin as (ind & Hscore & Hmember).
      exists ind. split; [exact Hmember | ].
      specialize (Hvalid ind Hmember). unfold valid, entry_score in *.
      destruct (fitness ind); [congruence | discriminate].
    - intros ind Hmember.
      specialize (Hle (entry_score ind) (in_map _ _ _ Hmember)).
      specialize (Hvalid ind Hmember). unfold valid, entry_score in *.
      destruct (fitness ind) as [s | ]; [ | discriminate].
      exists s. split; [reflexivity | exact Hle]. }
  induction n as [ | n IH]; intros start run g g' H.
  - apply evolve_step in H
      as (b1 & b2 & ga & o1 & o2 & gb & f1 & f2 & a1 & m1 & a2 & m2
          & _ & _ & Hf1 & Hf2 & Ha1 & Hm1 & Ha2 & Hm2 & Hrest).
    injection Hrest as <- _. cbn [avg_fits1 max_fits1 avg_fits2 max_fits2 pop1 pop2].
    destruct (Hmax o1 f1 m1 Hf1 Hm1) as [Hat1 Hall1].
    destruct (Hmax o2 f2 m2 Hf2 Hm2) as [Hat2 Hall2].
    apply fitness_stats_scores in Hf1 as [-> _].
    apply fitness_stats_scores in Hf2 as [-> _].
    exists (avg_fits1 start), a1, (max_fits1 start), m1,
      (avg_fits2 start), a2, (max_fits2 start), m2.
    repeat (split; [first [reflexivity | assumption] | ]). exact Ha2.
  - apply evolve_step in H
      as (b1 & b2 & ga & o1 & o2 & gb & f1 & f2 & a1 & m1 & a2 & m2
          & _ & _ & _ & _ & _ & _ & _ & _ & Hrest).
    exact (IH _ _ _ _ Hrest).
Qed.

Lemma final_statistics_witness :
  @evolve approx_libm tape_gen core_toolbox 1
    (mkRun [mkIndividual shooter (Some 1)] [mkIndividual idler (Some 0)]
       [] [] [] [])
    ([0.5; 0.5]%float ++ duel_draws, [0; 0; 0; 0; 0; 0]%nat)
  = Ok (mkRun [mkIndividual shooter (Some 2)] [mkIndividual idler (Some 0)]
          [PyFloat 2] [2] [PyFloat 0] [0], ([], [])) /\
  exists avgs1 avg1 maxs1 max1,
    [PyFloat 2] = avgs1 ++ [avg1] /\ [2] = maxs1 ++ [max1] /\
    (exists ind, In ind [mkIndividual shooter (Some 2)] /\ fitness ind = Some max1).
Proof.
  assert (@evolve approx_libm tape_gen core_toolbox 1
            (mkRun [mkIndividual shooter (Some 1)] [mkIndividual idler (Some 0)]
               [] [] [] [])
            ([0.5; 0.5]%float ++ duel_draws, [0; 0; 0; 0; 0; 0]%nat)
          = Ok (mkRun [mkIndividual shooter (Some 2)]
                  [mkIndividual idler (Some 0)] [PyFloat 2] [2] [PyFloat 0] [0],
                ([], []))) as H by (vm_compute; reflexivity).
  split; [exact H | ].
  destruct (final_statistics approx_libm tape_gen core_toolbox _ _ _ _ _ H)
    as (avgs1 & avg1 & maxs1 & max1 & _ & _ & _ & _ & Ha & Hm & _ & _ & Hat & _).
  exists avgs1, avg1, maxs1, max1. cbn in Ha, Hm, Hat.
  split; [exact Ha | ]. split; [exact Hm | exact Hat].
Defined.

(** ** The comparison and conditional primitives *)

Lemma py_lt_irrefl (a : pynum) : py_lt a a = false.
Proof.
  destruct a as [x | f]; simpl.
  - apply Z.ltb_irrefl.
  - apply float_lt_irrefl.
Qed.

Lemma py_lt_asym (a b : pynum) : py_lt a b = true -> py_lt b a = false.
Proof.
  destruct a as [x | f], b as [y | g]; simpl.
  - intros H. apply Z.ltb_lt in H. apply Z.ltb_ge. lia.
  - destruct (cmp_int_float x g) as [[ | | ] | ]; intros H;
      try discriminate H; reflexivity.
  - destruct (cmp_int_float y f) as [[ | | ] | ]; intros H;
      try discriminate H; reflexivity.
  - apply float_lt_asym.
Qed.

Lemma py_lt_nan (f : float) (b : pynum) :
  Prim2SF f = S754_nan -> py_lt (PyFloat f) b = false /\ py_lt b (PyFloat f) = false.
Proof.
  intros Hnan. destruct b as [y | g]; simpl.
  - unfold cmp_int_float. rewrite Hnan. split; reflexivity.
  - rewrite !ltb_spec. unfold SFltb, SFcompare. rewrite Hnan.
    split; [reflexivity | ]. destruct (Prim2SF g); reflexivity.
Qed.

(** The comparison primitives [greater_than] and [less_than] return the
    float 1.0 or the float 0.0; [greater_than a b] is [less_than b a]; they
    are never both 1.0 on the same operands, both are 0.0 on equal operands
    and whenever an operand is nan; and [if_then_else] on the result of a
    comparison picks its first branch exactly when the comparison holds. *)
Theorem comparison_primitives (a b : pynum) :
  (Primitives.greater_than a b = PyFloat 1 \/ Primitives.greater_than a b = PyFloat 0) /\
  (Primitives.less_than a b = PyFloat 1 \/ Primitives.less_than a b = PyFloat 0) /\
  Primitives.greater_than a b = Primitives.less_than b a /\
  (Primitives.greater_than a b = PyFloat 1 -> Primitives.less_than a b = PyFloat 0) /\
  Primitives.greater_than a a = PyFloat 0 /\
  Primitives.less_than a a = PyFloat 0 /\
  (forall f, Prim2SF f = S754_nan ->
             Primitives.greater_than (PyFloat f) b = PyFloat 0 /\
             Primitives.less_than (PyFloat f) b = PyFloat 0 /\
             Primitives.greater_than b (PyFloat f) = PyFloat 0 /\
             Primitives.less_than b (PyFloat f) = PyFloat 0) /\
  (forall out1 out2,
      Primitives.if_then_else (Primitives.greater_than a b) out1 out2
      = (if py_gt a b then out1 else out2) /\
      Primitives.if_then_else (Primitives.less_than a b) out1 out2
      = (if py_lt a b then out1 else out2)).
Proof.
  unfold Primitives.greater_than, Primitives.less_than, py_gt.
  split; [destruct (py_lt b a); [left | right]; reflexivity | ].
  split; [destruct (py_lt a b); [left | right]; reflexivity | ].
  split; [reflexivity | ].
  split.
  { destruct (py_lt b a) eqn:E.
    - intros _. rewrite (py_lt_asym b a E). reflexivity.
    - intros H.
      assert (Hsf : Prim2SF 0 = Prim2SF 1)
        by exact (f_equal (fun v => match v with
                                    | PyFloat f => Prim2SF f
                                    | PyInt _ => S754_nan
                                    end) H).
      vm_compute in Hsf. discriminate Hsf. }
  split; [rewrite py_lt_irrefl; reflexivity | ].
  split; [rewrite py_lt_irrefl; reflexivity | ].
  split.
  { intros f Hnan. destruct (py_lt_nan f b Hnan) as [H1 H2].
    rewrite H1, H2. repeat split. }
  intros out1 out2. unfold Primitives.if_then_else.
  split.
  - destruct (py_lt b a); reflexivity.
  - destruct (py_lt a b); reflexivity.
Qed.
